(** * fishutils: locating and patching hard-coded values in C++ sources

    A shallow embedding of [fishutils.py] (Python 2) and the properties of
    its locator, its value patcher, its index resolver, its column aligner
    and its file buffers.

    Conventions of the embedding.
    - A Python [str] is a [list ascii]; literals are written [py "..."].
    - A Python [int] is a [Z]; offsets into strings that Python may make
      negative ([str.find] gives [-1]) stay in [Z] and go through the slice
      rules of the language ([py_slice]).
    - Regular expressions are run by a backtracking matcher ([Re.exec]) with
      the priorities of Python's [re]: alternatives left to right, greedy
      and lazy repetition, capture groups, negative look-ahead, [^] under
      [re.MULTILINE].
    - A [float] read from a decimal string is the rational it denotes. *)

From Stdlib Require Import Ascii String List ZArith Lia Bool Arith QArith Qround.
From Stdlib Require DecimalZ DecimalPos.
Import ListNotations.

Local Open Scope string_scope.
Local Open Scope list_scope.
Local Open Scope Z_scope.

(** ** Python strings *)

Definition pystr := list ascii.

Definition py (s : string) : pystr := list_ascii_of_string s.

Definition len (s : pystr) : Z := Z.of_nat (length s).

Definition LF : ascii := ascii_of_nat 10.
Definition CR : ascii := ascii_of_nat 13.
Definition TAB : ascii := ascii_of_nat 9.
Definition VT : ascii := ascii_of_nat 11.
Definition FF : ascii := ascii_of_nat 12.
Definition SP : ascii := ascii_of_nat 32.

Fixpoint str_eqb (a b : pystr) : bool :=
  match a, b with
  | [], [] => true
  | x :: a', y :: b' => Ascii.eqb x y && str_eqb a' b'
  | _, _ => false
  end.

(** [s.startswith(p)] *)
Fixpoint startswith (s p : pystr) : bool :=
  match p, s with
  | [], _ => true
  | x :: p', y :: s' => Ascii.eqb x y && startswith s' p'
  | _ :: _, [] => false
  end.

(** [s.endswith(p)] *)
Definition endswith (s p : pystr) : bool := startswith (rev s) (rev p).

(** Offset of the first occurrence of [sub] in [s], scanning from its head. *)
Fixpoint find_at (sub s : pystr) : option nat :=
  if startswith s sub then Some O
  else match s with
       | [] => None
       | _ :: s' => option_map S (find_at sub s')
       end.

(** Python clamps a slice bound: a negative one counts from the end, and
    the result is brought into [0, len]. *)
Definition clamp (n i : Z) : Z :=
  if i <? 0 then Z.max (i + n) 0 else Z.min i n.

(** [s[lo:hi]] *)
Definition py_slice (s : pystr) (lo hi : Z) : pystr :=
  let n := len s in
  let a := clamp n lo in
  let b := clamp n hi in
  firstn (Z.to_nat (b - a)) (skipn (Z.to_nat a) s).

(** [s[lo:]] and [s[:hi]] *)
Definition slice_from (s : pystr) (lo : Z) : pystr := py_slice s lo (len s).
Definition slice_to (s : pystr) (hi : Z) : pystr := py_slice s 0 hi.

(** [s.find(sub, start)]: the lowest index [>= start] where [sub] occurs,
    or [-1]; a negative [start] counts from the end, and a [start] past
    the end finds nothing. *)
Definition py_find (s sub : pystr) (start : Z) : Z :=
  let n := len s in
  let a := if start <? 0 then Z.max (start + n) 0 else start in
  if n <? a then -1
  else match find_at sub (skipn (Z.to_nat a) s) with
       | Some k => a + Z.of_nat k
       | None => -1
       end.

Fixpoint count_char (c : ascii) (s : pystr) : Z :=
  match s with
  | [] => 0
  | x :: s' => (if Ascii.eqb x c then 1 else 0) + count_char c s'
  end.

(** [s.count(c, lo, hi)] for a one-character [c]. *)
Definition py_count (s : pystr) (c : ascii) (lo hi : Z) : Z :=
  count_char c (py_slice s lo hi).

(** [s.rjust(w)] *)
Definition rjust (s : pystr) (w : Z) : pystr :=
  repeat SP (Z.to_nat (w - len s)) ++ s.

(** ** The structural locator: [find_index] *)

Definition ch (s : string) : ascii :=
  match s with
  | String c _ => c
  | EmptyString => SP
  end.

(** [while s.count("{", 0, pos_new+1) - s.count("}", 0, pos_new+1) > d + 1:
        pos_new = s.find("}", pos_new + 1)] *)
Fixpoint skip_braces (fuel : nat) (s : pystr) (d : Z) (pos_new : Z) : Z :=
  match fuel with
  | O => pos_new
  | S fuel' =>
      if d + 1 <? py_count s (ch "{") 0 (pos_new + 1) - py_count s (ch "}") 0 (pos_new + 1)
      then skip_braces fuel' s d (py_find s [ch "}"] (pos_new + 1))
      else pos_new
  end.

(** [while s.count("(", pos, pos_new+1) - s.count(")", pos, pos_new+1) > 0:
        pos_new = s.find(")", pos_new + 1)] *)
Fixpoint skip_parens (fuel : nat) (s : pystr) (pos : Z) (pos_new : Z) : Z :=
  match fuel with
  | O => pos_new
  | S fuel' =>
      if 0 <? py_count s (ch "(") pos (pos_new + 1) - py_count s (ch ")") pos (pos_new + 1)
      then skip_parens fuel' s pos (py_find s [ch ")"] (pos_new + 1))
      else pos_new
  end.

(** Either loop leaves [pos_new] at [-1] or moves it right, so it runs at
    most [length s + 1] times (lemmas [skip_braces_fuel] and
    [skip_parens_fuel] below): this is the fuel [find_index] gives them. *)
Definition loop_fuel (s : pystr) : nat := S (S (length s)).

(** One pass of the inner [for i in range(l[d])] body. *)
Definition next_separator (s : pystr) (d : Z) (pos : Z) : Z :=
  let pos_new := py_find s [ch ","] (pos + 1) in
  let pos_new := skip_braces (loop_fuel s) s d pos_new in
  let pos_new := skip_parens (loop_fuel s) s pos pos_new in
  py_find s [ch ","] pos_new.

Fixpoint iterate {A} (n : nat) (f : A -> A) (x : A) : A :=
  match n with
  | O => x
  | S n' => iterate n' f (f x)
  end.

(** [for d in range(len(l)): for i in range(l[d]): ...] *)
Fixpoint walk_dims (s : pystr) (d : Z) (l : list Z) (pos : Z) : Z :=
  match l with
  | [] => pos
  | ld :: l' =>
      walk_dims s (d + 1) l' (iterate (Z.to_nat ld) (next_separator s d) pos)
  end.

Definition find_index (s : pystr) (l : list Z) : Z :=
  let pos := py_find s [ch "="] 0 in
  let pos := py_find s [ch "{"] pos + 1 in
  walk_dims s 0 l pos.

(** Nesting depth of round brackets at offset [p]: the openers minus the
    closers among the first [p] characters. *)
Definition paren_depth (s : pystr) (p : Z) : Z :=
  py_count s (ch "(") 0 p - py_count s (ch ")") 0 p.

Definition char_at (s : pystr) (p : Z) : option ascii :=
  if p <? 0 then None else nth_error s (Z.to_nat p).

(** ** Regular expressions

    The patterns of the program are run by a backtracking matcher in
    continuation-passing style: [exec r st k] tries the ways [r] can match
    at [st] in Python's order of preference and gives the first one whose
    continuation [k] succeeds. *)

Module Re.

Record state := mkState {
  pos : nat;                              (* offset into the subject *)
  rest : pystr;                           (* the subject from [pos] on *)
  prev : option ascii;                    (* the character before [pos] *)
  caps : list (string * (nat * nat))      (* groups closed so far, latest first *)
}.

Inductive regex :=
| Eps                                     (* the empty pattern *)
| Chr (p : ascii -> bool)                 (* one character of a class *)
| Seq (r1 r2 : regex)                     (* r1 r2 *)
| Alt (r1 r2 : regex)                     (* r1|r2 *)
| Star (greedy : bool) (r : regex)        (* r* and r*? *)
| Grp (name : string) (r : regex)         (* (?P<name>r) *)
| NotAhead (r : regex)                    (* (?!r) *)
| Bol.                                    (* ^ under re.MULTILINE *)

Definition advance (c : ascii) (tl : pystr) (st : state) : state :=
  mkState (S (pos st)) tl (Some c) (caps st).

Definition close_group (name : string) (from : nat) (st : state) : state :=
  mkState (pos st) (rest st) (prev st) ((name, (from, pos st)) :: caps st).

(** [r*] and [r*?] with [body] running [r]: a greedy repetition tries one
    more turn before it tries to go on, a lazy one the other way round. A
    turn that consumes nothing is not repeated, so the remaining length
    bounds the number of turns. *)
Fixpoint star_loop (body : state -> (state -> option state) -> option state)
  (greedy : bool) (k : state -> option state) (n : nat) (st : state)
  : option state :=
  let again (_ : unit) :=
    match n with
    | O => None
    | S n' =>
        body st (fun st1 =>
          if (pos st <? pos st1)%nat then star_loop body greedy k n' st1 else None)
    end in
  if greedy then
    match again tt with
    | Some res => Some res
    | None => k st
    end
  else
    match k st with
    | Some res => Some res
    | None => again tt
    end.

Fixpoint exec (r : regex) (st : state) (k : state -> option state) {struct r}
  : option state :=
  match r with
  | Eps => k st
  | Chr p =>
      match rest st with
      | c :: tl => if p c then k (advance c tl st) else None
      | [] => None
      end
  | Seq r1 r2 => exec r1 st (fun st1 => exec r2 st1 k)
  | Alt r1 r2 =>
      match exec r1 st k with
      | Some res => Some res
      | None => exec r2 st k
      end
  | Star greedy r1 => star_loop (exec r1) greedy k (length (rest st)) st
  | Grp name r1 => exec r1 st (fun st1 => k (close_group name (pos st) st1))
  | NotAhead r1 =>
      match exec r1 st Some with
      | Some _ => None
      | None => k st
      end
  | Bol =>
      match prev st with
      | None => k st
      | Some c => if Ascii.eqb c LF then k st else None
      end
  end.

(** A match object: the subject, the span of the whole match and the
    spans of the groups. *)
Record rmatch := mkMatch {
  m_string : pystr;
  m_start : nat;
  m_end : nat;
  m_caps : list (string * (nat * nat))
}.

(** Runs [r] at the offset held in [st]; on failure, at the next one. *)
Fixpoint search_from (r : regex) (whole : pystr) (st : state) (s : pystr)
  : option rmatch :=
  match exec r st Some with
  | Some res => Some (mkMatch whole (pos st) (pos res) (caps res))
  | None =>
      match s with
      | [] => None
      | c :: s' => search_from r whole (mkState (S (pos st)) s' (Some c) []) s'
      end
  end.

Definition start_state (s : pystr) : state := mkState O s None [].

(** [re.search(r, s)] *)
Definition search (r : regex) (s : pystr) : option rmatch :=
  search_from r s (start_state s) s.

(** [re.match(r, s)] *)
Definition match_ (r : regex) (s : pystr) : option rmatch :=
  match exec r (start_state s) Some with
  | Some res => Some (mkMatch s O (pos res) (caps res))
  | None => None
  end.

(** The search of [r] in [s] from offset [start] on. *)
Definition search_at (r : regex) (s : pystr) (start : nat) : option rmatch :=
  if (length s <? start)%nat then None
  else
    search_from r s
      (mkState start (skipn start s)
         (match start with O => None | S p => nth_error s p end) [])
      (skipn start s).

Fixpoint lookup (name : string) (l : list (string * (nat * nat)))
  : option (nat * nat) :=
  match l with
  | [] => None
  | (n, v) :: l' => if String.eqb n name then Some v else lookup name l'
  end.

Definition substr (s : pystr) (a b : nat) : pystr := firstn (b - a) (skipn a s).

(** [m.group()] *)
Definition group0 (m : rmatch) : pystr := substr (m_string m) (m_start m) (m_end m).

(** [m.group(name)]: [None] when the group took no part in the match. *)
Definition group (m : rmatch) (name : string) : option pystr :=
  match lookup name (m_caps m) with
  | Some (a, b) => Some (substr (m_string m) a b)
  | None => None
  end.

(** [m.start(name)] and [m.end(name)]: [-1] for a group that took no part. *)
Definition start (m : rmatch) (name : string) : Z :=
  match lookup name (m_caps m) with
  | Some (a, _) => Z.of_nat a
  | None => -1
  end.

Definition end_ (m : rmatch) (name : string) : Z :=
  match lookup name (m_caps m) with
  | Some (_, b) => Z.of_nat b
  | None => -1
  end.

(** Pattern syntax. *)
Definition lit (s : pystr) : regex :=
  fold_right (fun c r => Seq (Chr (Ascii.eqb c)) r) Eps s.

Definition plus (r : regex) : regex := Seq r (Star true r).     (* r+ *)
Definition opt (r : regex) : regex := Alt r Eps.                (* r? *)
Definition one (c : string) : regex := Chr (Ascii.eqb (ch c)).  (* a literal character *)

End Re.

Import Re.

Declare Scope re_scope.
Delimit Scope re_scope with re.
Bind Scope re_scope with regex.
Infix ";;" := Seq (at level 61, right associativity) : re_scope.
Infix "<|>" := Alt (at level 71, right associativity) : re_scope.

(** Character classes of Python 2's [re] without [re.LOCALE] or [re.UNICODE]. *)
Definition in_range (lo hi : nat) (c : ascii) : bool :=
  let n := nat_of_ascii c in ((lo <=? n) && (n <=? hi))%nat.

Definition is_digit (c : ascii) : bool := in_range 48 57 c.                   (* \d *)
Definition is_word (c : ascii) : bool :=                                      (* \w *)
  in_range 97 122 c || in_range 65 90 c || is_digit c || Ascii.eqb c (ch "_").
Definition is_space (c : ascii) : bool :=                                     (* \s *)
  Ascii.eqb c SP || Ascii.eqb c TAB || Ascii.eqb c LF || Ascii.eqb c CR
  || Ascii.eqb c FF || Ascii.eqb c VT.
Definition any_char (c : ascii) : bool := true.                    (* . under re.DOTALL *)
Definition not_newline (c : ascii) : bool := negb (Ascii.eqb c LF).           (* . *)
Definition one_of (s : string) (c : ascii) : bool :=
  existsb (Ascii.eqb c) (py s).
Definition none_of (s : string) (c : ascii) : bool := negb (one_of s c).
Definition blank (c : ascii) : bool := Ascii.eqb c SP || Ascii.eqb c TAB.     (* [ \t] *)
Definition dash_digit (c : ascii) : bool := Ascii.eqb c (ch "-") || is_digit c. (* [-\d] *)

(** ** Numbers read from and written to text *)

Inductive exn :=
| AssertionError
| ValueError
| OverflowError
| TypeError
| IOError
| NeitherIntNorEnum (token : pystr).   (* "Index %s is neither int nor enum." *)

(** The result of code that may raise. *)
Inductive res (A : Type) :=
| Ret (a : A)
| Raise (e : exn).
Arguments Ret {A} a.
Arguments Raise {A} e.

Definition bind {A B} (x : res A) (f : A -> res B) : res B :=
  match x with
  | Ret a => f a
  | Raise e => Raise e
  end.

Notation "x <- c1 ;; c2" := (bind c1 (fun x => c2))
  (at level 61, c1 at next level, right associativity).

(** [s.strip()] without argument. *)
Fixpoint lstrip (s : pystr) : pystr :=
  match s with
  | c :: s' => if is_space c then lstrip s' else s
  | [] => []
  end.

Definition rstrip (s : pystr) : pystr := rev (lstrip (rev s)).
Definition strip (s : pystr) : pystr := rstrip (lstrip s).

Definition digit_val (c : ascii) : Z := Z.of_nat (nat_of_ascii c) - 48.

(** Value of a run of decimal digits, most significant first. *)
Definition digits_val (s : pystr) : Z :=
  fold_left (fun acc c => 10 * acc + digit_val c) s 0.

Definition all_digits (s : pystr) : bool := forallb is_digit s.

(** An optional sign followed by the rest. *)
Definition split_sign (s : pystr) : Z * pystr :=
  match s with
  | c :: s' =>
      if Ascii.eqb c (ch "-") then (-1, s')
      else if Ascii.eqb c (ch "+") then (1, s')
      else (1, s)
  | [] => (1, [])
  end.

(** [int(s)] for a string: surrounding blanks, a sign, decimal digits. *)
Definition py_int (s : pystr) : res Z :=
  let (sign, body) := split_sign (strip s) in
  match body with
  | [] => Raise ValueError
  | _ => if all_digits body then Ret (sign * digits_val body) else Raise ValueError
  end.

(** A float as far as the program looks at it: a rational, or one of
    [inf] and [nan], which [int] refuses. *)
Inductive pyfloat :=
| Finite (q : Q)
| Inf
| NaN.

Fixpoint span (p : ascii -> bool) (s : pystr) : pystr * pystr :=
  match s with
  | c :: s' => if p c then let (a, b) := span p s' in (c :: a, b) else ([], s)
  | [] => ([], [])
  end.

Definition lower (c : ascii) : ascii :=
  if in_range 65 90 c then ascii_of_nat (nat_of_ascii c + 32) else c.

(** The exponent part [e<sign><digits>] of a float literal, or nothing. *)
Definition parse_exponent (s : pystr) : option Z :=
  match s with
  | [] => Some 0
  | c :: s' =>
      if Ascii.eqb (lower c) (ch "e") then
        let (sign, body) := split_sign s' in
        match body with
        | [] => None
        | _ => if all_digits body then Some (sign * digits_val body) else None
        end
      else None
  end.

(** [float(s)] for a string in decimal notation. *)
Definition py_float (s : pystr) : res pyfloat :=
  let (sign, body) := split_sign (strip s) in
  let word := map lower body in
  if str_eqb word (py "inf") || str_eqb word (py "infinity") then Ret Inf
  else if str_eqb word (py "nan") then Ret NaN
  else
    let (ip, r1) := span is_digit body in
    let (fp, r2) :=
      match r1 with
      | c :: r1' => if Ascii.eqb c (ch ".") then span is_digit r1' else ([], r1)
      | [] => ([], [])
      end in
    match ip ++ fp, parse_exponent r2 with
    | _ :: _, Some e =>
        Ret (Finite (Qmult (Qmake (sign * digits_val (ip ++ fp)) 1)
                           (Qpower (Qmake 10 1) (e - Z.of_nat (length fp)))))
    | _, _ => Raise ValueError
    end.

(** The rounding functions on offer: [ROUNDING]. Python 2's [round] takes
    a half away from zero. *)
Inductive rounding := round | ceil | floor.

Definition half : Q := Qmake 1 2.

Definition apply_rounding (f : rounding) (q : Q) : Z :=
  match f with
  | round => if Qle_bool 0 q then Qfloor (Qplus q half) else Qceiling (Qminus q half)
  | ceil => Qceiling q
  | floor => Qfloor q
  end.

(** [int(x)] for a float: towards zero. *)
Definition int_of_float (x : pyfloat) : res Z :=
  match x with
  | Finite q => Ret (if Qle_bool 0 q then Qfloor q else Qceiling q)
  | Inf => Raise OverflowError
  | NaN => Raise ValueError
  end.

(** [int(f_round(x))]: the rounding functions give back [inf] and [nan]. *)
Definition int_round (f : rounding) (x : pyfloat) : res Z :=
  match x with
  | Finite q => Ret (apply_rounding f q)
  | Inf => Raise OverflowError
  | NaN => Raise ValueError
  end.

Fixpoint uint_digits (d : Decimal.uint) : pystr :=
  match d with
  | Decimal.Nil => []
  | Decimal.D0 d' => ch "0" :: uint_digits d'
  | Decimal.D1 d' => ch "1" :: uint_digits d'
  | Decimal.D2 d' => ch "2" :: uint_digits d'
  | Decimal.D3 d' => ch "3" :: uint_digits d'
  | Decimal.D4 d' => ch "4" :: uint_digits d'
  | Decimal.D5 d' => ch "5" :: uint_digits d'
  | Decimal.D6 d' => ch "6" :: uint_digits d'
  | Decimal.D7 d' => ch "7" :: uint_digits d'
  | Decimal.D8 d' => ch "8" :: uint_digits d'
  | Decimal.D9 d' => ch "9" :: uint_digits d'
  end.

(** [str(n)] for an integer. *)
Definition str_of_int (n : Z) : pystr :=
  match Z.to_int n with
  | Decimal.Pos d => uint_digits d
  | Decimal.Neg d => ch "-" :: uint_digits d
  end.

(** ** Source files: [SourceFile] *)

(** The files on disk, by path; the latest write to a path comes first. *)
Definition filesystem := list (pystr * pystr).

Fixpoint fs_read (disk : filesystem) (path : pystr) : res pystr :=
  match disk with
  | [] => Raise IOError
  | (p, content) :: disk' => if str_eqb p path then Ret content else fs_read disk' path
  end.

Definition fs_write (disk : filesystem) (path content : pystr) : filesystem :=
  (path, content) :: disk.

Record SourceFile := mkSourceFile {
  path : pystr;
  in_memory : bool;
  orig : option pystr;       (* [None] is Python's [None] *)
  curr : option pystr
}.

(** [SourceFile.__init__] *)
Definition SourceFile_init (disk : filesystem) (path : pystr) (in_memory : bool)
  : res SourceFile :=
  if in_memory then
    content <- fs_read disk path ;;
    Ret (mkSourceFile path true (Some content) (Some content))
  else Ret (mkSourceFile path false None None).

(** [SourceFile.read_orig] *)
Definition read_orig (f : SourceFile) : res (option pystr) :=
  if in_memory f then Ret (orig f) else Raise AssertionError.

(** [SourceFile.read] *)
Definition read (disk : filesystem) (f : SourceFile) : res (option pystr) :=
  if in_memory f then Ret (curr f)
  else content <- fs_read disk (path f) ;; Ret (Some content).

(** [SourceFile.write] *)
Definition write (disk : filesystem) (f : SourceFile) (s : pystr)
  : filesystem * SourceFile :=
  if in_memory f then (disk, mkSourceFile (path f) (in_memory f) (orig f) (Some s))
  else (fs_write disk (path f) s, f).

(** [SourceFile.save]: writing [None] to a file is a [TypeError]. *)
Definition save (disk : filesystem) (f : SourceFile) : res filesystem :=
  if in_memory f then
    match curr f with
    | Some s => Ret (fs_write disk (path f) s)
    | None => Raise TypeError
    end
  else Ret disk.

(** [s.splitlines(True)]: the lines of [s] with their line ends, which are
    [\n], [\r] and [\r\n]. *)
Fixpoint splitlines_keep_aux (s : pystr) (line : pystr) : list pystr :=
  match s with
  | [] => match line with [] => [] | _ => [rev line] end
  | c :: s' =>
      if Ascii.eqb c LF then rev (c :: line) :: splitlines_keep_aux s' []
      else if Ascii.eqb c CR then
        match s' with
        | c' :: s'' =>
            if Ascii.eqb c' LF then rev (c' :: c :: line) :: splitlines_keep_aux s'' []
            else rev (c :: line) :: splitlines_keep_aux s' []
        | [] => [rev (c :: line)]
        end
      else splitlines_keep_aux s' (c :: line)
  end.

Definition splitlines_keep (s : pystr) : list pystr := splitlines_keep_aux s [].

Section Diff.

(** [difflib.unified_diff(a, b, fromfile, tofile)], a library function the
    program only prints the result of. *)
Variable unified_diff : list pystr -> list pystr -> pystr -> pystr -> list pystr.

(** [SourceFile.diff] *)
Definition diff (f : SourceFile) : res pystr :=
  if in_memory f then
    match orig f, curr f with
    | Some o, Some c =>
        Ret (concat (unified_diff (splitlines_keep o) (splitlines_keep c) (path f) (path f)))
    | _, _ => Raise TypeError
    end
  else Raise AssertionError.

End Diff.

(** ** The collection of files: [Repository] *)

Record Repository := mkRepository {
  src_path : pystr;
  repo_in_memory : bool;
  files : list SourceFile
}.

(** The state the program works on: the disk and the repository object. *)
Record world := mkWorld {
  disk : filesystem;
  repo : Repository
}.

(** [is_source(f)] for a path that is a regular file. *)
Definition is_source (f : pystr) : bool :=
  endswith f (py ".h") || endswith f (py ".cpp").

Fixpoint init_files (disk : filesystem) (paths : list pystr) (in_memory : bool)
  : res (list SourceFile) :=
  match paths with
  | [] => Ret []
  | p :: paths' =>
      f <- SourceFile_init disk p in_memory ;;
      fs <- init_files disk paths' in_memory ;;
      Ret (f :: fs)
  end.

(** [Repository.__init__], given the paths of the regular files that
    [os.listdir] finds under [src_path]. *)
Definition Repository_init (disk : filesystem) (src_path : pystr)
  (listing : list pystr) (in_memory : bool) : res Repository :=
  fs <- init_files disk (filter is_source listing) in_memory ;;
  Ret (mkRepository src_path in_memory fs).

Fixpoint update_nth {A} (n : nat) (x : A) (l : list A) : list A :=
  match l, n with
  | [], _ => []
  | _ :: l', O => x :: l'
  | y :: l', S n' => y :: update_nth n' x l'
  end.

(** [f.write(s)] for the file at place [k] of [repo.files]. *)
Definition write_file (w : world) (k : nat) (s : pystr) : world :=
  match nth_error (files (repo w)) k with
  | Some f =>
      let (d, f') := write (disk w) f s in
      mkWorld d (mkRepository (src_path (repo w)) (repo_in_memory (repo w))
                   (update_nth k f' (files (repo w))))
  | None => w
  end.

(** ** The patterns of the program

    A name spliced into a pattern is read as a literal: it is one when it
    holds no character that [re] gives a meaning to, which is so for the
    names the tuning report can carry (word characters) and for index
    tokens made of word characters and blanks ([plain]). Function mode
    and align mode take any run of characters that are not white space for
    a name; what is proved of a definition found under such a name holds
    for the names without such a character. *)

Definition plain (s : pystr) : bool := forallb (fun c => is_word c || is_space c) s.

Local Open Scope re_scope.

(** ["^([\w \t]*\s+|)(?P<type>\w+)\s+" + varname +
    "((\[|\s)?(\[[^=;\\\{\}\[\]]*\])*[ \t]*)?=(?P<def>(?!=)[^;]*?);"] *)
Definition def_pattern (varname : pystr) : regex :=
  Bol ;;
  ((Star true (Chr (fun c => is_word c || blank c)) ;; plus (Chr is_space)) <|> Eps) ;;
  Grp "type" (plus (Chr is_word)) ;;
  plus (Chr is_space) ;;
  lit varname ;;
  opt (opt (one "[" <|> Chr is_space) ;;
       Star true (one "[" ;; Star true (Chr (none_of "=;\{}[]")) ;; one "]") ;;
       Star true (Chr blank)) ;;
  one "=" ;;
  Grp "def" (NotAhead (one "=") ;; Star false (Chr (none_of ";"))) ;;
  one ";".

(** ["^\s*enum\s*" + r"[\w\s:]*{([^{}]*?(\s|,))?" + varname + "(\s|,|}).*?;"],
    compiled with [re.DOTALL]. *)
Definition enum_pattern (varname : pystr) : regex :=
  Bol ;;
  Star true (Chr is_space) ;;
  lit (py "enum") ;;
  Star true (Chr is_space) ;;
  Star true (Chr (fun c => is_word c || is_space c || Ascii.eqb c (ch ":"))) ;;
  one "{" ;;
  opt (Star false (Chr (none_of "{}")) ;; (Chr is_space <|> one ",")) ;;
  lit varname ;;
  (Chr is_space <|> one "," <|> one "}") ;;
  Star false (Chr any_char) ;;
  one ";".

(** [(?:(?!#|//).)*?]: as few characters as needed of a line, none of
    them starting a comment or a preprocessor line. *)
Definition code_prefix : regex :=
  Star false (NotAhead (one "#" <|> lit (py "//")) ;; Chr not_newline).

(** ["^(?:(?!#|//).)*?(S|make_score)\((?P<m>\s*[-\d]+)\s*,(?P<e>\s*[-\d]+)\s*\)"] *)
Definition score_pattern : regex :=
  Bol ;; code_prefix ;;
  (lit (py "S") <|> lit (py "make_score")) ;;
  one "(" ;;
  Grp "m" (Star true (Chr is_space) ;; plus (Chr dash_digit)) ;;
  Star true (Chr is_space) ;;
  one "," ;;
  Grp "e" (Star true (Chr is_space) ;; plus (Chr dash_digit)) ;;
  Star true (Chr is_space) ;;
  one ")".

(** ["^(?:(?!#|//).)*?(((V|Value)\((?P<v>\s*[-\d]+)\s*\))|(?P<enum>\w+))"] *)
Definition value_pattern : regex :=
  Bol ;; code_prefix ;;
  (((lit (py "V") <|> lit (py "Value")) ;;
    one "(" ;;
    Grp "v" (Star true (Chr is_space) ;; plus (Chr dash_digit)) ;;
    Star true (Chr is_space) ;;
    one ")")
   <|> Grp "enum" (plus (Chr is_word))).

(** ["^(?:(?!#|//).)*?((?P<v>[ \t]*[-\d]+)|(?P<enum>\w+))"] *)
Definition int_pattern : regex :=
  Bol ;; code_prefix ;;
  (Grp "v" (Star true (Chr blank) ;; plus (Chr dash_digit))
   <|> Grp "enum" (plus (Chr is_word))).

(** [entry + "\s*=\s*(?P<v>(-)?\d+)"] *)
Definition enum_value_pattern (entry : pystr) : regex :=
  lit entry ;;
  Star true (Chr is_space) ;; one "=" ;; Star true (Chr is_space) ;;
  Grp "v" (opt (one "-") ;; plus (Chr is_digit)).

(** [enum_name + "\s*=\s*(?P<v>\d+)"] *)
Definition enum_literal_pattern (enum_name : pystr) : regex :=
  lit enum_name ;;
  Star true (Chr is_space) ;; one "=" ;; Star true (Chr is_space) ;;
  Grp "v" (plus (Chr is_digit)).

(** ["^\s*param: (?P<name>\w*)(?P<indices>[[\]\w\s]*), best: (?P<value_new>[\w.-]*),
    start: (?P<value_old>[\w.-]*)"] *)
Definition spsa_line_pattern : regex :=
  Bol ;; Star true (Chr is_space) ;; lit (py "param: ") ;;
  Grp "name" (Star true (Chr is_word)) ;;
  Grp "indices" (Star true (Chr (fun c => one_of "[]" c || is_word c || is_space c))) ;;
  lit (py ", best: ") ;;
  Grp "value_new" (Star true (Chr (fun c => is_word c || one_of ".-" c))) ;;
  lit (py ", start: ") ;;
  Grp "value_old" (Star true (Chr (fun c => is_word c || one_of ".-" c))).

(** ["^\s*(?P<name>\S+)\s*;\s*(?P<func>.+?)\s*$"] *)
Definition function_line_name : regex :=
  Bol ;; Star true (Chr is_space) ;;
  Grp "name" (plus (Chr (fun c => negb (is_space c)))) ;;
  Star true (Chr is_space) ;; one ";".

Local Close Scope re_scope.

(** ** Looking definitions up: [Repository.search_def] *)

(** [re.search(pattern, f.read(), re.DOTALL | re.MULTILINE)] for the files in
    order; the result is the first match and the place of its file in
    [repo.files]. *)
Fixpoint search_files (disk : filesystem) (pattern : regex) (fs : list SourceFile)
  (k : nat) : res (option (rmatch * nat)) :=
  match fs with
  | [] => Ret None
  | f :: fs' =>
      s <- read disk f ;;
      match s with
      | None => Raise TypeError
      | Some s =>
          match search pattern s with
          | Some m => Ret (Some (m, k))
          | None => search_files disk pattern fs' (S k)
          end
      end
  end.

Definition search_def (w : world) (varname : pystr) (enum : bool)
  : res (option (rmatch * nat)) :=
  search_files (disk w)
    (if enum then enum_pattern varname else def_pattern varname)
    (files (repo w)) O.

(** ** Resolving indices: [get_index] and [Repository.parse_indices] *)

Definition group_or_raise (m : rmatch) (name : string) : res pystr :=
  match group m name with
  | Some s => Ret s
  | None => Raise TypeError
  end.

(** [get_index(enum, entry)] *)
Definition get_index (enum entry : pystr) : res Z :=
  match search (enum_value_pattern entry) enum with
  | Some m => v <- group_or_raise m "v" ;; py_int v
  | None => Ret (count_char (ch ",") (slice_to enum (py_find enum entry 0)))
  end.

(** One index token: an integer literal, or else the name of an enum
    constant ([try: i = int(i) except ValueError: ...]). *)
Definition resolve_index (w : world) (i : pystr) : res Z :=
  match py_int i with
  | Ret v => Ret v
  | Raise ValueError =>
      r <- search_def w i true ;;
      match r with
      | Some (m, _) => get_index (group0 m) i
      | None => Raise (NeitherIntNorEnum i)
      end
  | Raise e => Raise e
  end.

(** The [while s != ""] loop; every turn drops at least the three
    characters of a bracket pair, so [length s] turns are enough. *)
Fixpoint parse_indices_loop (fuel : nat) (w : world) (s : pystr) (l : list Z)
  : res (list Z) :=
  match fuel, s with
  | O, _ => Ret l
  | _, [] => Ret l
  | S fuel', _ =>
      let p1 := py_find s [ch "["] 0 in
      let p2 := py_find s [ch "]"] 0 in
      if (p1 =? -1) || (p2 =? -1) || (p2 <=? p1 + 1) then Ret l
      else
        v <- resolve_index w (py_slice s (p1 + 1) p2) ;;
        parse_indices_loop fuel' w (slice_from s (p2 + 1)) (l ++ [v])
  end.

Definition parse_indices (w : world) (s : pystr) : res (list Z) :=
  parse_indices_loop (length s) w s [].

(** ** The value patcher: [Repository.process_spsa_match] *)

(** The groups of a matched line of a tuning report. *)
Record spsa_input := mkInput {
  name : pystr;
  indices : pystr;
  value_new : pystr;
  value_old : pystr
}.

(** [ResultParser.read_line] *)
Definition read_spsa_line (line : pystr) : option spsa_input :=
  match match_ spsa_line_pattern line with
  | Some m =>
      match group m "name", group m "indices", group m "value_new", group m "value_old" with
      | Some n, Some i, Some vn, Some vo => Some (mkInput n i vn vo)
      | _, _, _, _ => None
      end
  | None => None
  end.

(** What a request ends in when nothing is raised: the file is written, or
    an error is logged and the request is given up. *)
Inductive logged :=
| DefinitionNotFound       (* "%s: Definition not found." *)
| UnknownType (t : pystr)   (* "%s: Unknown type %s." *)
| ValueNotFound            (* "%s: Not found." *)
| EnumNotHandled (e : pystr) (* "Replacing %s failed. Definition '%s' can not be handled." *)
| FunctionNotParsed        (* "%s: Function '%s' could not be parsed." *)
| FunctionFailed.          (* "%s: Failed to apply function '%s'." *)

(** The edit a request comes to: the file to write, its text, the span to
    replace and what to put there. *)
Record patch := mkPatch {
  p_file : nat;              (* place of [f] in [repo.files] *)
  p_string : pystr;          (* [match_definition.string] *)
  p_lo : Z;                  (* [match_definition.start() + i + match_value.start(prefix)] *)
  p_hi : Z;                  (* [match_definition.start() + i + match_value.end(prefix)] *)
  p_old : pystr;             (* [match_value.group(prefix)] *)
  p_new : pystr              (* [new_val] *)
}.

(** [fstr] *)
Definition patched_text (p : patch) : pystr :=
  slice_to (p_string p) (p_lo p) ++ rjust (p_new p) (len (p_old p))
  ++ slice_from (p_string p) (p_hi p).

Definition is_score_prefix (prefix : pystr) : bool :=
  str_eqb prefix (py "m") || str_eqb prefix (py "e").

(** [x in ("int")]: the right-hand side is a string, so this asks whether
    [x] occurs in it. *)
Definition in_int (x : pystr) : bool :=
  match find_at x (py "int") with
  | Some _ => true
  | None => false
  end.

(** The pattern that reads the value at the located place, by the prefix
    of the request and the declared type. *)
Definition select_pattern (prefix type : pystr) : option regex :=
  if is_score_prefix prefix then Some score_pattern
  else if str_eqb type (py "Value") then Some value_pattern
  else if in_int type then Some int_pattern
  else None.

(** [if match_value.group(prefix) is None: ...]: when the located place
    holds a name and no literal, the literal to replace is the one the name
    is given in its enum. The result is the definition, its file, the
    match of the literal, the group that holds it and the offset the match
    was searched from. *)
Definition literal_or_enum (w : world) (match_definition : rmatch) (f : nat)
  (match_value : rmatch) (prefix : pystr) (i : Z)
  : res (logged + rmatch * nat * rmatch * pystr * Z) :=
  match group match_value (string_of_list_ascii prefix) with
  | Some _ => Ret (inr (match_definition, f, match_value, prefix, i))
  | None =>
      enum_name <- group_or_raise match_value "enum" ;;
      found <- search_def w enum_name true ;;
      match found with
      | Some (match_definition, f) =>
          match search (enum_literal_pattern enum_name) (group0 match_definition) with
          | Some match_value => Ret (inr (match_definition, f, match_value, py "v", 0))
          | None => Raise AssertionError
          end
      | None => Ret (inl (EnumNotHandled enum_name))
      end
  end.

(** Everything [process_spsa_match] does before it writes. *)
Definition spsa_patch (w : world) (inp : spsa_input) (f_round : rounding)
  : res (logged + patch) :=
  let '(name, prefix) :=
    if startswith (name inp) (py "m") || startswith (name inp) (py "e")
    then (slice_from (name inp) 1, firstn 1 (name inp))
    else (name inp, py "v") in
  indices <- parse_indices w (indices inp) ;;
  found <- search_def w name false ;;
  match found with
  | None => Ret (inl DefinitionNotFound)
  | Some (match_definition, f) =>
      let s2 := group0 match_definition in
      let i := find_index s2 indices in
      x <- py_float (value_new inp) ;;
      n <- int_round f_round x ;;
      let new_val := str_of_int n in
      type <- group_or_raise match_definition "type" ;;
      if negb (Bool.eqb (str_eqb type (py "Score")) (is_score_prefix prefix))
      then Raise AssertionError
      else
        match select_pattern prefix type with
        | None => Ret (inl (UnknownType type))
        | Some pattern =>
            match search pattern (slice_from s2 i) with
            | None => Ret (inl ValueNotFound)
            | Some match_value =>
                located <- literal_or_enum w match_definition f match_value prefix i ;;
                match located with
                | inl e => Ret (inl e)
                | inr (match_definition, f, match_value, prefix, i) =>
                    let g := string_of_list_ascii prefix in
                    old <- group_or_raise match_value g ;;
                    _ <- py_int old ;;
                    y <- py_float (value_old inp) ;;
                    _ <- int_of_float y ;;
                    Ret (inr (mkPatch f (m_string match_definition)
                                (Z.of_nat (m_start match_definition) + i + start match_value g)
                                (Z.of_nat (m_start match_definition) + i + end_ match_value g)
                                old new_val))
                end
            end
        end
  end.

(** How a request ended when nothing was raised. *)
Inductive status :=
| Written
| Skipped (why : logged).

(** [Repository.process_spsa_match(match_input, f_round)] *)
Definition process_spsa_match (w : world) (inp : spsa_input) (f_round : rounding)
  : world * res status :=
  match spsa_patch w inp f_round with
  | Ret (inr p) => (write_file w (p_file p) (patched_text p), Ret Written)
  | Ret (inl e) => (w, Ret (Skipped e))
  | Raise e => (w, Raise e)
  end.

(** ** Substitution: [pattern.sub] *)

(** [pattern.sub(repl, s)] cuts [s] into the text between matches and the
    matches, left to right and without overlap. [start] is where the next
    search begins, [i] the end of the last match replaced and [n] the
    number of matches replaced so far; an empty match right after a
    replaced one is passed over. Every turn moves [start] to the right. *)
Fixpoint sub_pieces (fuel : nat) (r : regex) (s : pystr) (start i n : nat)
  : list (pystr + rmatch) :=
  match fuel with
  | O => [inl (skipn i s)]
  | S fuel' =>
      match search_at r s start with
      | None => [inl (skipn i s)]
      | Some m =>
          let b := m_start m in
          let e := m_end m in
          let start' := if (e =? b)%nat then S e else e in
          if (i =? b)%nat && (i =? e)%nat && (0 <? n)%nat
          then inl (substr s i b) :: sub_pieces fuel' r s start' i n
          else inl (substr s i b) :: inr m :: sub_pieces fuel' r s start' e (S n)
      end
  end.

Definition pieces (r : regex) (s : pystr) : list (pystr + rmatch) :=
  sub_pieces (S (S (length s))) r s O O O.

(** [pattern.sub(repl, s)] for a function [repl], which may raise. *)
Fixpoint sub_with (repl : rmatch -> res pystr) (ps : list (pystr + rmatch))
  : res pystr :=
  match ps with
  | [] => Ret []
  | inl t :: ps' => rest <- sub_with repl ps' ;; Ret (t ++ rest)
  | inr m :: ps' => x <- repl m ;; rest <- sub_with repl ps' ;; Ret (x ++ rest)
  end.

Definition re_sub_fun (r : regex) (repl : rmatch -> res pystr) (s : pystr) : res pystr :=
  sub_with repl (pieces r s).

(** [re.sub(r, repl, s)] for a string [repl] without group references. *)
Definition re_sub (r : regex) (repl : pystr) (s : pystr) : pystr :=
  concat (map (fun p => match p with inl t => t | inr _ => repl end) (pieces r s)).

(** ** The function transformer: [Repository.process_function_match] *)

(** The groups of a matched line in function mode. *)
Record function_input := mkFunctionInput {
  fn_name : pystr;
  fn_func : pystr
}.

Section FunctionMode.

(** [eval(parser.expr('lambda x: ' + f_string).compile())]: Python's own
    parser and evaluator. [None] stands for a formula they refuse; the
    function they give takes a float and gives a number or raises. *)
Variable compile_lambda : pystr -> option (pyfloat -> res pyfloat).

(** [lambda x: str(int(f_round(func(float(x.group())))))] *)
Definition transform_literal (func : pyfloat -> res pyfloat) (f_round : rounding)
  (literal : pystr) : res pystr :=
  x <- py_float literal ;;
  y <- func x ;;
  n <- int_round f_round y ;;
  Ret (str_of_int n).

Definition process_function_match (w : world) (inp : function_input)
  (f_round : rounding) : world * res status :=
  match search_def w (fn_name inp) false with
  | Raise e => (w, Raise e)
  | Ret None => (w, Ret (Skipped DefinitionNotFound))
  | Ret (Some (match_definition, f)) =>
      match compile_lambda (fn_func inp) with
      | None => (w, Ret (Skipped FunctionNotParsed))
      | Some func =>
          match group match_definition "def" with
          | None => (w, Raise TypeError)
          | Some def_string =>
              match re_sub_fun (plus (Chr is_digit))
                      (fun x => transform_literal func f_round (group0 x)) def_string with
              | Raise _ => (w, Ret (Skipped FunctionFailed))
              | Ret new_def =>
                  let fstr :=
                    slice_to (m_string match_definition) (start match_definition "def")
                    ++ new_def
                    ++ slice_from (m_string match_definition) (end_ match_definition "def") in
                  (write_file w f fstr, Ret Written)
              end
          end
      end
  end.

End FunctionMode.

(** ** The column aligner: [Repository.align] and [Repository.align_array] *)

(** [s.splitlines()] *)
Fixpoint splitlines_aux (s : pystr) (line : pystr) : list pystr :=
  match s with
  | [] => match line with [] => [] | _ => [rev line] end
  | c :: s' =>
      if Ascii.eqb c LF then rev line :: splitlines_aux s' []
      else if Ascii.eqb c CR then
        match s' with
        | c' :: s'' =>
            if Ascii.eqb c' LF then rev line :: splitlines_aux s'' []
            else rev line :: splitlines_aux s' []
        | [] => [rev line]
        end
      else splitlines_aux s' (c :: line)
  end.

Definition splitlines (s : pystr) : list pystr := splitlines_aux s [].

(** [sep.join(l)] *)
Fixpoint join (sep : pystr) (l : list pystr) : pystr :=
  match l with
  | [] => []
  | [x] => x
  | x :: l' => x ++ sep ++ join sep l'
  end.

(** [os.path.commonprefix([a, b])] *)
Fixpoint commonprefix (a b : pystr) : pystr :=
  match a, b with
  | x :: a', y :: b' => if Ascii.eqb x y then x :: commonprefix a' b' else []
  | _, _ => []
  end.

(** [s.rstrip(',')] *)
Fixpoint lstrip_char (c : ascii) (s : pystr) : pystr :=
  match s with
  | x :: s' => if Ascii.eqb x c then lstrip_char c s' else s
  | [] => []
  end.

Definition rstrip_char (c : ascii) (s : pystr) : pystr := rev (lstrip_char c (rev s)).

Definition is_delimiter (c : ascii) : bool := one_of "{}()," c.

(** [re.sub('[^{}\(\),]*', '', line)] *)
Definition fingerprint (line : pystr) : pystr :=
  re_sub (Star true (Chr (none_of "{}(),"))) [] line.

(** [lines[i][:pos_old+1] + n * ' ' + lines[i][pos_old+1:]] *)
Definition pad_after (line : pystr) (pos_old n : Z) : pystr :=
  slice_to line (pos_old + 1) ++ repeat SP (Z.to_nat n) ++ slice_from line (pos_old + 1).

(** The body of [for j in ...]: brings the next [j] of both lines to the
    same column. *)
Definition align_char (st : pystr * pystr * Z) (j : ascii) : pystr * pystr * Z :=
  let '(line0, line1, pos_old) := st in
  let pos0 := py_find line0 [j] (pos_old + 1) in
  let pos1 := py_find line1 [j] (pos_old + 1) in
  let line0' := if pos0 <? pos1 then pad_after line0 pos_old (pos1 - pos0) else line0 in
  let line1' := if pos1 <? pos0 then pad_after line1 pos_old (pos0 - pos1) else line1 in
  (line0', line1', Z.max pos0 pos1).

(** The test that two adjacent lines are to be aligned. *)
Definition alignable (line0 line1 fp0 fp1 : pystr) : bool :=
  match fp0 with
  | [] => false
  | c :: _ =>
      str_eqb (rstrip_char (ch ",") fp0) (rstrip_char (ch ",") fp1)
      && (negb (Ascii.eqb c (ch "{"))
          || (py_find line0 [c] 0 <=? len (commonprefix line0 line1)))
  end.

(** The body of [for i in xrange(...)] for the lines [i] and [i+1]. *)
Definition align_pair (line0 line1 fp0 fp1 : pystr) : pystr * pystr :=
  if alignable line0 line1 fp0 fp1 then
    let '(line0', line1', _) :=
      fold_left align_char (slice_to fp0 (len (commonprefix fp0 fp1))) (line0, line1, -1) in
    (line0', line1')
  else (line0, line1).

(** The loop over adjacent lines: turn [i] changes the lines [i] and [i+1]
    only, and reads the line [i+1] as turn [i-1] left it. The fingerprints
    are those of the lines before the loop. *)
Fixpoint align_lines (fps : list pystr) (lines : list pystr) {struct fps}
  : list pystr :=
  match fps, lines with
  | fp0 :: ((fp1 :: _) as fps'), line0 :: line1 :: lines' =>
      let (line0', line1') := align_pair line0 line1 fp0 fp1 in
      line0' :: align_lines fps' (line1' :: lines')
  | _, _ => lines
  end.

(** [Repository.align(s)] *)
Definition align (s : pystr) : pystr :=
  let lines := splitlines s in
  join [LF] (align_lines (map fingerprint lines) lines).

(** [while current != previous: previous = current; current = self.align(current)],
    with a bound on the number of turns: [None] when it is used up. *)
Fixpoint align_until_fixed (fuel : nat) (previous current : pystr) : option pystr :=
  if str_eqb current previous then Some current
  else match fuel with
       | O => None
       | S fuel' => align_until_fixed fuel' current (align current)
       end.

(** [Repository.align_array], for at most [fuel] turns of its loop. *)
Definition align_array (fuel : nat) (w : world) (varname : pystr)
  : option (world * res status) :=
  match search_def w varname false with
  | Raise e => Some (w, Raise e)
  | Ret None => Some (w, Ret (Skipped DefinitionNotFound))
  | Ret (Some (match_definition, f)) =>
      match align_until_fixed fuel [] (group0 match_definition) with
      | None => None
      | Some current =>
          let fstr :=
            slice_to (m_string match_definition) (Z.of_nat (m_start match_definition))
            ++ current
            ++ slice_from (m_string match_definition) (Z.of_nat (m_end match_definition)) in
          Some (write_file w f fstr, Ret Written)
      end
  end.

(** ** Worlds to try the program on *)

Definition world_of (contents : list (pystr * pystr)) : world :=
  mkWorld contents
    (mkRepository (py "src") true
       (map (fun pc => mkSourceFile (fst pc) true (Some (snd pc)) (Some (snd pc))) contents)).

Definition curr_texts (w : world) : list (option pystr) := map curr (files (repo w)).

Definition lines_text (l : list string) : pystr := join [LF] (map py l).

Definition table3 : pystr :=
  lines_text ["int A[3][2] = {"; "  {1, 2},"; "  {10, 2},"; "  {100, 2}"; "};"].

(** A file with an array of two margins, and a request for the second. *)
Definition razor_world : world :=
  world_of [(py "search.cpp",
             lines_text ["#include <types.h>"; "int razor[2] = {100, 200};";
                         "int futility = 3;"; ""])].

Definition razor_request : spsa_input := mkInput (py "razor") (py "[1]") (py "250") (py "200").



(** ** Histories of a file object *)

(** The operations a [SourceFile] offers after its construction. *)
Inductive file_op :=
| op_read_orig
| op_read
| op_write (s : pystr)
| op_diff
| op_save.

(** The disk and the object after one operation; what the operation
    returns is left out. An operation that raises changes nothing. *)
Definition apply_op (st : filesystem * SourceFile) (o : file_op)
  : filesystem * SourceFile :=
  match o with
  | op_read_orig => st
  | op_read => st
  | op_diff => st
  | op_write s => write (fst st) (snd st) s
  | op_save =>
      match save (fst st) (snd st) with
      | Ret d => (d, snd st)
      | Raise _ => st
      end
  end.

Definition run_ops (ops : list file_op) (st : filesystem * SourceFile)
  : filesystem * SourceFile :=
  fold_left apply_op ops st.

(** ** Index texts *)

Definition bracket_free (s : pystr) : bool := forallb (none_of "[]") s.

(** A text made of bracket groups, each after some bracket-free text, whose
    tokens resolve to the given integers. *)
Inductive index_groups (w : world) : pystr -> list Z -> Prop :=
| groups_nil : index_groups w [] []
| groups_cons junk tok v text vals :
    bracket_free junk = true ->
    bracket_free tok = true ->
    tok <> [] ->
    resolve_index w tok = Ret v ->
    index_groups w text vals ->
    index_groups w (junk ++ ch "[" :: tok ++ ch "]" :: text) (v :: vals).

(** A text whose next bracket group is not well formed: it has no opening
    bracket, or no closing one, or its first pair of brackets is empty. *)
Inductive malformed_group : pystr -> Prop :=
| no_opening s : ~ In (ch "[") s -> malformed_group s
| no_closing s : ~ In (ch "]") s -> malformed_group s
| empty_pair junk text :
    bracket_free junk = true -> malformed_group (junk ++ ch "[" :: ch "]" :: text).

(** ** What the index resolver is to give for a name

    The readings of an enum block that the resolver is measured against,
    stated on the text and without the matcher. *)

Definition no_digit_ahead (s : pystr) : Prop :=
  match s with
  | c :: _ => is_digit c = false
  | [] => True
  end.

(** [s] begins with an explicit assignment of the integer [v] to [tok]: the
    token, blanks, an equals sign, blanks, an optional minus sign and the
    decimal digits up to the first character that is none. *)
Inductive assigns (tok : pystr) (v : Z) : pystr -> Prop :=
| assigns_plain ws1 ws2 ds rest :
    forallb is_space ws1 = true -> forallb is_space ws2 = true ->
    ds <> [] -> forallb is_digit ds = true -> no_digit_ahead rest ->
    v = digits_val ds ->
    assigns tok v (tok ++ ws1 ++ ch "=" :: ws2 ++ ds ++ rest)
| assigns_minus ws1 ws2 ds rest :
    forallb is_space ws1 = true -> forallb is_space ws2 = true ->
    ds <> [] -> forallb is_digit ds = true -> no_digit_ahead rest ->
    v = - digits_val ds ->
    assigns tok v (tok ++ ws1 ++ ch "=" :: ws2 ++ ch "-" :: ds ++ rest).

(** The leftmost place of [block] where [tok] is assigned an integer
    assigns it [v]. *)
Definition first_assignment (tok block : pystr) (v : Z) : Prop :=
  exists pre s, block = pre ++ s /\ assigns tok v s
    /\ forall pre' s' v', block = pre' ++ s' -> (length pre' < length pre)%nat ->
         ~ assigns tok v' s'.

(** [tok] is assigned an integer nowhere in [block]. *)
Definition no_assignment (tok block : pystr) : Prop :=
  forall pre s v, block = pre ++ s -> ~ assigns tok v s.

(** [n] commas stand in [block] before the first occurrence of [tok]. *)
Definition commas_before (tok block : pystr) (n : Z) : Prop :=
  exists pre post, block = pre ++ tok ++ post
    /\ (forall pre' post', block = pre' ++ tok ++ post' -> (length pre <= length pre')%nat)
    /\ n = count_char (ch ",") pre.

(** The value of the name [tok] read off the enum block [block]. *)
Definition enum_value (tok block : pystr) (v : Z) : Prop :=
  first_assignment tok block v
  \/ (no_assignment tok block /\ commas_before tok block v).

(** The state of the matcher at offset [n] of the subject [s], before any
    group is closed. *)
Definition state_at (s : pystr) (n : nat) : state :=
  mkState n (skipn n s) (match n with O => None | S p => nth_error s p end) [].

(** The state after the characters [w] have been consumed from [st]. *)
Fixpoint eat (w : pystr) (st : state) : state :=
  match w with
  | [] => st
  | c :: w' => eat w' (advance c (tl (rest st)) st)
  end.

(** A file with an enum of three names. *)
Definition abc_world : world := world_of [(py "types.h", py "enum E { A, B, C };")].

(** ** What function mode is to do to a definition body *)


(** The same file with the array named [margin], and the request of the
    specification's scenario. *)
Definition margin_world : world :=
  world_of [(py "search.cpp", py "int margin[2] = {100, 200};")].

Definition margin_request : spsa_input := mkInput (py "margin") (py "[1]") (py "250") (py "200").

(** The match of the definition of [razor] in [razor_world]. *)
Definition razor_def_match : rmatch :=
  Eval vm_compute in
    match search_def razor_world (py "razor") false with
    | Ret (Some (m, _)) => m
    | _ => mkMatch [] O O []
    end.




(** ** Notions used in the proofs *)

Definition caps_ok (n : nat) (c : list (string * (nat * nat))) : Prop :=
  Forall (fun e => (fst (snd e) <= snd (snd e) <= n)%nat) c.

(** [st] is a state of a run over the subject [s]. *)
Definition wf (s : pystr) (st : state) : Prop :=
  (pos st <= length s)%nat /\ rest st = skipn (pos st) s /\ caps_ok (length s) (caps st).

(** A way of matching hands a later state of the same run to its continuation. *)
Definition passes_on (body : state -> (state -> option state) -> option state) : Prop :=
  forall s st k res, wf s st -> body st k = Some res ->
    exists st', wf s st' /\ (pos st <= pos st')%nat /\ k st' = Some res.

(** A match lies within the subject, and so does each of its groups. *)
Definition match_ok (s : pystr) (m : rmatch) : Prop :=
  m_string m = s /\ (m_start m <= m_end m <= length s)%nat /\ caps_ok (length s) (m_caps m).


(** Two continuations that agree on the later states of a run cannot be
    told apart by a pattern. *)
Definition local_to (s : pystr) (body : state -> (state -> option state) -> option state)
  : Prop :=
  forall st k1 k2, wf s st ->
    (forall st', wf s st' -> (pos st <= pos st')%nat -> k1 st' = k2 st') ->
    body st k1 = body st k2.

(** ** Notions for the convergence of the aligner *)

(** The text that [re.sub(r, '', s)] keeps: what lies between the matches. *)
Definition kept_text (ps : list (pystr + rmatch)) : pystr :=
  concat (map (fun p => match p with inl t => t | inr _ => [] end) ps).

(** What the turns of [for j in ...] for the delimiters [js] make of the
    parts of two lines that follow the last delimiter brought into line:
    before each [j] the shorter of the two gaps is filled up with blanks. *)
Fixpoint pad_rests (js : pystr) (rest0 rest1 : pystr) : pystr * pystr :=
  match js with
  | [] => (rest0, rest1)
  | j :: js' =>
      let (g0, t0) := span (none_of "{}(),") rest0 in
      let (g1, t1) := span (none_of "{}(),") rest1 in
      let (r0, r1) := pad_rests js' (tl t0) (tl t1) in
      (repeat SP (length g1 - length g0) ++ g0 ++ j :: r0,
       repeat SP (length g0 - length g1) ++ g1 ++ j :: r1)
  end.

(** [stretch l l']: the line [l'] is the line [l] with blanks put in. *)
Inductive stretch : pystr -> pystr -> Prop :=
| stretch_nil : stretch [] []
| stretch_keep c l l' : stretch l l' -> stretch (c :: l) (c :: l')
| stretch_pad l l' : stretch l l' -> stretch l (SP :: l').

(** No run of characters between two delimiters of the line (or before the
    first, or after the last) is longer than [N]; [cur] characters of the
    present run have been seen. *)
Fixpoint gaps_le (N cur : nat) (l : pystr) : Prop :=
  match l with
  | [] => (cur <= N)%nat
  | c :: l' =>
      if is_delimiter c then (cur <= N)%nat /\ gaps_le N 0 l'
      else gaps_le N (S cur) l'
  end.

(** A line as [splitlines] gives it holds no line break. *)
Definition no_break (l : pystr) : Prop :=
  Forall (fun c => Ascii.eqb c LF = false /\ Ascii.eqb c CR = false) l.

(** The lines that [splitlines] finds in ['\n'.join(ls)]: an empty last line
    is not found again. *)
Fixpoint trim_last (ls : list pystr) : list pystr :=
  match ls with
  | [] => []
  | [l] => match l with [] => [] | _ => [l] end
  | l :: ls' => l :: trim_last ls'
  end.

(** One pass over lines: the loop of [align] with the fingerprints it takes. *)
Definition pass (ls : list pystr) : list pystr := align_lines (map fingerprint ls) ls.

(** The invariant of the passes on a line, for a bound [N] on its runs
    between delimiters and on the number of its delimiters. *)
Definition tidy_line (N : nat) (l : pystr) : Prop :=
  no_break l /\ gaps_le N 0 l /\ (length (filter is_delimiter l) <= N)%nat.

(** No tidy line is longer than this. *)
Definition line_bound (N : nat) : nat := N + S N * N.

(** The room left in the lines: what the passes use up. *)
Definition room (B : nat) (ls : list pystr) : nat :=
  list_sum (map (fun l => S B - length l)%nat ls).

(** A number of turns that is enough for the loop of [align_array] on [x]. *)
Definition align_fuel (x : pystr) : nat :=
  let lines := splitlines x in
  S (S (length lines * S (line_bound (list_max (map (@length ascii) lines))))).

(** ** The whole repository: [Repository.diff] and [Repository.save] *)

Section RepositoryDiff.

Variable unified_diff : list pystr -> list pystr -> pystr -> pystr -> list pystr.

(** [for f in self.files: s += f.diff()] *)
Fixpoint diff_files (fs : list SourceFile) (s : pystr) : res pystr :=
  match fs with
  | [] => Ret s
  | f :: fs' => d <- diff unified_diff f ;; diff_files fs' (s ++ d)
  end.

(** [Repository.diff] *)
Definition Repository_diff (r : Repository) : res pystr :=
  if repo_in_memory r then diff_files (files r) [] else Raise AssertionError.

End RepositoryDiff.

(** [for f in self.files: f.save()]: a save that raises leaves the files
    saved before it on disk. *)
Fixpoint save_files (disk : filesystem) (fs : list SourceFile) : filesystem * res unit :=
  match fs with
  | [] => (disk, Ret tt)
  | f :: fs' =>
      match save disk f with
      | Ret disk' => save_files disk' fs'
      | Raise e => (disk, Raise e)
      end
  end.

(** [Repository.save] *)
Definition Repository_save (w : world) : world * res unit :=
  let (d, r) := save_files (disk w) (files (repo w)) in (mkWorld d (repo w), r).

(** ** Reading the input: [InputParser] and its subclasses *)

Inductive parser_class := ResultParser | FunctionParser | AlignParser.

Local Open Scope re_scope.

(** [$]: the end of the subject, or the line break that ends it. *)
Definition eol : regex :=
  NotAhead (NotAhead (opt (Chr (Ascii.eqb LF)) ;; NotAhead (Chr any_char))).

(** ["^\s*(?P<name>\S+)\s*;\s*(?P<func>.+?)\s*$"] *)
Definition function_line_pattern : regex :=
  Bol ;; Star true (Chr is_space) ;;
  Grp "name" (plus (Chr (fun c => negb (is_space c)))) ;;
  Star true (Chr is_space) ;; one ";" ;; Star true (Chr is_space) ;;
  Grp "func" (Chr not_newline ;; Star false (Chr not_newline)) ;;
  Star true (Chr is_space) ;; eol.

(** ["^\s*(?P<name>\S+)\s*$"] *)
Definition align_line_pattern : regex :=
  Bol ;; Star true (Chr is_space) ;;
  Grp "name" (plus (Chr (fun c => negb (is_space c)))) ;;
  Star true (Chr is_space) ;; eol.

Local Close Scope re_scope.

(** [self.regex_pattern] as the subclasses set it. *)
Definition regex_pattern (c : parser_class) : regex :=
  match c with
  | ResultParser => spsa_line_pattern
  | FunctionParser => function_line_pattern
  | AlignParser => align_line_pattern
  end.

(** [InputParser.read_line] *)
Definition read_line (c : parser_class) (s : pystr) : option rmatch :=
  match_ (regex_pattern c) s.

(** The groups that [process_spsa_match] reads from the matched line. A
    group that took no part would be [None], and the first method called
    on it would raise; the groups of the three patterns always take part. *)
Definition spsa_groups (m : rmatch) : res spsa_input :=
  n <- group_or_raise m "name" ;;
  i <- group_or_raise m "indices" ;;
  vn <- group_or_raise m "value_new" ;;
  vo <- group_or_raise m "value_old" ;;
  Ret (mkInput n i vn vo).

(** The groups that [process_function_match] reads. *)
Definition function_groups (m : rmatch) : res function_input :=
  n <- group_or_raise m "name" ;;
  f <- group_or_raise m "func" ;;
  Ret (mkFunctionInput n f).

(** The turns that the loop of [align_array] for [varname] is given. *)
Definition align_turns (w : world) (varname : pystr) : nat :=
  match search_def w varname false with
  | Ret (Some (match_definition, _)) => align_fuel (group0 match_definition)
  | _ => O
  end.

(** What became of a line of the input. *)
Inductive line_outcome :=
| Blank                     (* an empty line, passed over *)
| Invalid                   (* "Skipping invalid input line: '%s'." *)
| Handled (s : status)      (* the method returned *)
| Failed (e : exn).         (* "Failed to process input line '%s'" *)

Section Batch.

Variable compile_lambda : pystr -> option (pyfloat -> res pyfloat).
Variable unified_diff : list pystr -> list pystr -> pystr -> pystr -> list pystr.

(** [InputParser.process_match] with [self.process_method] as the
    subclasses set it; [None] when a loop has used up its turns. *)
Definition process_match (c : parser_class) (w : world) (m : rmatch) (f_round : rounding)
  : option (world * res status) :=
  match c with
  | ResultParser =>
      match spsa_groups m with
      | Ret inp => Some (process_spsa_match w inp f_round)
      | Raise e => Some (w, Raise e)
      end
  | FunctionParser =>
      match function_groups m with
      | Ret inp => Some (process_function_match compile_lambda w inp f_round)
      | Raise e => Some (w, Raise e)
      end
  | AlignParser =>
      match group_or_raise m "name" with
      | Ret varname => align_array (align_turns w varname) w varname
      | Raise e => Some (w, Raise e)
      end
  end.

(** The body of [for line in self.input_strings]: whatever the method
    raises is caught and logged. *)
Definition process_line (c : parser_class) (w : world) (line : pystr) (f_round : rounding)
  : option (world * line_outcome) :=
  match rstrip line with
  | [] => Some (w, Blank)
  | _ =>
      match read_line c (rstrip line) with
      | None => Some (w, Invalid)
      | Some match_input =>
          match process_match c w match_input f_round with
          | Some (w', Ret s) => Some (w', Handled s)
          | Some (w', Raise e) => Some (w', Failed e)
          | None => None
          end
      end
  end.

Fixpoint process_lines (c : parser_class) (w : world) (lines : list pystr)
  (f_round : rounding) : option (world * list line_outcome) :=
  match lines with
  | [] => Some (w, [])
  | line :: lines' =>
      match process_line c w line f_round with
      | None => None
      | Some (w', o) =>
          match process_lines c w' lines' f_round with
          | None => None
          | Some (w'', os) => Some (w'', o :: os)
          end
      end
  end.

(** [InputParser.process]: the world after it, what became of the lines,
    and what the end gave: the diff that is printed in a dry run, nothing
    after a save, or what either raised. *)
Definition process (c : parser_class) (w : world) (lines : list pystr)
  (dry_run : bool) (f_round : rounding)
  : option (world * list line_outcome * res (option pystr)) :=
  match process_lines c w lines f_round with
  | None => None
  | Some (w', os) =>
      if dry_run then
        Some (w', os,
              match Repository_diff unified_diff (repo w') with
              | Ret s => Ret (Some s)
              | Raise e => Raise e
              end)
      else
        let (w'', r) := Repository_save w' in
        Some (w'', os, match r with Ret _ => Ret None | Raise e => Raise e end)
  end.

End Batch.

(** ** Notions for the runs over a whole input *)

(** A file object that holds its texts: what [SourceFile.__init__] makes of
    a file kept in memory, and what [write] keeps. *)
Definition holds_texts (f : SourceFile) : Prop :=
  in_memory f = true /\ (exists o, orig f = Some o) /\ (exists c, curr f = Some c).

(** A world whose repository keeps all its files in memory. *)
Definition loaded (w : world) : Prop :=
  repo_in_memory (repo w) = true /\ Forall holds_texts (files (repo w)).

(** The text that the disk holds under the path of a file is the current
    text of the file. *)
Definition on_disk (d : filesystem) (f : SourceFile) : Prop :=
  exists s, curr f = Some s /\ fs_read d (path f) = Ret s.

(** A disk with two source files and a file that is none. *)
Definition small_disk : filesystem :=
  [(py "a.cpp", py "int x = 1;"); (py "README", py "text"); (py "b.h", py "enum E { A };")].

(** What a request may do to the world: nothing, unless it ends with the
    file written, and then the one write. *)
Definition one_write (w w' : world) (r : res status) : Prop :=
  (r <> Ret Written /\ w' = w)
  \/ (r = Ret Written /\ exists k s, w' = write_file w k s).

(** ** Flat initialisers *)

(** An element of an initialiser that holds no comma and no bracket. *)
Definition plain_element (e : pystr) : bool := forallb (none_of ",{}()") e.

(** The text of a definition with a flat initialiser: a head with the [=],
    the opening brace, the elements with commas between them, and what
    follows the last element. *)
Definition flat_array (h1 h2 e0 : pystr) (es : list pystr) (tail : pystr) : pystr :=
  h1 ++ ch "=" :: h2 ++ ch "{" :: e0 ++ concat (map (cons (ch ",")) es) ++ tail.

(** The elements that stand before the comma in front of element [k]. *)
Definition elements_before (e0 : pystr) (es : list pystr) (k : nat) : pystr :=
  match k with
  | O => []
  | S k' => e0 ++ concat (map (cons (ch ",")) (firstn k' es))
  end.

(** The initialiser from the comma in front of element [k] on; for the
    first element, from the element on. *)
Definition elements_from (e0 : pystr) (es : list pystr) (k : nat) : pystr :=
  match k with
  | O => e0 ++ concat (map (cons (ch ",")) es)
  | S k' => concat (map (cons (ch ",")) (skipn k' es))
  end.

(** ** Lines of a tuning report *)

(** The characters of the groups of [spsa_line_pattern]. *)
Definition index_char (c : ascii) : bool := one_of "[]" c || is_word c || is_space c.
Definition value_char (c : ascii) : bool := is_word c || one_of ".-" c.

(** A line of a tuning report as fishtest prints it. *)
Definition spsa_line (lead name indices value_new value_old rest : pystr) : pystr :=
  lead ++ py "param: " ++ name ++ indices ++ py ", best: " ++ value_new
  ++ py ", start: " ++ value_old ++ rest.



(** ** Index paths written out *)

(** An index path as it stands in a report: every index in brackets. *)
Definition index_text (l : list Z) : pystr :=
  concat (map (fun n => ch "[" :: str_of_int n ++ [ch "]"]) l).

(** The definition of [futility] in [razor_world], and a request for it. *)
Definition futility_def_match : rmatch :=
  Eval vm_compute in
    match search_def razor_world (py "futility") false with
    | Ret (Some (m, _)) => m
    | _ => mkMatch [] O O []
    end.

Definition futility_request : spsa_input := mkInput (py "futility") [] (py "5") (py "3").

(** ** An element of a flat initialiser *)






(** ** Lines of names *)

(** Where [$] holds: at the end of the text, or at the line break that
    ends it. *)
Definition at_end (s : pystr) : bool :=
  match s with
  | [] => true
  | [c] => Ascii.eqb LF c
  | _ => false
  end.

(** What [\S] takes. *)
Definition no_space (c : ascii) : bool := negb (is_space c).

(** A formula as function mode reads it whole: it begins and ends with a
    character that is not white space and holds no line break and no
    semicolon. *)
Definition formula_text (f : pystr) : bool :=
  forallb (fun c => not_newline c && negb (Ascii.eqb (ch ";") c)) f
  && match f with c :: _ => no_space c | [] => false end
  && match rev f with c :: _ => no_space c | [] => false end.

(** * Properties *)

(** ** The matcher keeps within its subject *)

Lemma skipn_cons_nth (s : pystr) (n : nat) (c : ascii) (tl : pystr) :
  skipn n s = c :: tl -> (n < length s)%nat /\ skipn (S n) s = tl /\ nth_error s n = Some c.
Proof.
  revert n. induction s as [|x s IH]; intros n H.
  - destruct n; discriminate.
  - destruct n as [|n]; simpl in *.
    + inversion H; subst. repeat split; lia.
    + destruct (IH n H) as (H1 & H2 & H3). repeat split; try lia; auto.
Qed.

Lemma wf_advance s st c tl :
  wf s st -> rest st = c :: tl -> wf s (advance c tl st).
Proof.
  intros (Hp & Hr & Hc) E. rewrite Hr in E.
  destruct (skipn_cons_nth _ _ _ _ E) as (H1 & H2 & _).
  unfold wf, advance; simpl. repeat split; auto.
Qed.

Lemma wf_close_group s st0 st name :
  wf s st -> (pos st0 <= pos st)%nat -> wf s (close_group name (pos st0) st).
Proof.
  intros (Hp & Hr & Hc) Hle. unfold wf, close_group; simpl.
  repeat split; auto. constructor; [simpl; lia | auto].
Qed.

Lemma star_loop_passes_on body greedy k n :
  passes_on body ->
  forall s st res, wf s st -> star_loop body greedy k n st = Some res ->
    exists st', wf s st' /\ (pos st <= pos st')%nat /\ k st' = Some res.
Proof.
  intros Hbody. induction n as [|n IH]; intros s st res Hwf H; simpl in H.
  - destruct greedy.
    + exists st; auto.
    + destruct (k st) eqn:E; [|discriminate]. exists st; split; auto. split; auto. congruence.
  - assert (Hagain : forall res',
      body st (fun st1 => if (pos st <? pos st1)%nat then star_loop body greedy k n st1 else None)
        = Some res' ->
      exists st', wf s st' /\ (pos st <= pos st')%nat /\ k st' = Some res').
    { intros res' E. destruct (Hbody _ _ _ _ Hwf E) as (st1 & Hwf1 & Hle1 & E1).
      destruct (pos st <? pos st1)%nat; [|discriminate].
      destruct (IH _ _ _ Hwf1 E1) as (st' & ? & ? & ?).
      exists st'. split; [assumption|split; [lia|assumption]]. }
    destruct greedy.
    + destruct (body st _) eqn:E.
      * inversion H; subst. apply Hagain; auto.
      * exists st; auto.
    + destruct (k st) eqn:E.
      * inversion H; subst. exists st; auto.
      * apply Hagain; auto.
Qed.

Lemma exec_passes_on (r : regex) : passes_on (exec r).
Proof.
  induction r as [|p|r1 IH1 r2 IH2|r1 IH1 r2 IH2|g r1 IH1|name r1 IH1|r1 IH1|];
    intros s st k res Hwf H; simpl in H.
  - exists st; auto.
  - destruct (rest st) as [|c tl] eqn:E; [discriminate|].
    destruct (p c); [|discriminate].
    exists (advance c tl st). split; [apply wf_advance; auto|]. split; auto. simpl; lia.
  - destruct (IH1 _ _ _ _ Hwf H) as (st1 & Hwf1 & Hle1 & E1).
    destruct (IH2 _ _ _ _ Hwf1 E1) as (st2 & ? & ? & ?).
    exists st2. split; [assumption|split; [lia|assumption]].
  - destruct (exec r1 st k) eqn:E.
    + inversion H; subst. eapply IH1; eauto.
    + eapply IH2; eauto.
  - eapply star_loop_passes_on; eauto.
  - destruct (IH1 _ _ _ _ Hwf H) as (st1 & Hwf1 & Hle1 & E1).
    exists (close_group name (pos st) st1). split; [apply wf_close_group; auto|].
    split; auto.
  - destruct (exec r1 st Some); [discriminate|]. exists st; auto.
  - destruct (prev st) as [c|].
    + destruct (Ascii.eqb c LF); [|discriminate]. exists st; auto.
    + exists st; auto.
Qed.

Lemma search_from_ok r s st rest_ :
  wf s st -> caps st = [] -> rest_ = rest st ->
  forall m, search_from r s st rest_ = Some m -> match_ok s m /\ (pos st <= m_start m)%nat.
Proof.
  revert st. induction rest_ as [|c tl IH]; intros st Hwf Hc Hr m H; simpl in H.
  - destruct (exec r st Some) eqn:E; [|discriminate]. inversion H; subst; clear H.
    destruct (exec_passes_on r _ _ _ _ Hwf E) as (st' & (Hp & _ & Hcaps) & Hle & E').
    inversion E'; subst. unfold match_ok; simpl. repeat split; auto.
  - destruct (exec r st Some) eqn:E.
    + inversion H; subst; clear H.
      destruct (exec_passes_on r _ _ _ _ Hwf E) as (st' & (Hp & _ & Hcaps) & Hle & E').
      inversion E'; subst. unfold match_ok; simpl. repeat split; auto.
    + symmetry in Hr.
      assert (Hwf' : wf s (mkState (S (pos st)) tl (Some c) [])).
      { pose proof (wf_advance _ _ _ _ Hwf Hr) as (A & B & _).
        unfold wf; simpl in *. repeat split; auto. constructor. }
      destruct (IH _ Hwf' eq_refl eq_refl _ H) as (Hok & Hle).
      split; auto. simpl in Hle. lia.
Qed.

Lemma wf_start s : wf s (start_state s).
Proof. unfold wf, start_state; simpl. repeat split; try lia. constructor. Qed.

Lemma search_ok r s m : search r s = Some m -> match_ok s m.
Proof.
  intros H. eapply search_from_ok in H; eauto using wf_start. tauto.
Qed.

Lemma search_at_ok r s a m :
  search_at r s a = Some m -> match_ok s m /\ (a <= m_start m)%nat.
Proof.
  unfold search_at. destruct (length s <? a)%nat eqn:E; [discriminate|].
  apply Nat.ltb_ge in E. intros H.
  eapply search_from_ok in H; eauto.
  unfold wf; simpl. repeat split; auto. constructor.
Qed.

(** What a search that succeeds went through: a run of the pattern from
    the start of the match that ends where the match ends. *)
Lemma search_from_run r s st rest_ :
  wf s st -> caps st = [] -> rest_ = rest st ->
  forall m, search_from r s st rest_ = Some m ->
  exists st0 res, wf s st0 /\ caps st0 = [] /\ (pos st <= pos st0)%nat
    /\ exec r st0 Some = Some res
    /\ m = mkMatch s (pos st0) (pos res) (caps res).
Proof.
  revert st. induction rest_ as [|c tl IH]; intros st Hwf Hc Hr m H; simpl in H.
  - destruct (exec r st Some) eqn:E; [|discriminate]. inversion H; subst; clear H.
    exists st, s0. auto.
  - destruct (exec r st Some) eqn:E.
    + inversion H; subst; clear H. exists st, s0. auto.
    + symmetry in Hr.
      assert (Hwf' : wf s (mkState (S (pos st)) tl (Some c) [])).
      { pose proof (wf_advance _ _ _ _ Hwf Hr) as (A & B & _).
        unfold wf; simpl in *. split; [auto|split; [auto|constructor]]. }
      destruct (IH _ Hwf' eq_refl eq_refl _ H) as (st0 & res & ? & ? & Hle & ? & ?).
      exists st0, res. simpl in Hle. repeat (split; [auto; lia|]). auto.
Qed.

Lemma search_run r s m :
  search r s = Some m ->
  exists st0 res, wf s st0 /\ caps st0 = [] /\ exec r st0 Some = Some res
    /\ m = mkMatch s (pos st0) (pos res) (caps res).
Proof.
  intros H. eapply search_from_run in H; eauto using wf_start.
  destruct H as (st0 & res & ? & ? & ? & ? & ?). exists st0, res. auto.
Qed.

(** ** Facts about strings *)

Lemma len_nonneg s : 0 <= len s.
Proof. unfold len; lia. Qed.

Lemma len_app a b : len (a ++ b) = len a + len b.
Proof. unfold len. rewrite length_app. lia. Qed.

Lemma startswith_length s p : startswith s p = true -> (length p <= length s)%nat.
Proof.
  revert s. induction p as [|x p IH]; intros s E; simpl; [lia|].
  destruct s; simpl in E; [discriminate|]. apply andb_true_iff in E as [_ E].
  apply IH in E. simpl. lia.
Qed.

Lemma find_at_unfold sub s :
  find_at sub s =
  if startswith s sub then Some O
  else match s with
       | [] => None
       | _ :: s' => option_map S (find_at sub s')
       end.
Proof. destruct s; reflexivity. Qed.

Lemma find_at_bound sub s k :
  find_at sub s = Some k -> (k + length sub <= length s)%nat /\ startswith (skipn k s) sub = true.
Proof.
  revert k. induction s as [|c s IH]; intros k; rewrite find_at_unfold.
  - destruct (startswith [] sub) eqn:E; [|discriminate].
    intros H; inversion H; subst. apply startswith_length in E as E'. simpl in *. auto.
  - destruct (startswith (c :: s) sub) eqn:E.
    + intros H; inversion H; subst. apply startswith_length in E as E'. simpl in *. auto.
    + destruct (find_at sub s) as [k'|] eqn:F; simpl; [|discriminate].
      intros H; inversion H; subst. destruct (IH _ eq_refl). simpl. split; auto; lia.
Qed.

(** [find] gives [-1] or an offset at which the text can be found. *)
Lemma py_find_range s sub start :
  py_find s sub start = -1
  \/ (0 <= py_find s sub start /\ py_find s sub start + len sub <= len s).
Proof.
  unfold py_find.
  set (a := if start <? 0 then Z.max (start + len s) 0 else start).
  assert (Ha : 0 <= a). { unfold a. destruct (start <? 0) eqn:E; [lia|]. apply Z.ltb_ge in E; lia. }
  destruct (len s <? a) eqn:E; [left; reflexivity|]. apply Z.ltb_ge in E.
  destruct (find_at sub (skipn (Z.to_nat a) s)) as [k|] eqn:F; [|left; reflexivity].
  right. apply find_at_bound in F as [F _]. rewrite length_skipn in F.
  unfold len in *. lia.
Qed.

Lemma py_find_char_range s c start :
  -1 <= py_find s [c] start < len s \/ (py_find s [c] start = -1 /\ s = []).
Proof.
  destruct (py_find_range s [c] start) as [H|[H1 H2]].
  - destruct s; [right; auto|left]. rewrite H. unfold len; simpl. lia.
  - left. unfold len in *. simpl in *. lia.
Qed.

Lemma py_find_char_bounds s c start :
  -1 <= py_find s [c] start <= len s.
Proof.
  pose proof (len_nonneg s).
  destruct (py_find_char_range s c start) as [H1|[H1 _]]; lia.
Qed.



Lemma exec_seq_inv r1 r2 s st k res :
  wf s st -> exec (Seq r1 r2) st k = Some res ->
  exists st1, wf s st1 /\ (pos st <= pos st1)%nat /\ exec r2 st1 k = Some res.
Proof. intros Hwf H. exact (exec_passes_on r1 _ _ _ _ Hwf H). Qed.



(** Peels the leading factor off a sequence that matched. *)
Ltac peel H Hwf :=
  let st1 := fresh "st" in
  let Hwf1 := fresh "Hwf" in
  let Hle := fresh "Hle" in
  let H1 := fresh "H" in
  destruct (exec_seq_inv _ _ _ _ _ _ Hwf H) as (st1 & Hwf1 & Hle & H1);
  clear H; rename H1 into H.





Lemma search_files_found disk pattern fs k0 m k :
  search_files disk pattern fs k0 = Ret (Some (m, k)) ->
  exists f, nth_error fs (k - k0) = Some f /\ (k0 <= k)%nat
    /\ read disk f = Ret (Some (m_string m))
    /\ search pattern (m_string m) = Some m.
Proof.
  revert k0. induction fs as [|f fs IH]; intros k0 H; simpl in H; [discriminate|].
  unfold bind in H. destruct (read disk f) as [[s|]|] eqn:E; try discriminate.
  destruct (search pattern s) as [m'|] eqn:F.
  - inversion H; subst. exists f. rewrite Nat.sub_diag.
    apply search_ok in F as F'. destruct F' as (-> & _). auto.
  - destruct (IH _ H) as (f' & Hn & Hle & Hr & Hs).
    exists f'. replace (k - k0)%nat with (S (k - S k0)) by lia. simpl. auto with arith.
Qed.

Lemma search_def_found w varname enum m k :
  search_def w varname enum = Ret (Some (m, k)) ->
  exists f, nth_error (files (repo w)) k = Some f
    /\ read (disk w) f = Ret (Some (m_string m))
    /\ search (if enum then enum_pattern varname else def_pattern varname) (m_string m) = Some m.
Proof.
  unfold search_def. intros H. apply search_files_found in H as (f & Hn & _ & Hr & Hs).
  rewrite Nat.sub_0_r in Hn. exists f. auto.
Qed.

(** ** The edit of a request lies within the text it is made to *)



Lemma length_substr s a b : (a <= b <= length s)%nat -> length (substr s a b) = (b - a)%nat.
Proof. intros H. unfold substr. rewrite length_firstn, length_skipn. lia. Qed.



Lemma len_slice_from s i : 0 <= i <= len s -> len (slice_from s i) = len s - i.
Proof.
  intros H. unfold slice_from, py_slice, clamp.
  replace (i <? 0) with false by (symmetry; apply Z.ltb_ge; lia).
  replace (len s <? 0) with false by (symmetry; apply Z.ltb_ge; lia).
  unfold len in *. rewrite length_firstn, length_skipn. lia.
Qed.

Lemma slice_from_0 s : slice_from s 0 = s.
Proof.
  pose proof (len_nonneg s).
  unfold slice_from, py_slice, clamp.
  replace (len s <? 0) with false by (symmetry; apply Z.ltb_ge; lia).
  simpl. rewrite Z.min_id. replace (Z.min 0 (len s)) with 0 by lia.
  rewrite Z.sub_0_r. unfold len. rewrite Nat2Z.id. apply firstn_all.
Qed.








(** ** Failure leaves the files alone *)






(** ** The original text of a file is kept *)

Lemma apply_op_orig st o : orig (snd (apply_op st o)) = orig (snd st).
Proof.
  destruct st as [d f]. destruct o; simpl; auto.
  - unfold write. destruct (in_memory f); reflexivity.
  - destruct (save d f); reflexivity.
Qed.

Lemma run_ops_orig ops st : orig (snd (run_ops ops st)) = orig (snd st).
Proof.
  unfold run_ops. revert st. induction ops as [|o ops IH]; intros st; simpl; auto.
  rewrite IH. apply apply_op_orig.
Qed.

Lemma update_nth_map {A B} (g : A -> B) k x l :
  map g (update_nth k x l) = update_nth k (g x) (map g l).
Proof.
  revert k. induction l as [|y l IH]; intros k; simpl; [destruct k; reflexivity|].
  destruct k; simpl; [reflexivity|]. rewrite IH. reflexivity.
Qed.

Lemma update_nth_same {A} k (x : A) l :
  nth_error l k = Some x -> update_nth k x l = l.
Proof.
  revert k. induction l as [|y l IH]; intros k; simpl; [destruct k; reflexivity|].
  destruct k; simpl; intros H; [inversion H; reflexivity|]. rewrite IH; auto.
Qed.

Lemma write_file_orig w k s :
  map orig (files (repo (write_file w k s))) = map orig (files (repo w)).
Proof.
  unfold write_file. destruct (nth_error (files (repo w)) k) as [f|] eqn:E; [|reflexivity].
  assert (Ho : orig (snd (write (disk w) f s)) = orig f).
  { unfold write. destruct (in_memory f); reflexivity. }
  destruct (write (disk w) f s) as [d f']. simpl in *.
  rewrite update_nth_map, Ho. apply update_nth_same.
  rewrite nth_error_map, E. reflexivity.
Qed.

(** C9. The original text of a file in memory is the text read from the
    disk when the object was made; no later operation on the object (read,
    write, save, diff) changes it, a write replaces the current text only,
    and a value-edit request leaves the original text of every file of the
    repository as it was. *)
Theorem orig_is_kept :
  (forall d p f, SourceFile_init d p true = Ret f ->
     exists content, fs_read d p = Ret content
       /\ orig f = Some content /\ curr f = Some content)
  /\ (forall ops d f, orig (snd (run_ops ops (d, f))) = orig f)
  /\ (forall d f s, in_memory f = true ->
        write d f s = (d, mkSourceFile (path f) (in_memory f) (orig f) (Some s)))
  /\ (forall w inp f_round,
        map orig (files (repo (fst (process_spsa_match w inp f_round))))
        = map orig (files (repo w))).
Proof.
  split; [|split; [|split]].
  - intros d p f H. unfold SourceFile_init, bind in H.
    destruct (fs_read d p) as [content|]; [|discriminate].
    inversion H; subst. exists content. auto.
  - intros ops d f. apply (run_ops_orig ops (d, f)).
  - intros d f s H. unfold write. rewrite H. reflexivity.
  - intros w inp f_round. unfold process_spsa_match.
    destruct (spsa_patch w inp f_round) as [[e|p]|e]; simpl; auto.
    apply write_file_orig.
Qed.

(** ** The locator on call expressions *)

(** C1. In [int arr[3] = {10, f(1,2), 30};] the path [[1]] leads to offset
    16, the comma after [10], which lies outside every round bracket. The
    comma of a call is not passed over in general: in
    [int arr[3] = {10, f(1,2) + g(3,4), 30};] the path [[2]] leads to
    offset 30, the comma between the arguments of [g], at bracket depth 1,
    and not to offset 33, the comma that ends the element. *)
Theorem find_index_call_commas :
  let s := py "int arr[3] = {10, f(1,2), 30};" in
  let t := py "int arr[3] = {10, f(1,2) + g(3,4), 30};" in
  find_index s [1] = 16
  /\ char_at s 16 = Some (ch ",") /\ paren_depth s 16 = 0
  /\ slice_from s 16 = py ", f(1,2), 30};"
  /\ find_index t [2] = 30
  /\ char_at t 30 = Some (ch ",") /\ paren_depth t 30 = 1
  /\ slice_from t 30 = py ",4), 30};"
  /\ char_at t 33 = Some (ch ",") /\ paren_depth t 33 = 0.
Proof. vm_compute. repeat split. Qed.

(** ** The index resolver stops at a malformed group *)

Lemma startswith_char c x s : startswith (x :: s) [c] = Ascii.eqb c x.
Proof. simpl. destruct s; apply andb_true_r. Qed.

Lemma find_at_char_absent c s : ~ In c s -> find_at [c] s = None.
Proof.
  induction s as [|x s IH]; intros H; [reflexivity|].
  rewrite find_at_unfold, startswith_char.
  destruct (Ascii.eqb c x) eqn:E.
  - apply Ascii.eqb_eq in E. subst. exfalso. apply H. left; reflexivity.
  - rewrite IH; [reflexivity|]. intros Hin. apply H. right; exact Hin.
Qed.

Lemma find_at_char_first c junk s :
  ~ In c junk -> find_at [c] (junk ++ c :: s) = Some (length junk).
Proof.
  induction junk as [|x junk IH]; intros H.
  - simpl app. rewrite find_at_unfold, startswith_char, Ascii.eqb_refl. reflexivity.
  - change ((x :: junk) ++ c :: s) with (x :: (junk ++ c :: s)).
    rewrite find_at_unfold, startswith_char.
    destruct (Ascii.eqb c x) eqn:E.
    + apply Ascii.eqb_eq in E. subst. exfalso. apply H. left; reflexivity.
    + rewrite IH; [reflexivity|]. intros Hin. apply H. right; exact Hin.
Qed.

Lemma py_find_0 s sub :
  py_find s sub 0 = match find_at sub s with Some k => Z.of_nat k | None => -1 end.
Proof.
  unfold py_find. simpl. pose proof (len_nonneg s).
  replace (len s <? 0) with false by (symmetry; apply Z.ltb_ge; lia).
  reflexivity.
Qed.

Lemma bracket_free_not_in c s :
  bracket_free s = true -> one_of "[]" c = true -> ~ In c s.
Proof.
  unfold bracket_free. rewrite forallb_forall. intros H Hc Hin.
  apply H in Hin. unfold none_of in Hin. rewrite Hc in Hin. discriminate.
Qed.

Lemma bracket_free_app a b :
  bracket_free a = true -> bracket_free b = true -> bracket_free (a ++ b) = true.
Proof. unfold bracket_free. intros Ha Hb. rewrite forallb_app, Ha, Hb. reflexivity. Qed.

Lemma py_slice_middle a b c :
  py_slice (a ++ b ++ c) (len a) (len a + len b) = b.
Proof.
  unfold py_slice, clamp. rewrite !len_app.
  pose proof (len_nonneg a). pose proof (len_nonneg b). pose proof (len_nonneg c).
  replace (len a <? 0) with false by (symmetry; apply Z.ltb_ge; lia).
  replace (len a + len b <? 0) with false by (symmetry; apply Z.ltb_ge; lia).
  rewrite !Z.min_l by lia.
  replace (len a + len b - len a) with (len b) by lia.
  unfold len. rewrite !Nat2Z.id.
  rewrite skipn_app, skipn_all, Nat.sub_diag. simpl.
  rewrite firstn_app, firstn_all, Nat.sub_diag. simpl. apply app_nil_r.
Qed.

Lemma slice_from_app a b : slice_from (a ++ b) (len a) = b.
Proof.
  unfold slice_from.
  pose proof (py_slice_middle a b []) as H. rewrite app_nil_r in H.
  rewrite len_app. exact H.
Qed.

Lemma parse_indices_loop_unfold fuel w s l :
  s <> [] ->
  parse_indices_loop (S fuel) w s l =
  if (py_find s [ch "["] 0 =? -1) || (py_find s [ch "]"] 0 =? -1)
     || (py_find s [ch "]"] 0 <=? py_find s [ch "["] 0 + 1)
  then Ret l
  else v <- resolve_index w (py_slice s (py_find s [ch "["] 0 + 1) (py_find s [ch "]"] 0)) ;;
       parse_indices_loop fuel w (slice_from s (py_find s [ch "]"] 0 + 1)) (l ++ [v]).
Proof. destruct s; [congruence|reflexivity]. Qed.

(** One turn of the loop on a text that starts with a well-formed group. *)
Lemma parse_indices_turn fuel w junk tok text l :
  bracket_free junk = true -> bracket_free tok = true -> tok <> [] ->
  parse_indices_loop (S fuel) w (junk ++ ch "[" :: tok ++ ch "]" :: text) l
  = (v <- resolve_index w tok ;; parse_indices_loop fuel w text (l ++ [v])).
Proof.
  intros Hj Ht Hne.
  set (s := junk ++ ch "[" :: tok ++ ch "]" :: text).
  assert (H1 : py_find s [ch "["] 0 = len junk).
  { rewrite py_find_0. unfold s. rewrite find_at_char_first; [reflexivity|].
    apply bracket_free_not_in; auto. }
  assert (H2 : py_find s [ch "]"] 0 = len junk + 1 + len tok).
  { rewrite py_find_0. unfold s.
    change (junk ++ ch "[" :: tok ++ ch "]" :: text)
      with (junk ++ [ch "["] ++ tok ++ ch "]" :: text).
    rewrite !app_assoc. rewrite find_at_char_first.
    - unfold len. rewrite !length_app. simpl. lia.
    - rewrite <- app_assoc. intros Hin. apply in_app_or in Hin as [Hin|Hin].
      + revert Hin. apply bracket_free_not_in; auto.
      + apply in_app_or in Hin as [[Hin|[]]|Hin]; [discriminate|].
        revert Hin. apply bracket_free_not_in; auto. }
  assert (Hlen : 0 < len tok).
  { destruct tok; [congruence|]. unfold len; simpl. lia. }
  pose proof (len_nonneg junk).
  assert (Hs : s <> []). { unfold s. destruct junk; discriminate. }
  rewrite parse_indices_loop_unfold by exact Hs.
  rewrite H1, H2.
  replace (len junk =? -1) with false by (symmetry; apply Z.eqb_neq; lia).
  replace (len junk + 1 + len tok =? -1) with false by (symmetry; apply Z.eqb_neq; lia).
  replace (len junk + 1 + len tok <=? len junk + 1) with false
    by (symmetry; apply Z.leb_gt; lia).
  simpl orb. cbv iota.
  assert (Htok : py_slice s (len junk + 1) (len junk + 1 + len tok) = tok).
  { unfold s.
    change (junk ++ ch "[" :: tok ++ ch "]" :: text)
      with (junk ++ [ch "["] ++ tok ++ ch "]" :: text).
    rewrite app_assoc.
    replace (len junk + 1) with (len (junk ++ [ch "["])) by (rewrite len_app; reflexivity).
    apply py_slice_middle. }
  assert (Hrest : slice_from s (len junk + 1 + len tok + 1) = text).
  { unfold s.
    change (junk ++ ch "[" :: tok ++ ch "]" :: text)
      with (junk ++ [ch "["] ++ tok ++ [ch "]"] ++ text).
    rewrite !app_assoc.
    replace (len junk + 1 + len tok + 1) with (len (((junk ++ [ch "["]) ++ tok) ++ [ch "]"]))
      by (rewrite !len_app; reflexivity).
    apply slice_from_app. }
  rewrite Htok, Hrest. reflexivity.
Qed.

Lemma parse_indices_stop fuel w s l :
  malformed_group s -> parse_indices_loop fuel w s l = Ret l.
Proof.
  intros H. destruct fuel as [|fuel]; [reflexivity|].
  destruct (list_eq_dec ascii_dec s []) as [->|Hs]; [reflexivity|].
  rewrite parse_indices_loop_unfold by exact Hs. clear Hs.
  assert (E : (py_find s [ch "["] 0 =? -1) || (py_find s [ch "]"] 0 =? -1)
              || (py_find s [ch "]"] 0 <=? py_find s [ch "["] 0 + 1) = true);
    [|rewrite E; reflexivity].
  rewrite !py_find_0.
  destruct H as [s H|s H|junk text H].
  - rewrite (find_at_char_absent _ _ H). reflexivity.
  - rewrite (find_at_char_absent (ch "]") _ H). rewrite orb_true_r. reflexivity.
  - rewrite find_at_char_first by (apply bracket_free_not_in; auto).
    change (junk ++ ch "[" :: ch "]" :: text) with (junk ++ [ch "["] ++ ch "]" :: text).
    rewrite app_assoc, find_at_char_first.
    + rewrite length_app. simpl.
      replace (Z.of_nat (length junk + 1) <=? Z.of_nat (length junk) + 1) with true
        by (symmetry; apply Z.leb_le; lia).
      rewrite !orb_true_r. reflexivity.
    + intros Hin. apply in_app_or in Hin as [Hin|[Hin|[]]]; [|discriminate].
      revert Hin. apply bracket_free_not_in; auto.
Qed.

Lemma parse_indices_groups w text vals :
  index_groups w text vals ->
  forall rest fuel l, malformed_group rest -> (length (text ++ rest) <= fuel)%nat ->
    parse_indices_loop fuel w (text ++ rest) l = Ret (l ++ vals).
Proof.
  induction 1 as [|junk tok v text vals Hj Ht Hne Hv _ IH]; intros rest fuel l Hm Hf.
  - simpl. rewrite app_nil_r. apply parse_indices_stop; auto.
  - destruct fuel as [|fuel].
    { exfalso. rewrite !length_app in Hf. simpl in Hf. lia. }
    replace ((junk ++ ch "[" :: tok ++ ch "]" :: text) ++ rest)
      with (junk ++ ch "[" :: tok ++ ch "]" :: (text ++ rest)) in *
      by (rewrite <- !app_assoc; simpl; rewrite <- app_assoc; reflexivity).
    rewrite parse_indices_turn by auto.
    rewrite Hv. simpl bind. rewrite IH; auto.
    + rewrite <- app_assoc. reflexivity.
    + rewrite length_app in Hf. simpl in Hf. rewrite length_app in Hf. simpl in Hf. lia.
Qed.

(** C10. On a text of well-formed bracket groups followed by a text whose
    next group is malformed (no opening bracket, no closing bracket, or an
    empty pair), [parse_indices] gives the integers of the well-formed
    groups in order and raises nothing, whatever follows. *)
Theorem parse_indices_stops_silently (w : world) (text rest : pystr) (vals : list Z) :
  index_groups w text vals ->
  malformed_group rest ->
  parse_indices w (text ++ rest) = Ret vals.
Proof.
  intros Hg Hm. unfold parse_indices.
  apply (parse_indices_groups w text vals Hg rest _ [] Hm). lia.
Qed.

Lemma parse_indices_stops_silently_witness :
  parse_indices razor_world (py "[1][]") = Ret [1].
Proof.
  apply (parse_indices_stops_silently razor_world (py "[1]") (py "[]") [1]).
  - apply (groups_cons razor_world [] (py "1") 1 [] []); try reflexivity.
    + discriminate.
    + constructor.
  - apply (empty_pair [] []). reflexivity.
Defined.

(** ** How the pieces of a pattern run *)

Lemma eat_pos w st : pos (eat w st) = (pos st + length w)%nat.
Proof.
  revert st. induction w as [|c w IH]; intros st; simpl; [lia|].
  rewrite IH. simpl. lia.
Qed.

Lemma eat_caps w st : caps (eat w st) = caps st.
Proof.
  revert st. induction w as [|c w IH]; intros st; simpl; [reflexivity|].
  rewrite IH. reflexivity.
Qed.

Lemma eat_rest w t st : rest st = w ++ t -> rest (eat w st) = t.
Proof.
  revert st. induction w as [|c w IH]; intros st H; simpl; [exact H|].
  apply IH. simpl. rewrite H. reflexivity.
Qed.

Lemma eat_app a b st : eat (a ++ b) st = eat b (eat a st).
Proof.
  revert st. induction a as [|c a IH]; intros st; simpl; [reflexivity|]. apply IH.
Qed.

Lemma exec_chr p st k c t :
  rest st = c :: t -> exec (Chr p) st k = if p c then k (eat [c] st) else None.
Proof. intros H. simpl. rewrite H. reflexivity. Qed.

Lemma exec_chr_nil p st k : rest st = [] -> exec (Chr p) st k = None.
Proof. intros H. simpl. rewrite H. reflexivity. Qed.

Lemma exec_lit v t st k : rest st = v ++ t -> exec (lit v) st k = k (eat v st).
Proof.
  revert st. induction v as [|c v IH]; intros st H; [reflexivity|].
  change (lit (c :: v)) with (Seq (Chr (Ascii.eqb c)) (lit v)).
  change (exec (Seq (Chr (Ascii.eqb c)) (lit v)) st k)
    with (exec (Chr (Ascii.eqb c)) st (fun st1 => exec (lit v) st1 k)).
  rewrite (exec_chr _ _ _ c (v ++ t)) by exact H.
  rewrite Ascii.eqb_refl. simpl eat. apply IH. simpl. rewrite H. reflexivity.
Qed.

Lemma exec_lit_inv v st k res :
  exec (lit v) st k = Some res -> exists t, rest st = v ++ t /\ k (eat v st) = Some res.
Proof.
  revert st. induction v as [|c v IH]; intros st H.
  - exists (rest st). auto.
  - change (exec (lit (c :: v)) st k)
      with (exec (Chr (Ascii.eqb c)) st (fun st1 => exec (lit v) st1 k)) in H.
    destruct (rest st) as [|x t] eqn:E.
    + rewrite exec_chr_nil in H by exact E. discriminate.
    + rewrite (exec_chr _ _ _ x t) in H by exact E.
      destruct (Ascii.eqb c x) eqn:Ec; [|discriminate].
      apply Ascii.eqb_eq in Ec. subst x.
      apply IH in H as (t' & Ht & Hk). simpl in Ht. rewrite E in Ht. simpl in Ht.
      exists t'. subst t. auto.
Qed.

(** A greedy repetition of a class, one turn unrolled. *)
Lemma star_chr_cons p k st c t :
  rest st = c :: t ->
  exec (Star true (Chr p)) st k =
  if p c then
    match exec (Star true (Chr p)) (eat [c] st) k with
    | Some res => Some res
    | None => k st
    end
  else k st.
Proof.
  intros H. simpl. rewrite H. simpl. rewrite H.
  destruct (p c); [|reflexivity].
  replace (pos st <? S (pos st))%nat with true by (symmetry; apply Nat.ltb_lt; lia).
  reflexivity.
Qed.

Lemma star_chr_nil p k st : rest st = [] -> exec (Star true (Chr p)) st k = k st.
Proof. intros H. simpl. rewrite H. reflexivity. Qed.

(** It stops at the longest run when what follows succeeds there. *)
Lemma star_chr_max p k w t st res :
  forallb p w = true -> rest st = w ++ t ->
  k (eat w st) = Some res ->
  exec (Star true (Chr p)) (eat w st) k = Some res ->
  exec (Star true (Chr p)) st k = Some res.
Proof.
  revert st. induction w as [|c w IH]; intros st Hw Hr Hk Hlast; [exact Hlast|].
  simpl in Hw. apply andb_true_iff in Hw as [Hc Hw].
  rewrite (star_chr_cons _ _ _ c (w ++ t)) by exact Hr. rewrite Hc.
  rewrite (IH (eat [c] st)); auto. simpl. rewrite Hr. reflexivity.
Qed.

Lemma star_chr_stop p k t st :
  rest st = t -> match t with c :: _ => p c = false | [] => True end ->
  exec (Star true (Chr p)) st k = k st.
Proof.
  intros Hr Ht. destruct t as [|c t].
  - apply star_chr_nil; auto.
  - rewrite (star_chr_cons _ _ _ c t) by exact Hr. rewrite Ht. reflexivity.
Qed.

(** With the longest run [w] before [t], a greedy repetition goes on from
    the end of [w] when what follows succeeds there. *)
Lemma star_chr_longest p k w t st res :
  forallb p w = true -> rest st = w ++ t ->
  match t with c :: _ => p c = false | [] => True end ->
  k (eat w st) = Some res ->
  exec (Star true (Chr p)) st k = Some res.
Proof.
  intros Hw Hr Ht Hk. eapply star_chr_max; eauto.
  rewrite (star_chr_stop p k t); auto. apply eat_rest; auto.
Qed.

(** Whatever a greedy repetition of a class gives, it gives after a run of
    the class. *)
Lemma star_chr_sound p k n : forall st res,
  length (rest st) = n ->
  exec (Star true (Chr p)) st k = Some res ->
  exists w t, rest st = w ++ t /\ forallb p w = true /\ k (eat w st) = Some res.
Proof.
  induction n as [|n IH]; intros st res Hn H.
  - destruct (rest st) eqn:E; [|discriminate].
    rewrite star_chr_nil in H by exact E. exists [], []. auto.
  - destruct (rest st) as [|c t] eqn:E; [discriminate|].
    rewrite (star_chr_cons _ _ _ c t) in H by exact E.
    destruct (p c) eqn:Hc.
    + destruct (exec (Star true (Chr p)) (eat [c] st) k) as [r|] eqn:F.
      * inversion H; subst r.
        apply IH in F as (w & t' & Hr & Hw & Hk).
        -- exists (c :: w), t'. simpl in Hr. rewrite E in Hr. simpl in Hr.
           simpl. rewrite Hc, Hw. subst t. auto.
        -- simpl. rewrite E. simpl. simpl in Hn. lia.
      * exists [], (c :: t). auto.
    + exists [], (c :: t). auto.
Qed.

Lemma span_spec p s :
  s = fst (span p s) ++ snd (span p s)
  /\ forallb p (fst (span p s)) = true
  /\ match snd (span p s) with c :: _ => p c = false | [] => True end.
Proof.
  induction s as [|c s IH]; simpl; auto.
  destruct (p c) eqn:E.
  - destruct (span p s) as [a b]. simpl in *. destruct IH as (H1 & H2 & H3).
    rewrite E, H2. repeat split; auto. congruence.
  - simpl. auto.
Qed.

(** ** A search gives the leftmost match *)

Lemma state_at_wf s n : (n <= length s)%nat -> wf s (state_at s n).
Proof. intros H. unfold wf, state_at; simpl. split; [auto|split; [auto|constructor]]. Qed.

Lemma search_from_cons r whole st c t :
  search_from r whole st (c :: t) =
  match exec r st Some with
  | Some res => Some (mkMatch whole (pos st) (pos res) (caps res))
  | None => search_from r whole (mkState (S (pos st)) t (Some c) []) t
  end.
Proof. reflexivity. Qed.

Lemma search_from_nil r whole st :
  search_from r whole st [] =
  match exec r st Some with
  | Some res => Some (mkMatch whole (pos st) (pos res) (caps res))
  | None => None
  end.
Proof. reflexivity. Qed.

Lemma search_from_at r s n :
  search_from r s (state_at s n) (skipn n s) =
  match exec r (state_at s n) Some with
  | Some res => Some (mkMatch s n (pos res) (caps res))
  | None =>
      if (n <? length s)%nat then search_from r s (state_at s (S n)) (skipn (S n) s)
      else None
  end.
Proof.
  destruct (skipn n s) as [|c t] eqn:E.
  - rewrite search_from_nil. destruct (exec r (state_at s n) Some); [reflexivity|].
    replace (n <? length s)%nat with false; [reflexivity|].
    symmetry. apply Nat.ltb_ge. apply (f_equal (@length _)) in E.
    rewrite length_skipn in E. simpl in E. lia.
  - rewrite search_from_cons. destruct (exec r (state_at s n) Some); [reflexivity|].
    apply skipn_cons_nth in E as (Hlt & Ht & Hn).
    replace (n <? length s)%nat with true by (symmetry; apply Nat.ltb_lt; lia).
    unfold state_at at 2. rewrite Ht, Hn. reflexivity.
Qed.

Lemma search_from_leftmost r s d : forall n,
  (length s - n = d)%nat -> (n <= length s)%nat ->
  match search_from r s (state_at s n) (skipn n s) with
  | Some m =>
      exists res, (n <= m_start m <= length s)%nat
        /\ exec r (state_at s (m_start m)) Some = Some res
        /\ m = mkMatch s (m_start m) (pos res) (caps res)
        /\ forall j, (n <= j < m_start m)%nat -> exec r (state_at s j) Some = None
  | None => forall j, (n <= j <= length s)%nat -> exec r (state_at s j) Some = None
  end.
Proof.
  induction d as [|d IH]; intros n Hd Hn; rewrite search_from_at.
  - destruct (exec r (state_at s n) Some) as [res|] eqn:E.
    + exists res. simpl. repeat split; auto; try lia; intros j Hj; lia.
    + replace (n <? length s)%nat with false by (symmetry; apply Nat.ltb_ge; lia).
      intros j Hj. replace j with n by lia. exact E.
  - destruct (exec r (state_at s n) Some) as [res|] eqn:E.
    + exists res. simpl. repeat split; auto; try lia; intros j Hj; lia.
    + replace (n <? length s)%nat with true by (symmetry; apply Nat.ltb_lt; lia).
      specialize (IH (S n)). destruct (search_from r s (state_at s (S n)) (skipn (S n) s)) as [m|].
      * destruct IH as (res & Hb & Hex & Hm & Hbefore); try lia.
        exists res. repeat split; auto; try lia.
        intros j Hj. destruct (Nat.eq_dec j n) as [->|Hne]; [exact E|]. apply Hbefore. lia.
      * intros j Hj. destruct (Nat.eq_dec j n) as [->|Hne]; [exact E|]. apply IH; lia.
Qed.

Lemma search_leftmost r s m :
  search r s = Some m ->
  exists res, (m_start m <= length s)%nat
    /\ exec r (state_at s (m_start m)) Some = Some res
    /\ m = mkMatch s (m_start m) (pos res) (caps res)
    /\ forall j, (j < m_start m)%nat -> exec r (state_at s j) Some = None.
Proof.
  intros H. pose proof (search_from_leftmost r s _ O eq_refl (Nat.le_0_l _)) as L.
  change (search_from r s (state_at s 0) (skipn 0 s)) with (search r s) in L.
  rewrite H in L. destruct L as (res & Hb & Hex & Hm & Hbefore).
  exists res. repeat split; auto; try lia. intros j Hj. apply Hbefore. lia.
Qed.

Lemma search_nowhere r s :
  search r s = None -> forall j, (j <= length s)%nat -> exec r (state_at s j) Some = None.
Proof.
  intros H. pose proof (search_from_leftmost r s _ O eq_refl (Nat.le_0_l _)) as L.
  change (search_from r s (state_at s 0) (skipn 0 s)) with (search r s) in L.
  rewrite H in L. intros j Hj. apply L. lia.
Qed.

(** ** The pattern of an explicit enum value *)

Lemma exec_seq r1 r2 st k :
  exec (Seq r1 r2) st k = exec r1 st (fun st1 => exec r2 st1 k).
Proof. reflexivity. Qed.

Lemma digit_not_space c : is_digit c = true -> is_space c = false.
Proof. destruct c as [[] [] [] [] [] [] [] []]; vm_compute; congruence. Qed.

Lemma digit_not_minus c : is_digit c = true -> Ascii.eqb (ch "-") c = false.
Proof. destruct c as [[] [] [] [] [] [] [] []]; vm_compute; congruence. Qed.

(** The run of the digits of a literal, which closes the group [v]. *)
Lemma digits_run st0 st ds t :
  ds <> [] -> forallb is_digit ds = true -> no_digit_ahead t ->
  rest st = ds ++ t ->
  exec (plus (Chr is_digit)) st (fun st1 => Some (close_group "v" (pos st0) st1))
  = Some (close_group "v" (pos st0) (eat ds st)).
Proof.
  intros Hne Hds Ht Hr. destruct ds as [|d ds]; [congruence|].
  simpl in Hds. apply andb_true_iff in Hds as [Hd Hds].
  unfold plus. rewrite exec_seq. rewrite (exec_chr _ _ _ d (ds ++ t)) by exact Hr.
  rewrite Hd.
  apply (star_chr_longest is_digit _ ds t); auto.
  simpl. rewrite Hr. reflexivity.
Qed.

(** The group [v] of the pattern, at a literal with or without sign. *)
Lemma literal_run st lt ds t :
  lt = ds \/ lt = ch "-" :: ds ->
  ds <> [] -> forallb is_digit ds = true -> no_digit_ahead t ->
  rest st = lt ++ t ->
  exec (Grp "v" (Seq (opt (one "-")) (plus (Chr is_digit)))) st Some
  = Some (close_group "v" (pos st) (eat lt st)).
Proof.
  intros Hlt Hne Hds Ht Hr.
  change (exec (Grp "v" (Seq (opt (one "-")) (plus (Chr is_digit)))) st Some)
    with (match exec (one "-") st (fun st' => exec (plus (Chr is_digit)) st'
                 (fun st1 => Some (close_group "v" (pos st) st1))) with
          | Some res => Some res
          | None => exec (plus (Chr is_digit)) st
                      (fun st1 => Some (close_group "v" (pos st) st1))
          end).
  destruct Hlt as [-> | ->].
  - destruct ds as [|d ds'] eqn:E; [congruence|]. rewrite <- E in *.
    assert (Hd : is_digit d = true).
    { rewrite E in Hds. simpl in Hds. apply andb_true_iff in Hds. tauto. }
    unfold one. rewrite (exec_chr _ _ _ d (ds' ++ t)) by (rewrite Hr, E; reflexivity).
    rewrite (digit_not_minus _ Hd).
    apply digits_run with (t := t); auto.
  - unfold one. rewrite (exec_chr _ _ _ (ch "-") (ds ++ t)) by exact Hr.
    rewrite Ascii.eqb_refl.
    rewrite (digits_run st (eat [ch "-"] st) ds t); auto.
    simpl. rewrite Hr. reflexivity.
Qed.

Lemma digit_not_plus c : is_digit c = true -> Ascii.eqb c (ch "+") = false.
Proof. destruct c as [[] [] [] [] [] [] [] []]; vm_compute; congruence. Qed.

Lemma digit_not_minus' c : is_digit c = true -> Ascii.eqb c (ch "-") = false.
Proof. destruct c as [[] [] [] [] [] [] [] []]; vm_compute; congruence. Qed.

Lemma lstrip_id s :
  match s with c :: _ => is_space c = false | [] => True end -> lstrip s = s.
Proof. destruct s as [|c s]; simpl; [reflexivity|]. intros ->. reflexivity. Qed.

Lemma forallb_rev {A} (p : A -> bool) l : forallb p (rev l) = forallb p l.
Proof.
  induction l as [|x l IH]; simpl; [reflexivity|].
  rewrite forallb_app, IH. simpl. rewrite andb_true_r. apply andb_comm.
Qed.

(** A text that ends in a digit and begins with no blank is its own [strip]. *)
Lemma strip_literal lt ds :
  lt = ds \/ lt = ch "-" :: ds -> ds <> [] -> forallb is_digit ds = true ->
  strip lt = lt.
Proof.
  intros Hlt Hne Hds. unfold strip, rstrip.
  assert (Hl : lstrip lt = lt).
  { apply lstrip_id. destruct Hlt as [-> | ->]; [|reflexivity].
    destruct ds as [|d ds]; [congruence|]. simpl in Hds.
    apply andb_true_iff in Hds as [Hd _]. apply digit_not_space; auto. }
  rewrite Hl.
  assert (Hr : lstrip (rev lt) = rev lt).
  { apply lstrip_id.
    assert (Hrev : exists d r, rev lt = d :: r /\ is_digit d = true).
    { rewrite <- forallb_rev in Hds.
      destruct (rev ds) as [|d r] eqn:E.
      - apply (f_equal (@rev _)) in E. rewrite rev_involutive in E. simpl in E. congruence.
      - simpl in Hds. apply andb_true_iff in Hds as [Hd _].
        destruct Hlt as [-> | ->].
        + exists d, r. auto.
        + simpl. rewrite E. exists d, (r ++ [ch "-"]). auto. }
    destruct Hrev as (d & r & -> & Hd). apply digit_not_space; auto. }
  rewrite Hr. apply rev_involutive.
Qed.

Lemma py_int_literal ds :
  ds <> [] -> forallb is_digit ds = true ->
  py_int ds = Ret (digits_val ds) /\ py_int (ch "-" :: ds) = Ret (- digits_val ds).
Proof.
  intros Hne Hds. unfold py_int.
  rewrite (strip_literal ds ds), (strip_literal (ch "-" :: ds) ds); auto.
  split.
  - destruct ds as [|d ds'] eqn:E; [congruence|]. rewrite <- E in *.
    assert (Hd : is_digit d = true).
    { rewrite E in Hds. simpl in Hds. apply andb_true_iff in Hds. tauto. }
    unfold split_sign. rewrite E. rewrite (digit_not_minus' _ Hd), (digit_not_plus _ Hd).
    rewrite <- E. unfold all_digits. rewrite Hds. rewrite E. f_equal.
    try (destruct (digits_val (d :: ds')); reflexivity).
  - unfold split_sign. rewrite Ascii.eqb_refl.
    destruct ds as [|d ds'] eqn:E; [congruence|]. rewrite <- E in *.
    unfold all_digits. rewrite Hds. rewrite E. reflexivity.
Qed.

(** The way the pattern runs where an integer is assigned to [tok]. *)
Lemma enum_value_run tok v s st :
  assigns tok v s -> rest st = s ->
  exists lead lt t, s = lead ++ lt ++ t /\ py_int lt = Ret v
    /\ exec (enum_value_pattern tok) st Some
       = Some (close_group "v" (pos (eat lead st)) (eat lt (eat lead st))).
Proof.
  intros Ha Hr.
  assert (H : exists ws1 ws2 lt ds t,
    s = tok ++ ws1 ++ ch "=" :: ws2 ++ lt ++ t
    /\ forallb is_space ws1 = true /\ forallb is_space ws2 = true
    /\ (lt = ds \/ lt = ch "-" :: ds) /\ ds <> [] /\ forallb is_digit ds = true
    /\ no_digit_ahead t /\ py_int lt = Ret v).
  { destruct Ha as [ws1 ws2 ds t H1 H2 H3 H4 H5 ->|ws1 ws2 ds t H1 H2 H3 H4 H5 ->].
    - exists ws1, ws2, ds, ds, t. repeat split; auto. apply py_int_literal; auto.
    - exists ws1, ws2, (ch "-" :: ds), ds, t. repeat split; auto. apply py_int_literal; auto. }
  destruct H as (ws1 & ws2 & lt & ds & t & Hs & H1 & H2 & Hlt & Hne & Hds & Ht & Hv).
  assert (Hlt0 : match lt ++ t with c :: _ => is_space c = false | [] => True end).
  { destruct ds as [|d ds'] eqn:E; [congruence|].
    destruct Hlt as [-> | ->]; simpl; [|reflexivity].
    simpl in Hds. apply andb_true_iff in Hds as [Hd _]. apply digit_not_space; auto. }
  exists (tok ++ ws1 ++ ch "=" :: ws2), lt, t.
  split; [rewrite Hs; repeat (rewrite <- app_assoc; simpl); reflexivity|].
  split; [exact Hv|].
  replace (eat (tok ++ ws1 ++ ch "=" :: ws2) st)
    with (eat ws2 (eat [ch "="] (eat ws1 (eat tok st))))
    by (rewrite <- !eat_app; reflexivity).
  subst s.
  unfold enum_value_pattern.
  rewrite exec_seq, (exec_lit tok _ _ _ Hs).
  assert (Hr1 : rest (eat tok st) = ws1 ++ ch "=" :: ws2 ++ lt ++ t).
  { apply eat_rest. exact Hs. }
  assert (Hr2 : rest (eat ws1 (eat tok st)) = ch "=" :: ws2 ++ lt ++ t).
  { apply eat_rest. exact Hr1. }
  assert (Hr3 : rest (eat [ch "="] (eat ws1 (eat tok st))) = ws2 ++ lt ++ t).
  { simpl. rewrite Hr2. reflexivity. }
  rewrite exec_seq.
  apply (star_chr_longest is_space _ ws1 (ch "=" :: ws2 ++ lt ++ t));
    [exact H1|exact Hr1|reflexivity|].
  rewrite exec_seq. unfold one at 1. rewrite (exec_chr _ _ _ _ _ Hr2), Ascii.eqb_refl.
  rewrite exec_seq.
  apply (star_chr_longest is_space _ ws2 (lt ++ t));
    [exact H2|exact Hr3|exact Hlt0|].
  apply literal_run with (ds := ds) (t := t); auto.
  apply eat_rest. exact Hr3.
Qed.

(** Where the pattern matches, an integer is assigned to [tok]. *)
Lemma enum_value_sound tok st res :
  exec (enum_value_pattern tok) st Some = Some res ->
  exists v, assigns tok v (rest st).
Proof.
  intros H. unfold enum_value_pattern in H.
  rewrite exec_seq in H. apply exec_lit_inv in H as (t1 & Hr & H).
  rewrite exec_seq in H.
  apply (star_chr_sound _ _ _ _ _ eq_refl) in H as (ws1 & t2 & Hr1 & Hws1 & H).
  rewrite (eat_rest _ _ _ Hr) in Hr1. subst t1.
  assert (Hr2 : rest (eat ws1 (eat tok st)) = t2).
  { apply eat_rest. apply eat_rest with (t := ws1 ++ t2). exact Hr. }
  rewrite exec_seq in H. unfold one at 1 in H.
  destruct t2 as [|c t3]; [rewrite exec_chr_nil in H by exact Hr2; discriminate|].
  rewrite (exec_chr _ _ _ _ _ Hr2) in H.
  destruct (Ascii.eqb (ch "=") c) eqn:Ec; [|discriminate].
  apply Ascii.eqb_eq in Ec. subst c.
  assert (Hr3 : rest (eat [ch "="] (eat ws1 (eat tok st))) = t3).
  { simpl. rewrite Hr2. reflexivity. }
  rewrite exec_seq in H.
  apply (star_chr_sound _ _ _ _ _ eq_refl) in H as (ws2 & t4 & Hr4 & Hws2 & H).
  rewrite Hr3 in Hr4. subst t3.
  set (st4 := eat ws2 (eat [ch "="] (eat ws1 (eat tok st)))) in *.
  assert (Hr5 : rest st4 = t4). { apply eat_rest. exact Hr3. }
  (* the literal: an optional sign, then digits *)
  assert (Hdigits : forall st5 t5 k r,
            rest st5 = t5 -> exec (plus (Chr is_digit)) st5 k = Some r ->
            exists ds t, t5 = ds ++ t /\ ds <> [] /\ forallb is_digit ds = true
                         /\ no_digit_ahead t).
  { intros st5 t5 k r Hr6 Hex. unfold plus in Hex. rewrite exec_seq in Hex.
    destruct t5 as [|d t6]; [rewrite exec_chr_nil in Hex by exact Hr6; discriminate|].
    rewrite (exec_chr _ _ _ _ _ Hr6) in Hex.
    destruct (is_digit d) eqn:Hd; [|discriminate].
    destruct (span_spec is_digit t6) as (S1 & S2 & S3).
    exists (d :: fst (span is_digit t6)), (snd (span is_digit t6)).
    split; [simpl; rewrite <- S1; reflexivity|]. split; [discriminate|].
    split; [simpl; rewrite Hd, S2; reflexivity|]. exact S3. }
  change (exec (Grp "v" (Seq (opt (one "-")) (plus (Chr is_digit)))) st4 Some)
    with (match exec (one "-") st4 (fun st' => exec (plus (Chr is_digit)) st'
                 (fun st1 => Some (close_group "v" (pos st4) st1))) with
          | Some res => Some res
          | None => exec (plus (Chr is_digit)) st4
                      (fun st1 => Some (close_group "v" (pos st4) st1))
          end) in H.
  destruct (exec (one "-") st4 _) as [r|] eqn:Hminus.
  - unfold one in Hminus.
    destruct t4 as [|c t5]; [rewrite exec_chr_nil in Hminus by exact Hr5; discriminate|].
    rewrite (exec_chr _ _ _ _ _ Hr5) in Hminus.
    destruct (Ascii.eqb (ch "-") c) eqn:Ec; [|discriminate].
    apply Ascii.eqb_eq in Ec. subst c.
    apply (Hdigits _ t5) in Hminus as (ds & t & -> & Hne & Hds & Ht);
      [|simpl; rewrite Hr5; reflexivity].
    exists (- digits_val ds). rewrite Hr.
    apply assigns_minus; auto.
  - apply (Hdigits _ t4) in H as (ds & t & -> & Hne & Hds & Ht); [|exact Hr5].
    exists (digits_val ds). rewrite Hr.
    apply assigns_plain; auto.
Qed.

(** ** What [get_index] gives *)

Lemma skipn_length_app {A} (a b : list A) : skipn (length a) (a ++ b) = b.
Proof. rewrite skipn_app, skipn_all, Nat.sub_diag. reflexivity. Qed.

Lemma firstn_length_app {A} (a b : list A) : firstn (length a) (a ++ b) = a.
Proof. rewrite firstn_app, firstn_all, Nat.sub_diag. simpl. apply app_nil_r. Qed.

Lemma substr_middle a b c :
  substr (a ++ b ++ c) (length a) (length a + length b) = b.
Proof.
  unfold substr. rewrite skipn_length_app.
  replace (length a + length b - length a)%nat with (length b) by lia.
  apply firstn_length_app.
Qed.

Lemma assigns_runs tok v block pre s :
  block = pre ++ s -> assigns tok v s ->
  exec (enum_value_pattern tok) (state_at block (length pre)) Some <> None.
Proof.
  intros Hb Ha.
  destruct (enum_value_run tok v s (state_at block (length pre)) Ha)
    as (lead & lt & t & _ & _ & E).
  - simpl. rewrite Hb. apply skipn_length_app.
  - rewrite E. discriminate.
Qed.

Lemma get_index_assigned block tok m :
  search (enum_value_pattern tok) block = Some m ->
  exists v, get_index block tok = Ret v /\ first_assignment tok block v.
Proof.
  intros H. unfold get_index. rewrite H.
  apply search_leftmost in H as (res & Hn & Hex & Hm & Hbefore).
  set (n := m_start m) in *.
  destruct (enum_value_sound _ _ _ Hex) as (v & Ha).
  destruct (enum_value_run tok v _ (state_at block n) Ha eq_refl)
    as (lead & lt & t & Hs & Hv & E).
  simpl in Ha, Hs.
  rewrite Hex in E. inversion E; subst res; clear E.
  assert (Hblock : block = firstn n block ++ lead ++ lt ++ t).
  { rewrite <- Hs. symmetry. apply firstn_skipn. }
  assert (Hlen : length (firstn n block) = n) by (apply firstn_length_le; exact Hn).
  exists v. split.
  - rewrite Hm. unfold group_or_raise, group. simpl.
    rewrite !eat_pos. simpl.
    pose proof (substr_middle (firstn n block ++ lead) lt t) as Hsub.
    rewrite <- app_assoc, <- Hblock, length_app, Hlen in Hsub.
    rewrite Hsub. exact Hv.
  - exists (firstn n block), (skipn n block).
    split; [symmetry; apply firstn_skipn|]. split; [exact Ha|].
    intros pre' s' v' Hb Hlt Ha'. rewrite Hlen in Hlt.
    apply (assigns_runs _ _ _ _ _ Hb Ha'). apply Hbefore. exact Hlt.
Qed.

Lemma get_index_counted block tok :
  search (enum_value_pattern tok) block = None ->
  get_index block tok = Ret (count_char (ch ",") (slice_to block (py_find block tok 0)))
  /\ no_assignment tok block.
Proof.
  intros H. unfold get_index. rewrite H. split; [reflexivity|].
  intros pre s v Hb Ha.
  apply (assigns_runs _ _ _ _ _ Hb Ha). apply (search_nowhere _ _ H).
  rewrite Hb, length_app. lia.
Qed.

Lemma startswith_app s sub : startswith s sub = true <-> exists post, s = sub ++ post.
Proof.
  revert s. induction sub as [|x sub IH]; intros s; simpl.
  - split; [intros _; exists s; destruct s; reflexivity|destruct s; reflexivity].
  - destruct s as [|y s]; simpl.
    + split; [discriminate|intros (post & H); discriminate].
    + rewrite andb_true_iff, IH, Ascii.eqb_eq. split.
      * intros (-> & post & ->). exists post. reflexivity.
      * intros (post & H). inversion H; subst. split; [reflexivity|exists post; reflexivity].
Qed.

(** [find_at] gives the first occurrence. *)
Lemma find_at_first sub s pre post :
  s = pre ++ sub ++ post ->
  exists n post0, find_at sub s = Some n /\ s = firstn n s ++ sub ++ post0
    /\ (n <= length s)%nat
    /\ forall pre' post', s = pre' ++ sub ++ post' -> (n <= length pre')%nat.
Proof.
  revert pre. induction s as [|c s IH]; intros pre Hs; rewrite find_at_unfold.
  - destruct (startswith [] sub) eqn:E.
    + apply startswith_app in E as (post0 & E).
      exists O, post0. simpl. repeat split; auto. intros; lia.
    + exfalso. destruct pre; [|discriminate]. simpl in Hs.
      assert (startswith [] sub = true) by (apply startswith_app; eauto). congruence.
  - destruct (startswith (c :: s) sub) eqn:E.
    + apply startswith_app in E as (post0 & E).
      exists O, post0. simpl. repeat split; auto; intros; lia.
    + destruct pre as [|x pre].
      { exfalso. simpl in Hs.
        assert (startswith (c :: s) sub = true) by (apply startswith_app; eauto). congruence. }
      simpl in Hs. inversion Hs; subst x.
      destruct (IH pre H1) as (n & post0 & Hf & Hd & Hle & Hmin).
      exists (S n), post0. rewrite <- !H1. rewrite Hf. simpl.
      split; [reflexivity|]. split; [rewrite <- Hd; reflexivity|]. split; [lia|].
      intros pre' post' Hs'. destruct pre' as [|x' pre'].
      { exfalso. simpl in Hs'.
        assert (startswith (c :: s) sub = true) by (apply startswith_app; eauto). congruence. }
      simpl in Hs'. inversion Hs'. simpl. apply le_n_S. eapply Hmin. eassumption.
Qed.

Lemma slice_to_firstn s n : (n <= length s)%nat -> slice_to s (Z.of_nat n) = firstn n s.
Proof.
  intros H. unfold slice_to, py_slice, clamp. simpl.
  pose proof (len_nonneg s).
  replace (Z.of_nat n <? 0) with false by (symmetry; apply Z.ltb_ge; lia).
  replace (Z.min 0 (len s)) with 0 by lia.
  replace (Z.min (Z.of_nat n) (len s) - 0) with (Z.of_nat n) by (unfold len; lia).
  rewrite Nat2Z.id. reflexivity.
Qed.

Lemma commas_before_found tok block pre post :
  block = pre ++ tok ++ post ->
  commas_before tok block (count_char (ch ",") (slice_to block (py_find block tok 0))).
Proof.
  intros Hb. destruct (find_at_first _ _ _ _ Hb) as (n & post0 & Hf & Hd & Hle & Hmin).
  rewrite py_find_0, Hf, slice_to_firstn by exact Hle.
  exists (firstn n block), post0. split; [exact Hd|]. split; [|reflexivity].
  intros pre' post' Hb'. rewrite firstn_length_le by exact Hle. eapply Hmin; eauto.
Qed.

(** On a block in which [tok] occurs, [get_index] gives the value of
    [tok] as read off the block. *)
Lemma get_index_enum_value block tok pre post :
  block = pre ++ tok ++ post ->
  exists v, get_index block tok = Ret v /\ enum_value tok block v.
Proof.
  intros Hb. destruct (search (enum_value_pattern tok) block) as [m|] eqn:E.
  - destruct (get_index_assigned _ _ _ E) as (v & Hg & Hf).
    exists v. split; [exact Hg|]. left. exact Hf.
  - destruct (get_index_counted _ _ E) as (Hg & Hn).
    eexists. split; [exact Hg|]. right. split; [exact Hn|].
    eapply commas_before_found; eauto.
Qed.

Lemma wf_eat s w : forall st t, wf s st -> rest st = w ++ t -> wf s (eat w st).
Proof.
  induction w as [|c w IH]; intros st t Hwf Hr; simpl; [exact Hwf|].
  apply (IH _ t).
  - rewrite Hr. simpl. apply wf_advance; auto.
  - simpl. rewrite Hr. reflexivity.
Qed.

Lemma firstn_plus {A} (a b : nat) (l : list A) :
  firstn (a + b) l = firstn a l ++ firstn b (skipn a l).
Proof.
  revert l. induction a as [|a IH]; intros l; simpl; [reflexivity|].
  destruct l as [|x l]; simpl; [rewrite firstn_nil; reflexivity|].
  rewrite IH. reflexivity.
Qed.

Lemma substr_split s a p b :
  (a <= p <= b)%nat -> substr s a b = substr s a p ++ substr s p b.
Proof.
  intros H. unfold substr.
  replace (b - a)%nat with ((p - a) + (b - p))%nat by lia.
  rewrite firstn_plus. f_equal. rewrite skipn_skipn.
  replace (p - a + a)%nat with p by lia. reflexivity.
Qed.

(** The block found for a name holds the name. *)
Lemma enum_match_contains tok s m :
  search (enum_pattern tok) s = Some m ->
  exists pre post, group0 m = pre ++ tok ++ post.
Proof.
  intros H. apply search_run in H as (st0 & res & Hwf & _ & H & ->).
  unfold enum_pattern in H.
  do 7 (let Hw := match goal with Hw : wf s ?st, H : exec _ ?st _ = _ |- _ => Hw end in peel H Hw).
  match goal with Hw : wf s ?st, H : exec _ ?st _ = _ |- _ =>
    rename Hw into Hwf7; set (st7 := st) in * end.
  rewrite exec_seq in H. apply exec_lit_inv in H as (t & Hr & H).
  pose proof (wf_eat _ _ _ _ Hwf7 Hr) as Hwf8.
  destruct (exec_passes_on _ _ _ _ _ Hwf8 H) as (st9 & (Hp9 & _) & Hle9 & E).
  inversion E; subst st9; clear E.
  rewrite eat_pos in Hle9.
  assert (Hle7 : (pos st0 <= pos st7)%nat) by lia.
  unfold group0; simpl.
  rewrite (substr_split s (pos st0) (pos st7) (pos res)) by lia.
  rewrite (substr_split s (pos st7) (pos st7 + length tok) (pos res)) by lia.
  assert (Htok : substr s (pos st7) (pos st7 + length tok) = tok).
  { unfold substr. destruct Hwf7 as (_ & Hs & _). rewrite <- Hs, Hr.
    replace (pos st7 + length tok - pos st7)%nat with (length tok) by lia.
    apply firstn_length_app. }
  rewrite Htok. eauto.
Qed.

Lemma plain_bracket_free tok : plain tok = true -> bracket_free tok = true.
Proof.
  unfold plain, bracket_free. rewrite !forallb_forall. intros H c Hc.
  specialize (H c Hc). revert H.
  destruct c as [[] [] [] [] [] [] [] []]; vm_compute; congruence.
Qed.

(** C3. An index token that is no integer literal is resolved from the
    enum block found for it: to the integer of the leftmost explicit
    assignment [token = <int>] of the block if there is one, and otherwise
    to the number of commas of the block before the first occurrence of the
    token. *)
Theorem enum_token_resolution (w : world) (tok : pystr) (m : rmatch) (k : nat) :
  tok <> [] -> plain tok = true ->
  py_int tok = Raise ValueError ->
  search_def w tok true = Ret (Some (m, k)) ->
  exists v, parse_indices w (ch "[" :: tok ++ [ch "]"]) = Ret [v]
            /\ enum_value tok (group0 m) v.
Proof.
  intros Hne Hplain Hint Hsd.
  apply search_def_found in Hsd as Hfound. destruct Hfound as (f & _ & _ & Hs).
  destruct (enum_match_contains _ _ _ Hs) as (pre & post & Hb).
  destruct (get_index_enum_value _ _ _ _ Hb) as (v & Hg & Hv).
  exists v. split; [|exact Hv].
  unfold parse_indices.
  change (ch "[" :: tok ++ [ch "]"]) with ([] ++ ch "[" :: tok ++ ch "]" :: []).
  replace (length ([] ++ ch "[" :: tok ++ ch "]" :: [])) with (S (length tok + 1))
    by (simpl; rewrite length_app; reflexivity).
  rewrite parse_indices_turn; auto using plain_bracket_free.
  unfold resolve_index. rewrite Hint, Hsd. simpl bind. rewrite Hg. simpl.
  destruct (length tok + 1)%nat; reflexivity.
Qed.

Lemma enum_token_resolution_witness :
  parse_indices abc_world (py "[B]") = Ret [1]
  /\ enum_value (py "B") (py "enum E { A, B, C };") 1.
Proof.
  destruct (enum_token_resolution abc_world (py "B")
              (mkMatch (py "enum E { A, B, C };") 0 19 []) 0)
    as (v & Hp & Hv).
  - discriminate.
  - reflexivity.
  - reflexivity.
  - vm_compute. reflexivity.
  - assert (E : parse_indices abc_world (py "[B]") = Ret [1]) by (vm_compute; reflexivity).
    change (ch "[" :: py "B" ++ [ch "]"]) with (py "[B]") in Hp.
    rewrite E in Hp. inversion Hp; subst v.
    split; [reflexivity|exact Hv].
Defined.

(** ** Function mode *)

Lemma search_at_state r s i :
  (i <= length s)%nat ->
  search_at r s i = search_from r s (state_at s i) (skipn i s).
Proof.
  intros H. unfold search_at.
  replace (length s <? i)%nat with false by (symmetry; apply Nat.ltb_ge; lia).
  reflexivity.
Qed.






Lemma sub_pieces_unfold fuel r s start i n :
  sub_pieces (S fuel) r s start i n =
  match search_at r s start with
  | None => [inl (skipn i s)]
  | Some m =>
      if (i =? m_start m)%nat && (i =? m_end m)%nat && (0 <? n)%nat
      then inl (substr s i (m_start m))
             :: sub_pieces fuel r s (if (m_end m =? m_start m)%nat then S (m_end m) else m_end m) i n
      else inl (substr s i (m_start m)) :: inr m
             :: sub_pieces fuel r s (if (m_end m =? m_start m)%nat then S (m_end m) else m_end m)
                  (m_end m) (S n)
  end.
Proof. reflexivity. Qed.




Lemma exec_notahead r st k :
  exec (NotAhead r) st k = match exec r st Some with Some _ => None | None => k st end.
Proof. reflexivity. Qed.

Lemma exec_grp name r st k :
  exec (Grp name r) st k = exec r st (fun st1 => k (close_group name (pos st) st1)).
Proof. reflexivity. Qed.

(** A lazy repetition of a class, one turn unrolled. *)
Lemma star_lazy_cons p k st c t :
  rest st = c :: t ->
  exec (Star false (Chr p)) st k =
  match k st with
  | Some res => Some res
  | None => if p c then exec (Star false (Chr p)) (eat [c] st) k else None
  end.
Proof.
  intros H. simpl. rewrite H. simpl. rewrite H.
  destruct (k st); [reflexivity|].
  destruct (p c); [|reflexivity].
  replace (pos st <? S (pos st))%nat with true by (symmetry; apply Nat.ltb_lt; lia).
  reflexivity.
Qed.




Lemma slice_from_skipn s n : (n <= length s)%nat -> slice_from s (Z.of_nat n) = skipn n s.
Proof.
  intros H. unfold slice_from, py_slice, clamp.
  pose proof (len_nonneg s).
  replace (Z.of_nat n <? 0) with false by (symmetry; apply Z.ltb_ge; lia).
  replace (len s <? 0) with false by (symmetry; apply Z.ltb_ge; lia).
  rewrite Z.min_id. replace (Z.min (Z.of_nat n) (len s)) with (Z.of_nat n) by (unfold len; lia).
  rewrite Nat2Z.id. apply firstn_all2. rewrite length_skipn. unfold len. lia.
Qed.



(** ** The scenarios of the value patcher *)

(** The patch of a request whose place holds a literal, from the results
    of its steps. *)
Lemma spsa_patch_literal w inp f_round nm prefix idx md k x n ty pattern mv old z y z' :
  (if startswith (name inp) (py "m") || startswith (name inp) (py "e")
   then (slice_from (name inp) 1, firstn 1 (name inp))
   else (name inp, py "v")) = (nm, prefix) ->
  parse_indices w (indices inp) = Ret idx ->
  search_def w nm false = Ret (Some (md, k)) ->
  py_float (value_new inp) = Ret x ->
  int_round f_round x = Ret n ->
  group md "type" = Some ty ->
  Bool.eqb (str_eqb ty (py "Score")) (is_score_prefix prefix) = true ->
  select_pattern prefix ty = Some pattern ->
  search pattern (slice_from (group0 md) (find_index (group0 md) idx)) = Some mv ->
  group mv (string_of_list_ascii prefix) = Some old ->
  py_int old = Ret z ->
  py_float (value_old inp) = Ret y ->
  int_of_float y = Ret z' ->
  spsa_patch w inp f_round
  = Ret (inr (mkPatch k (m_string md)
                (Z.of_nat (m_start md) + find_index (group0 md) idx
                 + start mv (string_of_list_ascii prefix))
                (Z.of_nat (m_start md) + find_index (group0 md) idx
                 + end_ mv (string_of_list_ascii prefix))
                old (str_of_int n))).
Proof.
  intros Hn Hi Hsd Hx Hr Hty Hs Hsel Hmv Hg Hz Hy Hz'.
  unfold spsa_patch. rewrite Hn, Hi. unfold bind at 1. rewrite Hsd. unfold bind at 1.
  rewrite Hx. unfold bind at 1. rewrite Hr. unfold bind at 1.
  unfold group_or_raise at 1. rewrite Hty. unfold bind at 1.
  rewrite Hs. simpl negb. cbv iota. rewrite Hsel, Hmv.
  unfold literal_or_enum. rewrite Hg. unfold bind at 1.
  unfold group_or_raise. rewrite Hg. unfold bind at 1. rewrite Hz. unfold bind at 1.
  rewrite Hy. unfold bind at 1. rewrite Hz'. reflexivity.
Qed.

Lemma skipn_plus {A} (a b : nat) (l : list A) : skipn (a + b) l = skipn b (skipn a l).
Proof. rewrite skipn_skipn. f_equal. lia. Qed.

(** Replacing a span that lies within a part of a text leaves the text
    before and after the part as it was. *)
Lemma splice_within s a b lo hi mid :
  (a <= b <= length s)%nat -> (lo <= hi <= b - a)%nat ->
  slice_to s (Z.of_nat a + Z.of_nat lo) ++ mid ++ slice_from s (Z.of_nat a + Z.of_nat hi)
  = firstn a s ++ (firstn lo (substr s a b) ++ mid ++ skipn hi (substr s a b)) ++ skipn b s.
Proof.
  intros Hab Hlo.
  rewrite <- !Nat2Z.inj_add, slice_to_firstn, slice_from_skipn by lia.
  unfold substr. rewrite firstn_plus, skipn_plus.
  rewrite firstn_firstn, Nat.min_l by lia.
  rewrite <- !app_assoc. f_equal. f_equal. f_equal.
  rewrite <- (firstn_skipn (b - a) (skipn a s)) at 1.
  rewrite skipn_app, length_firstn, length_skipn.
  replace (hi - Nat.min (b - a) (length s - a))%nat with O by lia.
  simpl. f_equal. rewrite skipn_skipn. f_equal. lia.
Qed.

(** C2, as stated, fails: the name [margin] begins with [m], which the
    patcher takes for the midgame prefix of a [Score]; it looks for a
    definition of [argin], finds none, and leaves the file as it is. *)
Lemma margin_request_is_skipped :
  process_spsa_match margin_world margin_request round
  = (margin_world, Ret (Skipped DefinitionNotFound))
  /\ curr_texts (fst (process_spsa_match margin_world margin_request round))
     <> [Some (py "int margin[2] = {100, 250};")].
Proof. split; [vm_compute; reflexivity|vm_compute; discriminate]. Qed.

(** C2, as amended. A request for a name that begins with neither [m] nor
    [e], here [razor], with index path [[1]], old value 200 and new value
    250, against a repository in which the name resolves to the definition
    [int razor[2] = {100, 200};], is carried out: the file of the
    definition is written with the definition rewritten to
    [int razor[2] = {100, 250};] and the text before and after it as it
    was, whichever rounding function is given. *)
Theorem razor_request_rewrites (w : world) (f_round : rounding) (md : rmatch) (k : nat) :
  search_def w (py "razor") false = Ret (Some (md, k)) ->
  group0 md = py "int razor[2] = {100, 200};" ->
  group md "type" = Some (py "int") ->
  process_spsa_match w razor_request f_round
  = (write_file w k (firstn (m_start md) (m_string md) ++ py "int razor[2] = {100, 250};"
                     ++ skipn (m_end md) (m_string md)), Ret Written).
Proof.
  intros Hsd Hg0 Hty.
  assert (Hfi : find_index (group0 md) [1] = 19) by (rewrite Hg0; vm_compute; reflexivity).
  unfold process_spsa_match.
  erewrite (spsa_patch_literal w razor_request f_round (py "razor") (py "v") [1] md k); cycle 1.
  - reflexivity.
  - vm_compute. reflexivity.
  - exact Hsd.
  - vm_compute. reflexivity.
  - destruct f_round; vm_compute; reflexivity.
  - exact Hty.
  - reflexivity.
  - reflexivity.
  - rewrite Hfi, Hg0. vm_compute. reflexivity.
  - vm_compute. reflexivity.
  - vm_compute. reflexivity.
  - vm_compute. reflexivity.
  - vm_compute. reflexivity.
  - apply search_def_found in Hsd as (f & _ & _ & Hs).
    apply search_ok in Hs as (_ & Hb & _).
    assert (Hlen : (m_end md - m_start md = 26)%nat).
    { apply (f_equal (@length _)) in Hg0. unfold group0 in Hg0.
      rewrite length_substr in Hg0 by lia. exact Hg0. }
    cbv [p_file]. f_equal. f_equal.
    unfold patched_text. cbv [p_string p_lo p_hi p_old p_new].
    rewrite Hfi.
    replace (start _ _) with 1 by reflexivity.
    replace (end_ _ _) with 5 by reflexivity.
    replace (Z.of_nat (m_start md) + 19 + 1)
      with (Z.of_nat (m_start md) + Z.of_nat 20) by lia.
    replace (Z.of_nat (m_start md) + 19 + 5)
      with (Z.of_nat (m_start md) + Z.of_nat 24) by lia.
    rewrite (splice_within _ (m_start md) (m_end md)) by lia.
    fold (group0 md). rewrite Hg0. reflexivity.
Qed.

Lemma razor_request_rewrites_witness :
  process_spsa_match razor_world razor_request round
  = (write_file razor_world 0
       (lines_text ["#include <types.h>"; "int razor[2] = {100, 250};";
                    "int futility = 3;"; ""]), Ret Written).
Proof.
  apply (razor_request_rewrites razor_world round razor_def_match 0).
  - vm_compute. reflexivity.
  - vm_compute. reflexivity.
  - vm_compute. reflexivity.
Defined.



(** ** One pass of the aligner is not enough *)

Lemma str_eqb_eq a b : str_eqb a b = true <-> a = b.
Proof.
  revert b. induction a as [|x a IH]; intros [|y b]; simpl; split; try congruence.
  - rewrite andb_true_iff, Ascii.eqb_eq, IH. intros [-> ->]. reflexivity.
  - intros H. inversion H; subst. rewrite Ascii.eqb_refl. apply IH. reflexivity.
Qed.

(** C4, as stated, fails: [table3] is a definition as [search_def] finds
    it, and a second pass of [align] over it moves its first row again. *)
Lemma align_not_idempotent :
  option_map group0 (search (def_pattern (py "A")) table3) = Some table3
  /\ align table3
     = lines_text ["int A[3][2] = {"; "  { 1, 2},"; "  { 10, 2},"; "  {100, 2}"; "};"]
  /\ align (align table3)
     = lines_text ["int A[3][2] = {"; "  {  1, 2},"; "  { 10, 2},"; "  {100, 2}"; "};"]
  /\ align (align table3) <> align table3.
Proof.
  split; [vm_compute; reflexivity|]. split; [vm_compute; reflexivity|].
  split; [vm_compute; reflexivity|]. vm_compute. discriminate.
Qed.

Lemma align_until_fixed_inv fuel : forall previous current y,
  (current = previous -> align current = current) ->
  align_until_fixed fuel previous current = Some y ->
  align y = y.
Proof.
  induction fuel as [|fuel IH]; intros previous current y Hinv H; simpl in H;
    destruct (str_eqb current previous) eqn:E.
  - inversion H; subst. apply Hinv. apply str_eqb_eq. exact E.
  - discriminate.
  - inversion H; subst. apply Hinv. apply str_eqb_eq. exact E.
  - apply (IH current (align current) y); [|exact H].
    intros Heq. rewrite Heq. exact Heq.
Qed.


(** ** The bounds on loops are never reached *)

Lemma star_loop_local s body greedy n :
  local_to s body ->
  forall st k1 k2, wf s st ->
    (forall st', wf s st' -> (pos st <= pos st')%nat -> k1 st' = k2 st') ->
    star_loop body greedy k1 n st = star_loop body greedy k2 n st.
Proof.
  intros Hbody. induction n as [|n IH]; intros st k1 k2 Hwf Hk; simpl.
  - rewrite (Hk st Hwf (Nat.le_refl _)). reflexivity.
  - rewrite (Hk st Hwf (Nat.le_refl _)).
    replace (body st (fun st1 => if (pos st <? pos st1)%nat
                                 then star_loop body greedy k1 n st1 else None))
      with (body st (fun st1 => if (pos st <? pos st1)%nat
                                then star_loop body greedy k2 n st1 else None));
      [reflexivity|].
    apply Hbody; [exact Hwf|]. intros st' Hwf' Hle.
    destruct (pos st <? pos st')%nat; [|reflexivity].
    symmetry. apply IH; [exact Hwf'|]. intros st'' Hwf'' Hle'. apply Hk; [exact Hwf''|lia].
Qed.

Lemma exec_local s r : local_to s (exec r).
Proof.
  induction r as [|p|r1 IH1 r2 IH2|r1 IH1 r2 IH2|g r1 IH1|name r1 IH1|r1 IH1|];
    intros st k1 k2 Hwf Hk; simpl.
  - apply Hk; auto.
  - destruct (rest st) as [|c tl] eqn:E; [reflexivity|].
    destruct (p c); [|reflexivity].
    apply Hk; [apply wf_advance; auto|simpl; lia].
  - apply IH1; [exact Hwf|]. intros st' Hwf' Hle.
    apply IH2; [exact Hwf'|]. intros st'' Hwf'' Hle'. apply Hk; [exact Hwf''|lia].
  - rewrite (IH1 st k1 k2 Hwf Hk), (IH2 st k1 k2 Hwf Hk). reflexivity.
  - apply (star_loop_local s); auto.
  - apply IH1; [exact Hwf|]. intros st' Hwf' Hle.
    apply Hk; [apply wf_close_group; auto|simpl; exact Hle].
  - rewrite (Hk st Hwf (Nat.le_refl _)). reflexivity.
  - rewrite (Hk st Hwf (Nat.le_refl _)). reflexivity.
Qed.

Lemma wf_rest_length s st : wf s st -> length (rest st) = (length s - pos st)%nat.
Proof. intros (_ & Hr & _). rewrite Hr. apply length_skipn. Qed.

(** More turns than characters left change nothing in a repetition. *)
Lemma star_loop_fuel s r greedy k n : forall st,
  wf s st -> (length (rest st) <= n)%nat ->
  star_loop (exec r) greedy k (S n) st = star_loop (exec r) greedy k n st.
Proof.
  induction n as [|n IH]; intros st Hwf Hn.
  - assert (Hnone : exec r st (fun st1 => if (pos st <? pos st1)%nat
                                           then star_loop (exec r) greedy k 0 st1 else None)
                    = None).
    { destruct (exec r st _) as [res|] eqn:E; [|reflexivity].
      destruct (exec_passes_on r _ _ _ _ Hwf E) as (st' & Hwf' & Hle & E').
      pose proof (wf_rest_length _ _ Hwf) as L. destruct Hwf' as (Hp' & _).
      replace (pos st <? pos st')%nat with false in E'; [discriminate|].
      symmetry. apply Nat.ltb_ge. destruct Hwf as (Hp & _). lia. }
    change (star_loop (exec r) greedy k 1 st)
      with (if greedy
            then match exec r st (fun st1 => if (pos st <? pos st1)%nat
                                             then star_loop (exec r) greedy k 0 st1 else None) with
                 | Some res => Some res
                 | None => k st
                 end
            else match k st with
                 | Some res => Some res
                 | None => exec r st (fun st1 => if (pos st <? pos st1)%nat
                                                 then star_loop (exec r) greedy k 0 st1 else None)
                 end).
    rewrite Hnone. simpl. destruct greedy; destruct (k st); reflexivity.
  - assert (Hsame :
      exec r st (fun st1 => if (pos st <? pos st1)%nat
                            then star_loop (exec r) greedy k (S n) st1 else None)
      = exec r st (fun st1 => if (pos st <? pos st1)%nat
                              then star_loop (exec r) greedy k n st1 else None)).
    { apply (exec_local s r); [exact Hwf|]. intros st' Hwf' Hle.
      destruct (pos st <? pos st')%nat eqn:E; [|reflexivity].
      apply Nat.ltb_lt in E. apply IH; [exact Hwf'|].
      rewrite (wf_rest_length _ _ Hwf'). rewrite (wf_rest_length _ _ Hwf) in Hn. lia. }
    change (star_loop (exec r) greedy k (S (S n)) st)
      with (if greedy
            then match exec r st (fun st1 => if (pos st <? pos st1)%nat
                                             then star_loop (exec r) greedy k (S n) st1 else None) with
                 | Some res => Some res
                 | None => k st
                 end
            else match k st with
                 | Some res => Some res
                 | None => exec r st (fun st1 => if (pos st <? pos st1)%nat
                                                 then star_loop (exec r) greedy k (S n) st1 else None)
                 end).
    rewrite Hsame. reflexivity.
Qed.

(** The matcher gives a repetition as many turns as characters are left,
    and more would make no difference. *)
Lemma star_fuel_enough s r greedy k st extra :
  wf s st ->
  star_loop (exec r) greedy k (length (rest st) + extra) st = exec (Star greedy r) st k.
Proof.
  intros Hwf. induction extra as [|extra IH].
  - rewrite Nat.add_0_r. reflexivity.
  - rewrite Nat.add_succ_r, star_loop_fuel with (s := s); [exact IH|exact Hwf|lia].
Qed.

(** The loops of the locator: from an offset that [find] has given, and at
    a nesting level that is not negative, [length s + 2] turns are as good
    as any greater number. *)
Lemma py_find_next s c p :
  0 <= p -> py_find s [c] (p + 1) = -1 \/ p < py_find s [c] (p + 1) < len s.
Proof.
  intros Hp. unfold py_find.
  replace (p + 1 <? 0) with false by (symmetry; apply Z.ltb_ge; lia).
  destruct (len s <? p + 1); [left; reflexivity|].
  destruct (find_at [c] (skipn (Z.to_nat (p + 1)) s)) as [k|] eqn:E; [|left; reflexivity].
  right. apply find_at_bound in E as [E _]. rewrite length_skipn in E. simpl in E.
  unfold len. lia.
Qed.

Lemma py_count_empty s c lo : py_count s c lo 0 = 0.
Proof.
  unfold py_count, py_slice, clamp. simpl.
  pose proof (len_nonneg s).
  replace (Z.min 0 (len s)) with 0 by lia.
  destruct (lo <? 0) eqn:E.
  - replace (Z.to_nat (0 - Z.max (lo + len s) 0)) with O by lia. reflexivity.
  - apply Z.ltb_ge in E. replace (Z.to_nat (0 - Z.min lo (len s))) with O by lia. reflexivity.
Qed.

Lemma skip_braces_none s d fuel : -1 <= d -> skip_braces fuel s d (-1) = -1.
Proof.
  intros Hd. destruct fuel as [|fuel]; [reflexivity|].
  change (skip_braces (S fuel) s d (-1))
    with (if d + 1 <? py_count s (ch "{") 0 0 - py_count s (ch "}") 0 0
          then skip_braces fuel s d (py_find s [ch "}"] 0) else -1).
  rewrite !py_count_empty.
  replace (d + 1 <? 0 - 0) with false by (symmetry; apply Z.ltb_ge; lia). reflexivity.
Qed.

Lemma skip_parens_none s pos fuel : skip_parens fuel s pos (-1) = -1.
Proof.
  destruct fuel as [|fuel]; [reflexivity|].
  change (skip_parens (S fuel) s pos (-1))
    with (if 0 <? py_count s (ch "(") pos 0 - py_count s (ch ")") pos 0
          then skip_parens fuel s pos (py_find s [ch ")"] 0) else -1).
  rewrite !py_count_empty. reflexivity.
Qed.

Lemma skip_braces_fuel s d : -1 <= d ->
  forall fuel p, -1 <= p -> (Z.to_nat (len s - p) + 1 <= fuel)%nat ->
    skip_braces (S fuel) s d p = skip_braces fuel s d p.
Proof.
  intros Hd. induction fuel as [|fuel IH]; intros p Hp Hf; [lia|].
  change (skip_braces (S (S fuel)) s d p)
    with (if d + 1 <? py_count s (ch "{") 0 (p + 1) - py_count s (ch "}") 0 (p + 1)
          then skip_braces (S fuel) s d (py_find s [ch "}"] (p + 1)) else p).
  change (skip_braces (S fuel) s d p)
    with (if d + 1 <? py_count s (ch "{") 0 (p + 1) - py_count s (ch "}") 0 (p + 1)
          then skip_braces fuel s d (py_find s [ch "}"] (p + 1)) else p).
  destruct (d + 1 <? _) eqn:E; [|reflexivity].
  destruct (Z.eq_dec p (-1)) as [->|Hne].
  { exfalso. simpl in E. rewrite !py_count_empty in E. apply Z.ltb_lt in E. lia. }
  destruct (py_find_next s (ch "}") p) as [H|H]; [lia| |].
  - rewrite H, !skip_braces_none by exact Hd. reflexivity.
  - apply IH; lia.
Qed.

Lemma skip_parens_fuel s pos :
  forall fuel p, -1 <= p -> (Z.to_nat (len s - p) + 1 <= fuel)%nat ->
    skip_parens (S fuel) s pos p = skip_parens fuel s pos p.
Proof.
  induction fuel as [|fuel IH]; intros p Hp Hf; [lia|].
  change (skip_parens (S (S fuel)) s pos p)
    with (if 0 <? py_count s (ch "(") pos (p + 1) - py_count s (ch ")") pos (p + 1)
          then skip_parens (S fuel) s pos (py_find s [ch ")"] (p + 1)) else p).
  change (skip_parens (S fuel) s pos p)
    with (if 0 <? py_count s (ch "(") pos (p + 1) - py_count s (ch ")") pos (p + 1)
          then skip_parens fuel s pos (py_find s [ch ")"] (p + 1)) else p).
  destruct (0 <? _) eqn:E; [|reflexivity].
  destruct (Z.eq_dec p (-1)) as [->|Hne].
  { exfalso. simpl in E. rewrite !py_count_empty in E. discriminate. }
  destruct (py_find_next s (ch ")") p) as [H|H]; [lia| |].
  - rewrite H, !skip_parens_none. reflexivity.
  - apply IH; lia.
Qed.

Lemma loop_fuel_enough s d pos p extra :
  -1 <= d -> -1 <= p ->
  skip_braces (loop_fuel s + extra) s d p = skip_braces (loop_fuel s) s d p
  /\ skip_parens (loop_fuel s + extra) s pos p = skip_parens (loop_fuel s) s pos p.
Proof.
  intros Hd Hp. unfold loop_fuel.
  induction extra as [|extra [IH1 IH2]]; [rewrite Nat.add_0_r; auto|].
  rewrite Nat.add_succ_r. split.
  - rewrite skip_braces_fuel; auto. unfold len. lia.
  - rewrite skip_parens_fuel; auto. unfold len. lia.
Qed.

(** The loop of the index resolver: every turn shortens the text, so
    turns beyond its length change nothing. *)
Lemma parse_indices_fuel w : forall fuel s l,
  (length s <= fuel)%nat ->
  parse_indices_loop (S fuel) w s l = parse_indices_loop fuel w s l.
Proof.
  induction fuel as [|fuel IH]; intros s l Hf.
  - destruct s; [reflexivity|simpl in Hf; lia].
  - destruct (list_eq_dec ascii_dec s []) as [->|Hs]; [reflexivity|].
    rewrite !parse_indices_loop_unfold by exact Hs.
    destruct ((py_find s [ch "["] 0 =? -1) || (py_find s [ch "]"] 0 =? -1)
              || (py_find s [ch "]"] 0 <=? py_find s [ch "["] 0 + 1)) eqn:E; [reflexivity|].
    apply orb_false_iff in E as [E E3]. apply orb_false_iff in E as [E1 E2].
    apply Z.eqb_neq in E1, E2. apply Z.leb_gt in E3.
    pose proof (py_find_char_bounds s (ch "[") 0) as B1.
    destruct (py_find_char_range s (ch "]") 0) as [B2|[B2 _]]; [|congruence].
    destruct (resolve_index w _) as [v|e]; [|reflexivity]. unfold bind.
    apply IH.
    assert (L : len (slice_from s (py_find s [ch "]"] 0 + 1)) = len s - (py_find s [ch "]"] 0 + 1)).
    { apply len_slice_from. lia. }
    unfold len in L. unfold len in B2. lia.
Qed.

Lemma parse_indices_fuel_enough w s extra :
  parse_indices_loop (length s + extra) w s [] = parse_indices w s.
Proof.
  unfold parse_indices. induction extra as [|extra IH].
  - rewrite Nat.add_0_r. reflexivity.
  - rewrite Nat.add_succ_r, parse_indices_fuel; [exact IH|lia].
Qed.


(** ** The fingerprint of a line is the line's delimiters *)

Lemma re_sub_kept r s : re_sub r [] s = kept_text (pieces r s).
Proof. reflexivity. Qed.

Lemma not_delimiter c : none_of "{}()," c = negb (is_delimiter c).
Proof. reflexivity. Qed.

(** A greedy repetition of a class with nothing to follow matches the
    longest run of the class, which may be empty. *)
Lemma search_at_star p s i :
  (i <= length s)%nat ->
  search_at (Star true (Chr p)) s i
  = Some (mkMatch s i (i + length (fst (span p (skipn i s)))) []).
Proof.
  intros Hi. rewrite search_at_state by exact Hi. rewrite search_from_at.
  destruct (span_spec p (skipn i s)) as (S1 & S2 & S3).
  rewrite (star_chr_longest p Some (fst (span p (skipn i s))) (snd (span p (skipn i s)))
             (state_at s i) (eat (fst (span p (skipn i s))) (state_at s i))); auto.
  rewrite eat_pos, eat_caps. reflexivity.
Qed.

Lemma search_at_beyond r s i : (length s < i)%nat -> search_at r s i = None.
Proof.
  intros H. unfold search_at.
  replace (length s <? i)%nat with true by (symmetry; apply Nat.ltb_lt; exact H).
  reflexivity.
Qed.

Lemma filter_app_free {A} (f : A -> bool) g l :
  forallb (fun c => negb (f c)) g = true -> filter f (g ++ l) = filter f l.
Proof.
  induction g as [|c g IH]; simpl; [reflexivity|].
  rewrite andb_true_iff. intros [Hc Hg]. destruct (f c); [discriminate|]. apply IH; exact Hg.
Qed.

Lemma forallb_same {A} (f g : A -> bool) l :
  (forall c, f c = g c) -> forallb f l = forallb g l.
Proof. intros H. induction l as [|c l IH]; simpl; [reflexivity|]. rewrite H, IH. reflexivity. Qed.

Lemma substr_same s i : substr s i i = [].
Proof. unfold substr. rewrite Nat.sub_diag. reflexivity. Qed.

Lemma substr_one s i c t : skipn i s = c :: t -> substr s i (S i) = [c].
Proof.
  intros H. unfold substr. replace (S i - i)%nat with 1%nat by lia. rewrite H. reflexivity.
Qed.

(** The text kept by the substitution of the fingerprint, from either of
    the two shapes the loop can be in: a search about to begin where the
    last match ended, or one place after a delimiter not yet copied. *)
Lemma kept_text_delimiters s : forall fuel start i n,
  (length s + 2 <= fuel + start)%nat ->
  (i <= length s)%nat ->
  start = i
  \/ (start = S i /\ match skipn i s with c :: _ => is_delimiter c = true | [] => True end) ->
  kept_text (sub_pieces fuel (Star true (Chr (none_of "{}(),"))) s start i n)
  = filter is_delimiter (skipn i s).
Proof.
  induction fuel as [|fuel IH]; intros start i n Hf Hi Hshape.
  - (* no fuel: the search would begin past the end *)
    assert (i = length s) by (destruct Hshape as [->|[-> _]]; lia). subst i.
    simpl. rewrite skipn_all. reflexivity.
  - rewrite sub_pieces_unfold.
    destruct (Nat.le_gt_cases start (length s)) as [Hs|Hs].
    2:{ rewrite search_at_beyond by exact Hs.
        assert (i = length s) by (destruct Hshape as [->|[-> _]]; lia). subst i.
        unfold kept_text. simpl. rewrite skipn_all. reflexivity. }
    rewrite search_at_star by exact Hs.
    destruct (span_spec (none_of "{}(),") (skipn start s)) as (S1 & S2 & S3).
    set (run := fst (span (none_of "{}(),") (skipn start s))) in *.
    set (after := snd (span (none_of "{}(),") (skipn start s))) in *.
    cbv [m_start m_end].
    assert (Hafter : skipn (start + length run) s = after).
    { rewrite Nat.add_comm, <- skipn_skipn, S1. apply skipn_length_app. }
    assert (Hlen : (start + length run <= length s)%nat).
    { apply (f_equal (@length _)) in S1. rewrite length_skipn, length_app in S1. lia. }
    assert (Hdelim : match after with c :: _ => is_delimiter c = true | [] => True end).
    { destruct after as [|c t]; [exact I|]. rewrite not_delimiter in S3.
      destruct (is_delimiter c); [reflexivity|discriminate]. }
    destruct Hshape as [->|[-> Hc]].
    + (* the search begins where the last match ended *)
      destruct run as [|c0 run0] eqn:Erun.
      * (* an empty match *)
        rewrite Nat.add_0_r, !Nat.eqb_refl. rewrite Nat.add_0_r in Hafter.
        simpl andb. destruct (0 <? n)%nat.
        -- unfold kept_text. simpl. rewrite substr_same. simpl.
           apply (IH (S i) i n); [lia|exact Hi|].
           right. split; [reflexivity|]. rewrite Hafter. exact Hdelim.
        -- unfold kept_text. simpl. rewrite substr_same. simpl.
           apply (IH (S i) i (S n)); [lia|exact Hi|].
           right. split; [reflexivity|]. rewrite Hafter. exact Hdelim.
      * rewrite <- Erun in *.
        assert (Hpos : (0 < length run)%nat) by (rewrite Erun; simpl; lia).
        replace ((i =? i)%nat && (i =? i + length run)%nat) with false
          by (symmetry; apply andb_false_iff; right; apply Nat.eqb_neq; lia).
        replace (i + length run =? i)%nat with false by (symmetry; apply Nat.eqb_neq; lia).
        unfold kept_text. simpl. rewrite substr_same. simpl.
        fold (kept_text (sub_pieces fuel (Star true (Chr (none_of "{}(),"))) s
                           (i + length run) (i + length run) (S n))).
        rewrite (IH (i + length run)%nat (i + length run)%nat (S n)); [|lia|exact Hlen|left; reflexivity].
        rewrite Hafter, S1. symmetry. apply filter_app_free.
        rewrite <- S2. apply forallb_same. intros c. rewrite not_delimiter. reflexivity.
    + (* one place after a delimiter that is still to be copied *)
      destruct (skipn i s) as [|j t] eqn:Ei.
      { exfalso. apply (f_equal (@length _)) in Ei. rewrite length_skipn in Ei. simpl in Ei. lia. }
      assert (Ht : skipn (S i) s = t).
      { apply skipn_cons_nth in Ei. tauto. }
      replace ((i =? S i)%nat) with false by (symmetry; apply Nat.eqb_neq; lia).
      simpl andb. cbv iota.
      unfold kept_text. simpl. rewrite (substr_one _ _ _ _ Ei). simpl.
      rewrite Hc. f_equal.
      destruct run as [|c0 run0] eqn:Erun.
      * rewrite Nat.add_0_r, Nat.eqb_refl. rewrite Nat.add_0_r in Hafter.
        fold (kept_text (sub_pieces fuel (Star true (Chr (none_of "{}(),"))) s
                           (S (S i)) (S i) (S n))).
        rewrite (IH (S (S i)) (S i) (S n)); [rewrite Ht; reflexivity|lia|exact Hs|].
        right. split; [reflexivity|]. rewrite Hafter. exact Hdelim.
      * rewrite <- Erun in *.
        assert (Hpos : (0 < length run)%nat) by (rewrite Erun; simpl; lia).
        replace (i + length run =? i)%nat with false by (symmetry; apply Nat.eqb_neq; lia).
        fold (kept_text (sub_pieces fuel (Star true (Chr (none_of "{}(),"))) s
                           (S (i + length run)) (S (i + length run)) (S n))).
        rewrite (IH (S (i + length run)) (S (i + length run)) (S n));
          [|lia|exact Hlen|left; reflexivity].
        change (S (i + length run)) with (S i + length run)%nat.
        rewrite Hafter, <- Ht, S1. symmetry. apply filter_app_free.
        rewrite <- S2. apply forallb_same. intros c. rewrite not_delimiter. reflexivity.
Qed.

(** [fingerprint] keeps the delimiters of a line and nothing else. *)
Lemma fingerprint_filter line : fingerprint line = filter is_delimiter line.
Proof.
  unfold fingerprint. rewrite re_sub_kept. unfold pieces.
  rewrite (kept_text_delimiters line (S (S (length line))) 0 0 0); [reflexivity|lia|lia|auto].
Qed.

(** ** One turn of the aligner on two lines *)

Lemma py_find_after a g j r :
  ~ In j g -> py_find (a ++ g ++ j :: r) [j] (len a) = len a + len g.
Proof.
  intros H. unfold py_find. pose proof (len_nonneg a) as Ha.
  pose proof (len_nonneg (g ++ j :: r)) as Hb.
  replace (len a <? 0) with false by (symmetry; apply Z.ltb_ge; lia).
  rewrite len_app.
  replace (len a + len (g ++ j :: r) <? len a) with false by (symmetry; apply Z.ltb_ge; lia).
  unfold len at 1. rewrite Nat2Z.id, skipn_length_app, find_at_char_first by exact H.
  reflexivity.
Qed.

Lemma slice_to_app a b : slice_to (a ++ b) (len a) = a.
Proof.
  unfold len. rewrite slice_to_firstn by (rewrite length_app; lia).
  apply firstn_length_app.
Qed.

Lemma pad_after_app a b n :
  pad_after (a ++ b) (len a - 1) n = a ++ repeat SP (Z.to_nat n) ++ b.
Proof.
  unfold pad_after. replace (len a - 1 + 1) with (len a) by lia.
  rewrite slice_to_app, slice_from_app. reflexivity.
Qed.

Lemma len_repeat c n : len (repeat c n) = Z.of_nat n.
Proof. unfold len. rewrite repeat_length. reflexivity. Qed.

Lemma free_not_in j g :
  is_delimiter j = true -> forallb (none_of "{}(),") g = true -> ~ In j g.
Proof.
  intros Hj Hg Hin. rewrite forallb_forall in Hg. apply Hg in Hin.
  rewrite not_delimiter, Hj in Hin. discriminate.
Qed.

(** One turn of [for j in ...]: both [j] come to stand in the column of the
    one further right. *)
Lemma align_char_step done0 done1 g0 g1 j r0 r1 :
  length done0 = length done1 -> ~ In j g0 -> ~ In j g1 ->
  align_char (done0 ++ g0 ++ j :: r0, done1 ++ g1 ++ j :: r1, len done0 - 1) j
  = ((done0 ++ repeat SP (length g1 - length g0) ++ g0 ++ [j]) ++ r0,
     (done1 ++ repeat SP (length g0 - length g1) ++ g1 ++ [j]) ++ r1,
     len (done0 ++ repeat SP (length g1 - length g0) ++ g0 ++ [j]) - 1).
Proof.
  intros Hlen H0 H1. unfold align_char.
  assert (Hl : len done1 = len done0) by (unfold len; rewrite Hlen; reflexivity).
  replace (len done0 - 1 + 1) with (len done0) by lia.
  pose proof (py_find_after done0 g0 j r0 H0) as P0.
  pose proof (py_find_after done1 g1 j r1 H1) as P1.
  assert (Q0 : forall n, pad_after (done0 ++ g0 ++ j :: r0) (len done0 - 1) n
                         = done0 ++ repeat SP (Z.to_nat n) ++ g0 ++ j :: r0)
    by (intros n; apply pad_after_app).
  assert (Q1 : forall n, pad_after (done1 ++ g1 ++ j :: r1) (len done0 - 1) n
                         = done1 ++ repeat SP (Z.to_nat n) ++ g1 ++ j :: r1)
    by (intros n; rewrite <- Hl; apply pad_after_app).
  rewrite Hl in P1. rewrite P0, P1, Q0, Q1.
  rewrite !len_app, len_repeat. unfold len. simpl length.
  rewrite <- !app_assoc. simpl app.
  destruct (Nat.lt_trichotomy (length g0) (length g1)) as [H|[H|H]].
  - replace (Z.of_nat (length done0) + Z.of_nat (length g0)
             <? Z.of_nat (length done0) + Z.of_nat (length g1)) with true
      by (symmetry; apply Z.ltb_lt; lia).
    replace (Z.of_nat (length done0) + Z.of_nat (length g1)
             <? Z.of_nat (length done0) + Z.of_nat (length g0)) with false
      by (symmetry; apply Z.ltb_ge; lia).
    replace (length g0 - length g1)%nat with 0%nat by lia.
    replace (Z.to_nat (Z.of_nat (length done0) + Z.of_nat (length g1)
                       - (Z.of_nat (length done0) + Z.of_nat (length g0))))
      with (length g1 - length g0)%nat by lia.
    simpl. f_equal. lia.
  - replace (Z.of_nat (length done0) + Z.of_nat (length g0)
             <? Z.of_nat (length done0) + Z.of_nat (length g1)) with false
      by (symmetry; apply Z.ltb_ge; lia).
    replace (Z.of_nat (length done0) + Z.of_nat (length g1)
             <? Z.of_nat (length done0) + Z.of_nat (length g0)) with false
      by (symmetry; apply Z.ltb_ge; lia).
    replace (length g0 - length g1)%nat with 0%nat by lia.
    replace (length g1 - length g0)%nat with 0%nat by lia.
    simpl. f_equal. lia.
  - replace (Z.of_nat (length done0) + Z.of_nat (length g0)
             <? Z.of_nat (length done0) + Z.of_nat (length g1)) with false
      by (symmetry; apply Z.ltb_ge; lia).
    replace (Z.of_nat (length done0) + Z.of_nat (length g1)
             <? Z.of_nat (length done0) + Z.of_nat (length g0)) with true
      by (symmetry; apply Z.ltb_lt; lia).
    replace (length g1 - length g0)%nat with 0%nat by lia.
    replace (Z.to_nat (Z.of_nat (length done0) + Z.of_nat (length g0)
                       - (Z.of_nat (length done0) + Z.of_nat (length g1))))
      with (length g0 - length g1)%nat by lia.
    simpl. f_equal. lia.
Qed.

(** A line whose delimiters begin with [j] is a run free of delimiters,
    then [j], then the rest. *)
Lemma first_delimiter rest j q :
  filter is_delimiter rest = j :: q ->
  exists g t,
    span (none_of "{}(),") rest = (g, j :: t)
    /\ rest = g ++ j :: t
    /\ forallb (none_of "{}(),") g = true
    /\ is_delimiter j = true
    /\ filter is_delimiter t = q.
Proof.
  intros H. destruct (span_spec (none_of "{}(),") rest) as (S1 & S2 & S3).
  destruct (span (none_of "{}(),") rest) as [g t0]. simpl in S1, S2, S3.
  rewrite S1 in H. rewrite filter_app_free in H.
  2:{ rewrite <- S2. apply forallb_same. intros c. rewrite not_delimiter. reflexivity. }
  destruct t0 as [|c t]; [discriminate|]. rewrite not_delimiter in S3.
  simpl in H. destruct (is_delimiter c) eqn:Ec; [|discriminate].
  injection H as -> Hq. exists g, t. auto.
Qed.

Lemma pad_rests_cons j js r0 r1 q0 q1 :
  filter is_delimiter r0 = j :: q0 ->
  filter is_delimiter r1 = j :: q1 ->
  exists g0 t0 g1 t1,
    r0 = g0 ++ j :: t0 /\ r1 = g1 ++ j :: t1
    /\ forallb (none_of "{}(),") g0 = true /\ forallb (none_of "{}(),") g1 = true
    /\ is_delimiter j = true
    /\ filter is_delimiter t0 = q0 /\ filter is_delimiter t1 = q1
    /\ pad_rests (j :: js) r0 r1
       = (repeat SP (length g1 - length g0) ++ g0 ++ j :: fst (pad_rests js t0 t1),
          repeat SP (length g0 - length g1) ++ g1 ++ j :: snd (pad_rests js t0 t1)).
Proof.
  intros H0 H1.
  destruct (first_delimiter r0 j q0 H0) as (g0 & t0 & E0 & D0 & F0 & Hj & Q0).
  destruct (first_delimiter r1 j q1 H1) as (g1 & t1 & E1 & D1 & F1 & _ & Q1).
  exists g0, t0, g1, t1. repeat (split; [assumption|]).
  simpl pad_rests. rewrite E0, E1. simpl tl.
  destruct (pad_rests js t0 t1). reflexivity.
Qed.

(** The turns of [for j in ...] over delimiters that both lines have, in
    terms of [pad_rests]. *)
Lemma fold_align_char js : forall done0 done1 rest0 rest1 q0 q1,
  length done0 = length done1 ->
  filter is_delimiter rest0 = js ++ q0 ->
  filter is_delimiter rest1 = js ++ q1 ->
  exists p,
    fold_left align_char js (done0 ++ rest0, done1 ++ rest1, len done0 - 1)
    = (done0 ++ fst (pad_rests js rest0 rest1),
       done1 ++ snd (pad_rests js rest0 rest1), p).
Proof.
  induction js as [|j js IH]; intros done0 done1 rest0 rest1 q0 q1 Hlen H0 H1.
  - simpl. eexists. reflexivity.
  - destruct (pad_rests_cons j js rest0 rest1 _ _ H0 H1)
      as (g0 & t0 & g1 & t1 & -> & -> & F0 & F1 & Hj & Q0 & Q1 & ->).
    cbn [fold_left fst snd].
    rewrite align_char_step; [|exact Hlen|apply free_not_in; assumption..].
    destruct (IH (done0 ++ repeat SP (length g1 - length g0) ++ g0 ++ [j])
                 (done1 ++ repeat SP (length g0 - length g1) ++ g1 ++ [j])
                 t0 t1 q0 q1) as (p & Hp); [|exact Q0|exact Q1|].
    { rewrite !length_app, !repeat_length. simpl. lia. }
    exists p. rewrite Hp. rewrite <- !app_assoc. reflexivity.
Qed.

(** *** Lines with blanks put in *)

Lemma stretch_refl l : stretch l l.
Proof. induction l; constructor; assumption. Qed.

Lemma stretch_blanks n l l' : stretch l l' -> stretch l (repeat SP n ++ l').
Proof. intros H. induction n; simpl; [exact H|]. constructor. exact IHn. Qed.

Lemma stretch_app_same a l l' : stretch l l' -> stretch (a ++ l) (a ++ l').
Proof. intros H. induction a; simpl; [exact H|]. constructor. exact IHa. Qed.

Lemma stretch_trans a b c : stretch a b -> stretch b c -> stretch a c.
Proof.
  intros H1 H2. revert a H1. induction H2; intros a H1.
  - exact H1.
  - inversion H1; subst.
    + constructor. apply IHstretch. assumption.
    + apply stretch_pad. apply IHstretch. assumption.
  - apply stretch_pad. apply IHstretch. exact H1.
Qed.

Lemma stretch_length l l' : stretch l l' -> (length l <= length l')%nat.
Proof. induction 1; simpl; lia. Qed.

(** A line that has not grown has not changed. *)
Lemma stretch_same_length l l' :
  stretch l l' -> (length l' <= length l)%nat -> l' = l.
Proof.
  induction 1; simpl; intros Hl.
  - reflexivity.
  - f_equal. apply IHstretch. lia.
  - apply stretch_length in H. lia.
Qed.

Lemma stretch_filter l l' :
  stretch l l' -> filter is_delimiter l' = filter is_delimiter l.
Proof.
  induction 1; simpl; [reflexivity| |exact IHstretch].
  destruct (is_delimiter c); [f_equal|]; exact IHstretch.
Qed.

(** *** Runs between delimiters *)

Lemma gaps_le_free N g : forall cur l,
  forallb (none_of "{}(),") g = true ->
  gaps_le N cur (g ++ l) <-> gaps_le N (cur + length g) l.
Proof.
  induction g as [|c g IH]; intros cur l Hg; simpl.
  - rewrite Nat.add_0_r. tauto.
  - simpl in Hg. apply andb_true_iff in Hg as [Hc Hg]. rewrite not_delimiter in Hc.
    destruct (is_delimiter c); [discriminate|].
    rewrite (IH (S cur) l Hg). replace (S cur + length g)%nat with (cur + S (length g))%nat by lia.
    tauto.
Qed.

Lemma gaps_le_delimiter N cur j t :
  is_delimiter j = true ->
  gaps_le N cur (j :: t) <-> (cur <= N)%nat /\ gaps_le N 0 t.
Proof. intros Hj. simpl. rewrite Hj. tauto. Qed.

Lemma blanks_free n : forallb (none_of "{}(),") (repeat SP n) = true.
Proof. induction n; simpl; [reflexivity|exact IHn]. Qed.

(** What [pad_rests] does to two lines: blanks are put in, and no run
    between delimiters becomes longer than the longest there was. *)
Lemma pad_rests_spec N js : forall r0 r1 q0 q1,
  filter is_delimiter r0 = js ++ q0 ->
  filter is_delimiter r1 = js ++ q1 ->
  stretch r0 (fst (pad_rests js r0 r1))
  /\ stretch r1 (snd (pad_rests js r0 r1))
  /\ (gaps_le N 0 r0 -> gaps_le N 0 r1 ->
      gaps_le N 0 (fst (pad_rests js r0 r1)) /\ gaps_le N 0 (snd (pad_rests js r0 r1))).
Proof.
  induction js as [|j js IH]; intros r0 r1 q0 q1 H0 H1.
  - simpl. split; [apply stretch_refl|]. split; [apply stretch_refl|]. auto.
  - destruct (pad_rests_cons j js r0 r1 _ _ H0 H1)
      as (g0 & t0 & g1 & t1 & -> & -> & F0 & F1 & Hj & Q0 & Q1 & ->).
    cbn [fst snd].
    destruct (IH t0 t1 q0 q1 Q0 Q1) as (S0 & S1 & G).
    split; [|split].
    + apply stretch_blanks, stretch_app_same, stretch_keep, S0.
    + apply stretch_blanks, stretch_app_same, stretch_keep, S1.
    + intros G0 G1.
      apply gaps_le_free in G0; [|exact F0]. apply gaps_le_delimiter in G0 as [L0 G0]; [|exact Hj].
      apply gaps_le_free in G1; [|exact F1]. apply gaps_le_delimiter in G1 as [L1 G1]; [|exact Hj].
      destruct (G G0 G1) as [G0' G1'].
      split.
      * apply gaps_le_free; [apply blanks_free|]. apply gaps_le_free; [exact F0|].
        apply gaps_le_delimiter; [exact Hj|]. rewrite repeat_length. split; [lia|exact G0'].
      * apply gaps_le_free; [apply blanks_free|]. apply gaps_le_free; [exact F1|].
        apply gaps_le_delimiter; [exact Hj|]. rewrite repeat_length. split; [lia|exact G1'].
Qed.

(** ** One pass of the aligner over the lines *)

Lemma commonprefix_split a : forall b,
  exists q0 q1, a = commonprefix a b ++ q0 /\ b = commonprefix a b ++ q1.
Proof.
  induction a as [|x a IH]; intros [|y b]; simpl; eauto.
  destruct (Ascii.eqb x y) eqn:E; [|simpl; eauto].
  apply Ascii.eqb_eq in E. subst y.
  destruct (IH b) as (q0 & q1 & H0 & H1). exists q0, q1.
  simpl. split; f_equal; assumption.
Qed.

Lemma slice_to_commonprefix a b :
  slice_to a (len (commonprefix a b)) = commonprefix a b.
Proof.
  destruct (commonprefix_split a b) as (q0 & _ & H0 & _).
  remember (commonprefix a b) as cp. rewrite H0. apply slice_to_app.
Qed.

(** The turn of the loop for two adjacent lines, when the fingerprints are
    those of the lines as they stand. *)
Lemma align_pair_spec N l0 l1 :
  stretch l0 (fst (align_pair l0 l1 (filter is_delimiter l0) (filter is_delimiter l1)))
  /\ stretch l1 (snd (align_pair l0 l1 (filter is_delimiter l0) (filter is_delimiter l1)))
  /\ (gaps_le N 0 l0 -> gaps_le N 0 l1 ->
      gaps_le N 0 (fst (align_pair l0 l1 (filter is_delimiter l0) (filter is_delimiter l1)))
      /\ gaps_le N 0 (snd (align_pair l0 l1 (filter is_delimiter l0) (filter is_delimiter l1)))).
Proof.
  unfold align_pair.
  destruct (alignable l0 l1 (filter is_delimiter l0) (filter is_delimiter l1)).
  2:{ simpl. split; [apply stretch_refl|]. split; [apply stretch_refl|]. auto. }
  rewrite slice_to_commonprefix.
  destruct (commonprefix_split (filter is_delimiter l0) (filter is_delimiter l1))
    as (q0 & q1 & H0 & H1).
  destruct (fold_align_char _ [] [] l0 l1 q0 q1 eq_refl H0 H1) as (p & Hp).
  change (len [] - 1) with (-1) in Hp. cbn [app] in Hp. unfold pystr in *. rewrite Hp. cbn [fst snd].
  apply (pad_rests_spec N _ l0 l1 q0 q1 H0 H1).
Qed.

Lemma align_lines_cons fp0 fp1 fps l0 l1 ls :
  align_lines (fp0 :: fp1 :: fps) (l0 :: l1 :: ls)
  = fst (align_pair l0 l1 fp0 fp1)
    :: align_lines (fp1 :: fps) (snd (align_pair l0 l1 fp0 fp1) :: ls).
Proof. simpl. destruct (align_pair l0 l1 fp0 fp1). reflexivity. Qed.

(** One pass over the lines puts blanks into them, and no run between
    delimiters becomes longer than the longest there was. *)
Lemma align_lines_spec N : forall ls l0,
  Forall (gaps_le N 0) (l0 :: ls) ->
  Forall2 stretch (l0 :: ls) (align_lines (map (filter is_delimiter) (l0 :: ls)) (l0 :: ls))
  /\ Forall (gaps_le N 0) (align_lines (map (filter is_delimiter) (l0 :: ls)) (l0 :: ls)).
Proof.
  induction ls as [|l1 ls IH]; intros l0 HG.
  - simpl. split; [|exact HG]. constructor; [apply stretch_refl|constructor].
  - cbn [map]. rewrite align_lines_cons.
    destruct (align_pair_spec N l0 l1) as (S0 & S1 & G).
    inversion HG as [|? ? G0 HG1]; subst. inversion HG1 as [|? ? G1 HG2]; subst.
    destruct (G G0 G1) as [G0' G1'].
    set (l0' := fst (align_pair l0 l1 (filter is_delimiter l0) (filter is_delimiter l1))) in *.
    set (l1' := snd (align_pair l0 l1 (filter is_delimiter l0) (filter is_delimiter l1))) in *.
    rewrite <- (stretch_filter l1 l1' S1).
    change (filter is_delimiter l1' :: map (filter is_delimiter) ls)
      with (map (filter is_delimiter) (l1' :: ls)).
    clearbody l0' l1'.
    destruct (IH l1') as [F2 FG]; [constructor; assumption|].
    remember (align_lines (map (filter is_delimiter) (l1' :: ls)) (l1' :: ls)) as R.
    clear HeqR.
    inversion F2 as [|? r1 ? rs Sr1 F2']; subst.
    split.
    + constructor; [exact S0|]. constructor; [|exact F2'].
      apply (stretch_trans _ l1'); assumption.
    + constructor; [exact G0'|exact FG].
Qed.

Lemma align_lines_stretch N lines :
  Forall (gaps_le N 0) lines ->
  Forall2 stretch lines (align_lines (map fingerprint lines) lines)
  /\ Forall (gaps_le N 0) (align_lines (map fingerprint lines) lines).
Proof.
  intros HG.
  replace (map fingerprint lines) with (map (filter is_delimiter) lines)
    by (apply map_ext; intros l; symmetry; apply fingerprint_filter).
  destruct lines as [|l0 ls]; [simpl; split; constructor|].
  apply align_lines_spec. exact HG.
Qed.

(** ** Lines and texts *)

Lemma splitlines_aux_plain c s acc :
  Ascii.eqb c LF = false -> Ascii.eqb c CR = false ->
  splitlines_aux (c :: s) acc = splitlines_aux s (c :: acc).
Proof. intros H1 H2. simpl. rewrite H1, H2. reflexivity. Qed.

Lemma splitlines_aux_LF s acc :
  splitlines_aux (LF :: s) acc = rev acc :: splitlines_aux s [].
Proof. reflexivity. Qed.

Lemma splitlines_aux_line l : forall s acc,
  no_break l -> splitlines_aux (l ++ s) acc = splitlines_aux s (rev l ++ acc).
Proof.
  induction l as [|c l IH]; intros s acc H; [reflexivity|].
  inversion H as [|? ? [H1 H2] Hl]; subst.
  change ((c :: l) ++ s) with (c :: (l ++ s)).
  rewrite splitlines_aux_plain by assumption. rewrite IH by exact Hl.
  simpl rev. rewrite <- app_assoc. reflexivity.
Qed.

Lemma join_cons sep x y ls : join sep (x :: y :: ls) = x ++ sep ++ join sep (y :: ls).
Proof. reflexivity. Qed.

(** Splitting what was joined gives the lines back, but for an empty last
    line. *)
Lemma splitlines_join ls :
  Forall no_break ls -> splitlines (join [LF] ls) = trim_last ls.
Proof.
  induction ls as [|x ls IH]; intros H; [reflexivity|].
  inversion H as [|? ? Hx Hls]; subst.
  destruct ls as [|y ls].
  - unfold splitlines. simpl join. rewrite <- (app_nil_r x) at 1.
    rewrite splitlines_aux_line by exact Hx. rewrite app_nil_r.
    destruct x as [|c x]; [reflexivity|].
    simpl splitlines_aux. simpl trim_last.
    destruct (rev x ++ [c]) eqn:E.
    + apply (f_equal (@length _)) in E. rewrite length_app in E. simpl in E. lia.
    + rewrite <- E. change (rev x ++ [c]) with (rev (c :: x)). rewrite rev_involutive. reflexivity.
  - rewrite join_cons. unfold splitlines.
    rewrite splitlines_aux_line by exact Hx.
    change ([LF] ++ join [LF] (y :: ls)) with (LF :: join [LF] (y :: ls)).
    rewrite splitlines_aux_LF, app_nil_r, rev_involutive.
    change (splitlines_aux (join [LF] (y :: ls)) []) with (splitlines (join [LF] (y :: ls))).
    rewrite IH by exact Hls. reflexivity.
Qed.

(** The lines of a text hold no line break. *)
Lemma splitlines_aux_no_break n : forall s acc,
  (length s <= n)%nat -> no_break acc -> Forall no_break (splitlines_aux s acc).
Proof.
  induction n as [|n IH]; intros s acc Hn Hacc.
  - destruct s; [|simpl in Hn; lia]. simpl. destruct acc; [constructor|].
    constructor; [|constructor]. apply Forall_rev. exact Hacc.
  - destruct s as [|c s].
    + simpl. destruct acc; [constructor|].
      constructor; [|constructor]. apply Forall_rev. exact Hacc.
    + simpl in Hn. simpl splitlines_aux.
      destruct (Ascii.eqb c LF) eqn:E1.
      { constructor; [apply Forall_rev; exact Hacc|]. apply IH; [lia|constructor]. }
      destruct (Ascii.eqb c CR) eqn:E2.
      { destruct s as [|c' s']; [constructor; [apply Forall_rev; exact Hacc|constructor]|].
        simpl in Hn.
        destruct (Ascii.eqb c' LF).
        - constructor; [apply Forall_rev; exact Hacc|]. apply IH; [lia|constructor].
        - constructor; [apply Forall_rev; exact Hacc|]. apply IH; [simpl; lia|constructor]. }
      apply IH; [lia|]. constructor; [split; assumption|exact Hacc].
Qed.

Lemma splitlines_no_break s : Forall no_break (splitlines s).
Proof. apply (splitlines_aux_no_break (length s)); [lia|constructor]. Qed.

Lemma stretch_no_break l l' : stretch l l' -> no_break l -> no_break l'.
Proof.
  induction 1; intros Hl.
  - constructor.
  - inversion Hl; subst. constructor; [assumption|]. apply IHstretch. assumption.
  - constructor; [split; reflexivity|]. apply IHstretch. exact Hl.
Qed.

(** ** The passes come to an end *)

Lemma gaps_le_short N : forall l cur, (cur + length l <= N)%nat -> gaps_le N cur l.
Proof.
  induction l as [|c l IH]; intros cur H; simpl in *; [lia|].
  destruct (is_delimiter c); [split; [lia|]|]; apply IH; lia.
Qed.

Lemma gaps_le_length N : forall l cur,
  gaps_le N cur l -> (cur + length l <= N + S N * length (filter is_delimiter l))%nat.
Proof.
  induction l as [|c l IH]; intros cur H; simpl in H.
  - simpl. lia.
  - cbn [filter length]. destruct (is_delimiter c).
    + destruct H as [Hc H]. apply IH in H. cbn [length]. lia.
    + apply IH in H. lia.
Qed.

Lemma tidy_line_length N l : tidy_line N l -> (length l <= line_bound N)%nat.
Proof.
  intros (_ & G & D). apply gaps_le_length in G. unfold line_bound.
  assert (S N * length (filter is_delimiter l) <= S N * N)%nat
    by (apply Nat.mul_le_mono_l; exact D).
  lia.
Qed.

Lemma filter_length_le {A} (f : A -> bool) l : (length (filter f l) <= length l)%nat.
Proof. induction l as [|c l IH]; simpl; [lia|]. destruct (f c); simpl; lia. Qed.

(** The lines of a text are tidy for the length of its longest line. *)
Lemma splitlines_tidy x :
  Forall (tidy_line (list_max (map (@length ascii) (splitlines x)))) (splitlines x).
Proof.
  pose proof (splitlines_no_break x) as Hb.
  assert (Hm : Forall (fun l => length l <= list_max (map (@length ascii) (splitlines x)))%nat
                 (splitlines x)).
  { pose proof (proj1 (list_max_le (map (@length ascii) (splitlines x)) _) (Nat.le_refl _)) as H.
    rewrite Forall_map in H. exact H. }
  revert Hb Hm. generalize (list_max (map (@length ascii) (splitlines x))) as N.
  intros N Hb Hm. induction Hb as [|l ls Hl Hls IH]; [constructor|].
  inversion Hm; subst. constructor; [|apply IH; assumption].
  split; [exact Hl|]. split.
  - apply gaps_le_short. simpl. assumption.
  - pose proof (filter_length_le is_delimiter l). lia.
Qed.

(** One pass keeps tidy lines tidy and puts blanks into them. *)
Lemma pass_tidy N ls :
  Forall (tidy_line N) ls ->
  Forall2 stretch ls (pass ls) /\ Forall (tidy_line N) (pass ls).
Proof.
  intros H. unfold pass.
  destruct (align_lines_stretch N ls) as [F G].
  { eapply Forall_impl; [|exact H]. intros l (_ & Hg & _). exact Hg. }
  split; [exact F|].
  revert H G. induction F as [|l l' ls ls' S F IH]; intros H G; [constructor|].
  inversion H as [|? ? (Hb & _ & Hd) H']; subst. inversion G; subst.
  constructor; [|apply IH; assumption].
  split; [apply (stretch_no_break l); assumption|]. split; [assumption|].
  rewrite (stretch_filter l l' S). exact Hd.
Qed.

Lemma trim_last_Forall (P : pystr -> Prop) ls :
  Forall P ls -> Forall P (trim_last ls).
Proof.
  induction 1 as [|l ls Hl Hls IH]; [constructor|].
  destruct ls as [|y ls].
  - destruct l; constructor; [assumption|constructor].
  - constructor; assumption.
Qed.

Lemma trim_last_room B ls :
  trim_last ls = ls \/ (room B (trim_last ls) < room B ls)%nat.
Proof.
  induction ls as [|l ls IH]; [left; reflexivity|].
  destruct ls as [|y ls].
  - destruct l; [right; unfold room; simpl; lia|left; reflexivity].
  - destruct IH as [IH|IH].
    + left. change (trim_last (l :: y :: ls)) with (l :: trim_last (y :: ls)). rewrite IH. reflexivity.
    + right. change (trim_last (l :: y :: ls)) with (l :: trim_last (y :: ls)).
      remember (trim_last (y :: ls)) as t. remember (y :: ls) as u.
      unfold room, list_sum in *. cbn [map fold_right]. lia.
Qed.

(** Where lines grow within a bound, either none has changed or room has
    been used up. *)
Lemma stretch_room B ls ls' :
  Forall2 stretch ls ls' ->
  Forall (fun l => length l <= B)%nat ls' ->
  ls' = ls \/ (room B ls' < room B ls)%nat.
Proof.
  induction 1 as [|l l' ls ls' S F IH]; intros HB; [left; reflexivity|].
  inversion HB as [|? ? Hl HB']; subst.
  pose proof (stretch_length l l' S) as Hle.
  unfold room, list_sum in *. cbn [map fold_right].
  destruct (IH HB') as [->|IH'].
  - destruct (Nat.le_gt_cases (length l') (length l)) as [H|H].
    + left. rewrite (stretch_same_length l l' S H). reflexivity.
    + right. lia.
  - right. lia.
Qed.

Lemma room_le B ls : (room B ls <= length ls * S B)%nat.
Proof.
  unfold room, list_sum. induction ls as [|l ls IH]; [simpl; lia|].
  cbn [map fold_right length]. rewrite Nat.mul_succ_l. lia.
Qed.

(** [align] on joined tidy lines: one pass over the lines found again. *)
Lemma align_join N ls :
  Forall (tidy_line N) ls ->
  align (join [LF] ls) = join [LF] (pass (trim_last ls)).
Proof.
  intros H. unfold align. rewrite splitlines_join; [reflexivity|].
  eapply Forall_impl; [|exact H]. intros l (Hb & _). exact Hb.
Qed.

(** A turn of the loop on joined tidy lines either changes nothing or uses
    up room. *)
Lemma align_progress N ls :
  Forall (tidy_line N) ls ->
  Forall (tidy_line N) (pass (trim_last ls))
  /\ (pass (trim_last ls) = ls
      \/ (room (line_bound N) (pass (trim_last ls)) < room (line_bound N) ls)%nat).
Proof.
  intros H.
  assert (Ht : Forall (tidy_line N) (trim_last ls)) by (apply trim_last_Forall; exact H).
  destruct (pass_tidy N (trim_last ls) Ht) as [F T].
  split; [exact T|].
  assert (HB : Forall (fun l => length l <= line_bound N)%nat (pass (trim_last ls))).
  { eapply Forall_impl; [|exact T]. intros l. apply tidy_line_length. }
  destruct (stretch_room (line_bound N) _ _ F HB) as [E|E];
    destruct (trim_last_room (line_bound N) ls) as [E'|E'].
  - left. rewrite E. exact E'.
  - right. rewrite E. exact E'.
  - right. rewrite E' in *. exact E.
  - right. lia.
Qed.

Lemma align_until_fixed_unfold fuel previous current :
  align_until_fixed fuel previous current
  = if str_eqb current previous then Some current
    else match fuel with
         | O => None
         | S fuel' => align_until_fixed fuel' current (align current)
         end.
Proof. destruct fuel; reflexivity. Qed.

Lemma align_until_fixed_same fuel x : align_until_fixed fuel x x = Some x.
Proof.
  rewrite align_until_fixed_unfold.
  replace (str_eqb x x) with true by (symmetry; apply str_eqb_eq; reflexivity).
  reflexivity.
Qed.

(** The loop on joined tidy lines stops within as many turns as there is
    room, and one more. *)
Lemma align_until_fixed_stops N : forall k ls previous,
  Forall (tidy_line N) ls ->
  (room (line_bound N) ls <= k)%nat ->
  exists y, align_until_fixed (S k) previous (join [LF] ls) = Some y.
Proof.
  induction k as [|k IH]; intros ls previous H Hk;
    rewrite align_until_fixed_unfold;
    (destruct (str_eqb (join [LF] ls) previous); [eexists; reflexivity|]);
    rewrite (align_join N ls H);
    destruct (align_progress N ls H) as [T [E|E]].
  - rewrite E. eexists. apply align_until_fixed_same.
  - lia.
  - rewrite E. eexists. apply align_until_fixed_same.
  - apply IH; [exact T|lia].
Qed.

(** With more turns allowed the loop stops where it stopped. *)
Lemma align_until_fixed_more fuel : forall fuel' previous current y,
  align_until_fixed fuel previous current = Some y ->
  (fuel <= fuel')%nat ->
  align_until_fixed fuel' previous current = Some y.
Proof.
  induction fuel as [|fuel IH]; intros fuel' previous current y H Hle;
    rewrite align_until_fixed_unfold in H; rewrite align_until_fixed_unfold;
    destruct (str_eqb current previous); try exact H; try discriminate.
  destruct fuel' as [|fuel']; [lia|]. apply IH; [exact H|lia].
Qed.

(** The loop of [align_array] stops on every text, within [align_fuel]
    turns. *)
Lemma align_until_fixed_total x :
  exists y, align_until_fixed (align_fuel x) [] x = Some y.
Proof.
  unfold align_fuel. rewrite align_until_fixed_unfold.
  destruct (str_eqb x []); [eexists; reflexivity|].
  pose proof (splitlines_tidy x) as H.
  set (N := list_max (map (@length ascii) (splitlines x))) in *.
  destruct (pass_tidy N (splitlines x) H) as [F T].
  change (align x) with (join [LF] (pass (splitlines x))).
  apply (align_until_fixed_stops N); [exact T|].
  etransitivity; [apply room_le|]. rewrite <- (Forall2_length F). lia.
Qed.

(** C4, as amended. One pass of [align] is not idempotent, but the loop of
    [align_array], which applies [align] until the text no longer changes,
    stops on every definition text [x], and the text [y] it stops at is a
    fixed point of [align]: [align y = y], so that a further pass over it
    changes nothing. *)
Theorem align_loop_reaches_fixed_point (x : pystr) :
  exists y,
    align_until_fixed (align_fuel x) [] x = Some y
    /\ align y = y
    /\ align (align y) = align y.
Proof.
  destruct (align_until_fixed_total x) as (y & Hy). exists y.
  assert (Hfix : align y = y).
  { apply (align_until_fixed_inv (align_fuel x) [] x y); [|exact Hy].
    intros ->. reflexivity. }
  split; [exact Hy|]. split; [exact Hfix|]. rewrite Hfix. exact Hfix.
Qed.

(** [align_array] returns: with enough turns allowed to its loop the model
    gives a result for every repository and name. *)
Lemma align_array_returns w varname :
  exists fuel out, align_array fuel w varname = Some out.
Proof.
  unfold align_array.
  destruct (search_def w varname false) as [[[m f]|]|e].
  - destruct (align_until_fixed_total (group0 m)) as (y & Hy).
    exists (align_fuel (group0 m)). rewrite Hy. eexists. reflexivity.
  - exists 0%nat. eexists. reflexivity.
  - exists 0%nat. eexists. reflexivity.
Qed.

(** ** Reading what was written *)

Lemma str_eqb_refl a : str_eqb a a = true.
Proof. apply str_eqb_eq. reflexivity. Qed.

Lemma str_eqb_neq a b : a <> b -> str_eqb a b = false.
Proof.
  intros H. destruct (str_eqb a b) eqn:E; [|reflexivity].
  apply str_eqb_eq in E. contradiction.
Qed.

Lemma fs_read_write d p s : fs_read (fs_write d p s) p = Ret s.
Proof. simpl. rewrite str_eqb_refl. reflexivity. Qed.

Lemma fs_read_write_other d p q s : p <> q -> fs_read (fs_write d p s) q = fs_read d q.
Proof. intros H. simpl. rewrite (str_eqb_neq p q H). reflexivity. Qed.

(** X1. What [write] is given is what [read] gives back afterwards, whether
    the file is kept in memory or not; the original text stays, a file in
    memory leaves the disk alone, and a file not in memory is itself left
    as it is. *)
Theorem write_then_read (d : filesystem) (f : SourceFile) (s : pystr) :
  read (fst (write d f s)) (snd (write d f s)) = Ret (Some s)
  /\ orig (snd (write d f s)) = orig f
  /\ path (snd (write d f s)) = path f
  /\ (if in_memory f then fst (write d f s) = d
      else snd (write d f s) = f /\ fs_read (fst (write d f s)) (path f) = Ret s).
Proof.
  unfold write, read. destruct (in_memory f) eqn:E; simpl.
  - auto.
  - rewrite E. unfold bind. rewrite str_eqb_refl. auto.
Qed.

Lemma nth_error_update_nth {A} k (x : A) l y :
  nth_error l k = Some y -> nth_error (update_nth k x l) k = Some x.
Proof.
  revert k. induction l as [|z l IH]; intros [|k] H; simpl in *; try discriminate; auto.
Qed.

Lemma update_nth_length {A} k (x : A) l : length (update_nth k x l) = length l.
Proof. revert k. induction l as [|z l IH]; intros [|k]; simpl; auto. Qed.

Lemma write_file_path w k s :
  map path (files (repo (write_file w k s))) = map path (files (repo w)).
Proof.
  unfold write_file. destruct (nth_error (files (repo w)) k) as [f|] eqn:E; [|reflexivity].
  assert (Hp : path (snd (write (disk w) f s)) = path f).
  { unfold write. destruct (in_memory f); reflexivity. }
  destruct (write (disk w) f s) as [d f']. simpl in *.
  rewrite update_nth_map, Hp. apply update_nth_same.
  rewrite nth_error_map, E. reflexivity.
Qed.

(** X2. The same through the repository: after the write to the file at
    place [k], reading that file gives the text written, so that a later
    request finds the edit of an earlier one; the repository holds the
    same files under the same paths and with the same original texts. *)
Theorem write_file_then_read (w : world) (k : nat) (f : SourceFile) (s : pystr) :
  nth_error (files (repo w)) k = Some f ->
  exists f',
    nth_error (files (repo (write_file w k s))) k = Some f'
    /\ read (disk (write_file w k s)) f' = Ret (Some s)
    /\ map path (files (repo (write_file w k s))) = map path (files (repo w))
    /\ map orig (files (repo (write_file w k s))) = map orig (files (repo w)).
Proof.
  intros H.
  assert (R : read (fst (write (disk w) f s)) (snd (write (disk w) f s)) = Ret (Some s)).
  { unfold write, read. destruct (in_memory f) eqn:E; simpl; [reflexivity|].
    rewrite E. unfold bind. rewrite str_eqb_refl. reflexivity. }
  exists (snd (write (disk w) f s)). split; [|split; [|split]].
  - unfold write_file. rewrite H. destruct (write (disk w) f s) as [d f']. simpl.
    apply (nth_error_update_nth _ _ _ f). exact H.
  - unfold write_file. rewrite H. destruct (write (disk w) f s) as [d f']. simpl. exact R.
  - apply write_file_path.
  - apply write_file_orig.
Qed.

Lemma write_file_then_read_witness :
  exists f',
    nth_error (files (repo (write_file razor_world 0 (py "int x;")))) 0 = Some f'
    /\ read (disk (write_file razor_world 0 (py "int x;"))) f' = Ret (Some (py "int x;"))
    /\ map path (files (repo (write_file razor_world 0 (py "int x;"))))
       = map path (files (repo razor_world))
    /\ map orig (files (repo (write_file razor_world 0 (py "int x;"))))
       = map orig (files (repo razor_world)).
Proof.
  eapply (write_file_then_read razor_world 0). reflexivity.
Defined.
(** ** Building the repository *)

Lemma init_files_spec d m : forall paths fs,
  init_files d paths m = Ret fs ->
  map path fs = paths
  /\ Forall (fun f => in_memory f = m
                      /\ if m then exists c, fs_read d (path f) = Ret c
                                             /\ orig f = Some c /\ curr f = Some c
                         else orig f = None /\ curr f = None) fs.
Proof.
  induction paths as [|p paths IH]; intros fs H; simpl in H.
  - injection H as <-. split; [reflexivity|constructor].
  - unfold bind in H.
    destruct (SourceFile_init d p m) as [f|] eqn:Ef; [|discriminate].
    destruct (init_files d paths m) as [fs'|] eqn:Efs; [|discriminate].
    injection H as <-. destruct (IH fs' eq_refl) as [P F].
    unfold SourceFile_init in Ef. destruct m.
    + unfold bind in Ef. destruct (fs_read d p) as [c|] eqn:Ec; [|discriminate].
      injection Ef as <-. simpl. split; [f_equal; exact P|].
      constructor; [|exact F]. simpl. split; [reflexivity|]. exists c. auto.
    + injection Ef as <-. simpl. split; [f_equal; exact P|].
      constructor; [|exact F]. simpl. auto.
Qed.



Lemma init_files_missing d : forall paths,
  (exists p, In p paths /\ fs_read d p = Raise IOError) ->
  (forall p, In p paths -> fs_read d p = Raise IOError \/ exists c, fs_read d p = Ret c) ->
  init_files d paths true = Raise IOError.
Proof.
  induction paths as [|q paths IH]; intros (p & Hin & Hp) Hall; [destruct Hin|].
  simpl. unfold bind, SourceFile_init, bind.
  destruct (Hall q (or_introl eq_refl)) as [Hq|[c Hq]]; rewrite Hq; [reflexivity|].
  destruct Hin as [->|Hin]; [congruence|].
  rewrite IH; [reflexivity|exists p; auto|intros; apply Hall; right; assumption].
Qed.

Lemma fs_read_cases d p : fs_read d p = Raise IOError \/ exists c, fs_read d p = Ret c.
Proof.
  induction d as [|[q c] d IH]; simpl; [left; reflexivity|].
  destruct (str_eqb q p); [right; eexists; reflexivity|exact IH].
Qed.

(** X4. Kept in memory, the repository cannot be built when a source file
    of the listing cannot be read: the construction raises. Not kept in
    memory, it is built whatever the disk holds: no file is opened. *)
Theorem Repository_init_missing (d : filesystem) (src : pystr) (listing : list pystr)
  (p : pystr) :
  In p listing -> is_source p = true -> fs_read d p = Raise IOError ->
  Repository_init d src listing true = Raise IOError
  /\ exists r, Repository_init d src listing false = Ret r
               /\ map path (files r) = filter is_source listing.
Proof.
  intros Hin Hs Hp. split.
  - unfold Repository_init, bind.
    rewrite (init_files_missing d (filter is_source listing)); [reflexivity| |].
    + exists p. split; [apply filter_In; auto|exact Hp].
    + intros q _. apply fs_read_cases.
  - unfold Repository_init, bind.
    assert (H : forall paths, exists fs, init_files d paths false = Ret fs).
    { induction paths as [|q paths [fs IH]]; [eexists; reflexivity|].
      simpl. unfold bind. simpl. rewrite IH. eexists. reflexivity. }
    destruct (H (filter is_source listing)) as [fs E]. rewrite E.
    eexists. split; [reflexivity|]. simpl. apply (init_files_spec d false _ fs E).
Qed.

Lemma Repository_init_missing_witness :
  Repository_init [(py "a.cpp", py "int x = 1;")] (py "src") [py "a.cpp"; py "b.h"] true
  = Raise IOError
  /\ exists r,
       Repository_init [(py "a.cpp", py "int x = 1;")] (py "src") [py "a.cpp"; py "b.h"] false
       = Ret r
       /\ map path (files r) = filter is_source [py "a.cpp"; py "b.h"].
Proof.
  apply (Repository_init_missing _ _ _ (py "b.h")).
  - right. left. reflexivity.
  - reflexivity.
  - reflexivity.
Defined.
(** ** Saving the repository *)

Lemma save_files_spec : forall fs d,
  Forall holds_texts fs -> NoDup (map path fs) ->
  exists d',
    save_files d fs = (d', Ret tt)
    /\ Forall (on_disk d') fs
    /\ forall q, ~ In q (map path fs) -> fs_read d' q = fs_read d q.
Proof.
  induction fs as [|f fs IH]; intros d H N.
  - exists d. simpl. split; [reflexivity|]. split; [constructor|auto].
  - inversion H as [|? ? (M & _ & (c & C)) H']; subst.
    inversion N as [|? ? Nin N']; subst.
    simpl. unfold save. rewrite M, C.
    destruct (IH (fs_write d (path f) c) H' N') as (d' & E & F & O).
    exists d'. split; [exact E|]. split.
    + constructor; [|exact F]. exists c. split; [exact C|].
      rewrite (O (path f) Nin). apply fs_read_write.
    + intros q Hq. rewrite O by (intros Hin; apply Hq; right; exact Hin).
      apply fs_read_write_other. intros Heq. apply Hq. left. exact Heq.
Qed.

Lemma init_files_on_disk d : forall fs,
  Forall (on_disk d) fs ->
  init_files d (map path fs) true
  = Ret (map (fun f => mkSourceFile (path f) true (curr f) (curr f)) fs).
Proof.
  induction fs as [|f fs IH]; intros H; [reflexivity|].
  inversion H as [|? ? (s & C & R) H']; subst.
  simpl. unfold bind, SourceFile_init, bind. rewrite R, (IH H'), C. reflexivity.
Qed.

(** X5. Saving a repository that is kept in memory and whose files have
    different paths puts the current text of every file on disk under its
    path and leaves every other path of the disk as it was; nothing is
    raised, and the repository itself is not changed. A repository built
    afterwards over the same paths has those texts as its original and
    current ones. *)
Theorem Repository_save_reload (w : world) :
  loaded w -> NoDup (map path (files (repo w))) ->
  exists d',
    Repository_save w = (mkWorld d' (repo w), Ret tt)
    /\ Forall (on_disk d') (files (repo w))
    /\ (forall q, ~ In q (map path (files (repo w))) -> fs_read d' q = fs_read (disk w) q)
    /\ init_files d' (map path (files (repo w))) true
       = Ret (map (fun f => mkSourceFile (path f) true (curr f) (curr f)) (files (repo w))).
Proof.
  intros (_ & H) N. unfold Repository_save.
  destruct (save_files_spec (files (repo w)) (disk w) H N) as (d' & E & F & O).
  exists d'. rewrite E. split; [reflexivity|]. split; [exact F|]. split; [exact O|].
  apply init_files_on_disk. exact F.
Qed.
(** ** Runs over a whole input *)

Lemma world_of_loaded contents : loaded (world_of contents).
Proof.
  split; [reflexivity|]. unfold world_of. simpl.
  induction contents as [|pc contents IH]; simpl; constructor; [|exact IH].
  split; [reflexivity|]. split; eexists; reflexivity.
Qed.

Lemma Repository_save_reload_witness :
  exists d',
    Repository_save razor_world = (mkWorld d' (repo razor_world), Ret tt)
    /\ Forall (on_disk d') (files (repo razor_world))
    /\ (forall q, ~ In q (map path (files (repo razor_world))) ->
          fs_read d' q = fs_read (disk razor_world) q)
    /\ init_files d' (map path (files (repo razor_world))) true
       = Ret (map (fun f => mkSourceFile (path f) true (curr f) (curr f))
                (files (repo razor_world))).
Proof.
  apply (Repository_save_reload razor_world).
  - apply world_of_loaded.
  - simpl. constructor; [simpl; tauto|constructor].
Defined.

Lemma update_nth_Forall {A} (P : A -> Prop) k x l :
  Forall P l -> P x -> Forall P (update_nth k x l).
Proof.
  intros H Hx. revert k. induction H as [|y l Hy Hl IH]; intros [|k]; simpl;
    constructor; auto.
Qed.

(** A write to a world kept in memory leaves the disk alone. *)
Lemma write_file_loaded w k s :
  loaded w -> loaded (write_file w k s) /\ disk (write_file w k s) = disk w.
Proof.
  intros (M & H). unfold write_file.
  destruct (nth_error (files (repo w)) k) as [f|] eqn:E; [|split; [split|]; auto].
  assert (Hf : holds_texts f).
  { rewrite Forall_forall in H. apply H. eapply nth_error_In. exact E. }
  destruct Hf as (Mf & O & _). unfold write. rewrite Mf. simpl.
  split; [|reflexivity]. split; [exact M|]. simpl.
  apply update_nth_Forall; [exact H|].
  split; [reflexivity|]. split; [exact O|]. eexists. reflexivity.
Qed.

Lemma process_spsa_match_one_write w inp f_round :
  one_write w (fst (process_spsa_match w inp f_round)) (snd (process_spsa_match w inp f_round)).
Proof.
  unfold process_spsa_match.
  destruct (spsa_patch w inp f_round) as [[e|p]|e]; simpl.
  - left. split; [discriminate|reflexivity].
  - right. split; [reflexivity|]. eexists. eexists. reflexivity.
  - left. split; [discriminate|reflexivity].
Qed.

Lemma process_function_match_one_write compile_lambda w inp f_round :
  one_write w (fst (process_function_match compile_lambda w inp f_round))
    (snd (process_function_match compile_lambda w inp f_round)).
Proof.
  unfold process_function_match.
  destruct (search_def w (fn_name inp) false) as [[[md k]|]|e]; simpl;
    try (left; split; [discriminate|reflexivity]).
  destruct (compile_lambda (fn_func inp)) as [func|]; simpl;
    try (left; split; [discriminate|reflexivity]).
  destruct (group md "def") as [def_string|]; simpl;
    try (left; split; [discriminate|reflexivity]).
  destruct (re_sub_fun _ _ def_string) as [new_def|e]; simpl;
    try (left; split; [discriminate|reflexivity]).
  right. split; [reflexivity|]. eexists. eexists. reflexivity.
Qed.

(** With the turns it is given, the loop of [align_array] comes to its end. *)
Lemma align_array_one_write w varname :
  exists w' r,
    align_array (align_turns w varname) w varname = Some (w', r) /\ one_write w w' r.
Proof.
  unfold align_array, align_turns.
  destruct (search_def w varname false) as [[[md k]|]|e].
  - destruct (align_until_fixed_total (group0 md)) as (y & Hy). rewrite Hy.
    eexists. eexists. split; [reflexivity|].
    right. split; [reflexivity|]. eexists. eexists. reflexivity.
  - eexists. eexists. split; [reflexivity|]. left. split; [discriminate|reflexivity].
  - eexists. eexists. split; [reflexivity|]. left. split; [discriminate|reflexivity].
Qed.

Lemma process_match_one_write compile_lambda c w m f_round :
  exists w' r,
    process_match compile_lambda c w m f_round = Some (w', r) /\ one_write w w' r.
Proof.
  destruct c; simpl.
  - destruct (spsa_groups m) as [inp|e].
    + exists (fst (process_spsa_match w inp f_round)), (snd (process_spsa_match w inp f_round)).
      split; [rewrite <- surjective_pairing; reflexivity|apply process_spsa_match_one_write].
    + eexists. eexists. split; [reflexivity|]. left. split; [discriminate|reflexivity].
  - destruct (function_groups m) as [inp|e].
    + exists (fst (process_function_match compile_lambda w inp f_round)),
             (snd (process_function_match compile_lambda w inp f_round)).
      split; [rewrite <- surjective_pairing; reflexivity
             |apply process_function_match_one_write].
    + eexists. eexists. split; [reflexivity|]. left. split; [discriminate|reflexivity].
  - destruct (group_or_raise m "name") as [varname|e].
    + apply align_array_one_write.
    + eexists. eexists. split; [reflexivity|]. left. split; [discriminate|reflexivity].
Qed.

Lemma process_line_step compile_lambda c w line f_round :
  exists w' o r,
    process_line compile_lambda c w line f_round = Some (w', o)
    /\ one_write w w' r
    /\ (o = Handled Written <-> r = Ret Written).
Proof.
  unfold process_line.
  destruct (rstrip line) as [|c0 l0] eqn:E.
  { exists w, Blank, (Raise ValueError). split; [reflexivity|].
    split; [left; split; [discriminate|reflexivity]|split; discriminate]. }
  destruct (read_line c (c0 :: l0)) as [m|].
  2:{ exists w, Invalid, (Raise ValueError). split; [reflexivity|].
      split; [left; split; [discriminate|reflexivity]|split; discriminate]. }
  destruct (process_match_one_write compile_lambda c w m f_round) as (w' & r & -> & H).
  destruct r as [s|e].
  - exists w', (Handled s), (Ret s). split; [reflexivity|]. split; [exact H|].
    split; congruence.
  - exists w', (Failed e), (Raise e). split; [reflexivity|]. split; [exact H|].
    split; discriminate.
Qed.

(** X6. Every line of the input is dealt with, whatever it holds: the
    methods come to an end and what they raise is caught. A line changes
    the world only when its request ends with the file written, and then by
    that one write; a line that is empty, not of the form asked for,
    skipped with an error or failed leaves everything as it was. *)
Theorem process_line_one_write
  (compile_lambda : pystr -> option (pyfloat -> res pyfloat))
  (c : parser_class) (w : world) (line : pystr) (f_round : rounding) :
  exists w' o,
    process_line compile_lambda c w line f_round = Some (w', o)
    /\ ((o <> Handled Written /\ w' = w)
        \/ (o = Handled Written /\ exists k s, w' = write_file w k s)).
Proof.
  destruct (process_line_step compile_lambda c w line f_round) as (w' & o & r & E & H & Ho).
  exists w', o. split; [exact E|].
  destruct H as [[Hn ->]|[Hr Hw]].
  - left. split; [|reflexivity]. intros Heq. apply Hn, Ho, Heq.
  - right. split; [apply Ho, Hr|exact Hw].
Qed.

Lemma one_write_frame w w' r :
  loaded w -> one_write w w' r ->
  loaded w' /\ disk w' = disk w
  /\ map path (files (repo w')) = map path (files (repo w))
  /\ map orig (files (repo w')) = map orig (files (repo w)).
Proof.
  intros L [[_ ->]|[_ (k & s & ->)]]; [auto|].
  destruct (write_file_loaded w k s L) as [L' D].
  split; [exact L'|]. split; [exact D|]. split; [apply write_file_path|apply write_file_orig].
Qed.

Lemma process_lines_frame compile_lambda c f_round : forall lines w,
  loaded w ->
  exists w' os,
    process_lines compile_lambda c w lines f_round = Some (w', os)
    /\ length os = length lines
    /\ loaded w' /\ disk w' = disk w
    /\ map path (files (repo w')) = map path (files (repo w))
    /\ map orig (files (repo w')) = map orig (files (repo w)).
Proof.
  induction lines as [|line lines IH]; intros w L.
  - exists w, []. simpl. auto 6.
  - simpl.
    destruct (process_line_step compile_lambda c w line f_round) as (w1 & o & r & E & H & _).
    rewrite E. destruct (one_write_frame w w1 r L H) as (L1 & D1 & P1 & O1).
    destruct (IH w1 L1) as (w' & os & E' & Hl & L' & D' & P' & O').
    rewrite E'. exists w', (o :: os). split; [reflexivity|].
    split; [simpl; f_equal; exact Hl|]. split; [exact L'|].
    split; [congruence|]. split; congruence.
Qed.
Lemma diff_files_returns unified_diff : forall fs s,
  Forall holds_texts fs -> exists text, diff_files unified_diff fs s = Ret text.
Proof.
  induction fs as [|f fs IH]; intros s H; [eexists; reflexivity|].
  inversion H as [|? ? (M & (o & O) & (c & C)) H']; subst.
  simpl. unfold bind, diff. rewrite M, O, C. apply IH. exact H'.
Qed.

(** X7. A dry run over a repository kept in memory deals with every line,
    raises nothing and prints a diff, and it leaves the disk as it was:
    the edits stay in the current texts of the file objects, whose paths
    and original texts are the same after the run as before. *)
Theorem dry_run_keeps_disk
  (compile_lambda : pystr -> option (pyfloat -> res pyfloat))
  (unified_diff : list pystr -> list pystr -> pystr -> pystr -> list pystr)
  (c : parser_class) (w : world) (lines : list pystr) (f_round : rounding) :
  loaded w ->
  exists w' os text,
    process compile_lambda unified_diff c w lines true f_round
    = Some (w', os, Ret (Some text))
    /\ length os = length lines
    /\ disk w' = disk w
    /\ map path (files (repo w')) = map path (files (repo w))
    /\ map orig (files (repo w')) = map orig (files (repo w)).
Proof.
  intros L. unfold process.
  destruct (process_lines_frame compile_lambda c f_round lines w L)
    as (w' & os & E & Hl & (M' & H') & D & P & O).
  rewrite E. unfold Repository_diff. rewrite M'.
  destruct (diff_files_returns unified_diff (files (repo w')) [] H') as (text & T).
  rewrite T. exists w', os, text. auto 6.
Qed.

(** X8. A run that is not a dry one, over a repository kept in memory
    whose files have different paths, deals with every line, raises
    nothing and ends with the current text of every file on disk under the
    path of the file; what the disk holds under other paths is not
    touched. *)
Theorem run_saves_current_texts
  (compile_lambda : pystr -> option (pyfloat -> res pyfloat))
  (unified_diff : list pystr -> list pystr -> pystr -> pystr -> list pystr)
  (c : parser_class) (w : world) (lines : list pystr) (f_round : rounding) :
  loaded w -> NoDup (map path (files (repo w))) ->
  exists w' os,
    process compile_lambda unified_diff c w lines false f_round
    = Some (w', os, Ret None)
    /\ length os = length lines
    /\ Forall (on_disk (disk w')) (files (repo w'))
    /\ map path (files (repo w')) = map path (files (repo w))
    /\ (forall q, ~ In q (map path (files (repo w))) ->
          fs_read (disk w') q = fs_read (disk w) q).
Proof.
  intros L N. unfold process.
  destruct (process_lines_frame compile_lambda c f_round lines w L)
    as (w1 & os & E & Hl & (M1 & H1) & D & P & O).
  rewrite E. unfold Repository_save.
  assert (N1 : NoDup (map path (files (repo w1)))) by (rewrite P; exact N).
  destruct (save_files_spec (files (repo w1)) (disk w1) H1 N1) as (d' & S & F & Q).
  rewrite S. exists (mkWorld d' (repo w1)), os. simpl.
  split; [reflexivity|]. split; [exact Hl|]. split; [exact F|]. split; [exact P|].
  intros q Hq. rewrite Q by (rewrite P; exact Hq). rewrite D. reflexivity.
Qed.
Lemma dry_run_keeps_disk_witness :
  exists w' os text,
    process (fun _ => None) (fun _ _ _ _ => []) ResultParser razor_world
      [py "param: razor[1], best: 250, start: 200"] true round
    = Some (w', os, Ret (Some text))
    /\ length os = length [py "param: razor[1], best: 250, start: 200"]
    /\ disk w' = disk razor_world
    /\ map path (files (repo w')) = map path (files (repo razor_world))
    /\ map orig (files (repo w')) = map orig (files (repo razor_world)).
Proof.
  apply (dry_run_keeps_disk (fun _ => None) (fun _ _ _ _ => []) ResultParser razor_world).
  apply world_of_loaded.
Defined.

Lemma run_saves_current_texts_witness :
  exists w' os,
    process (fun _ => None) (fun _ _ _ _ => []) ResultParser razor_world
      [py "param: razor[1], best: 250, start: 200"] false round
    = Some (w', os, Ret None)
    /\ length os = length [py "param: razor[1], best: 250, start: 200"]
    /\ Forall (on_disk (disk w')) (files (repo w'))
    /\ map path (files (repo w')) = map path (files (repo razor_world))
    /\ (forall q, ~ In q (map path (files (repo razor_world))) ->
          fs_read (disk w') q = fs_read (disk razor_world) q).
Proof.
  apply (run_saves_current_texts (fun _ => None) (fun _ _ _ _ => []) ResultParser razor_world).
  - apply world_of_loaded.
  - simpl. constructor; [simpl; tauto|constructor].
Defined.
Lemma write_file_not_in_memory w k s :
  Forall (fun f => in_memory f = false) (files (repo w)) ->
  repo (write_file w k s) = repo w.
Proof.
  intros H. unfold write_file.
  destruct (nth_error (files (repo w)) k) as [f|] eqn:E; [|reflexivity].
  assert (M : in_memory f = false).
  { rewrite Forall_forall in H. apply H. eapply nth_error_In. exact E. }
  unfold write. rewrite M. simpl. rewrite (update_nth_same k f _ E).
  destruct (repo w). reflexivity.
Qed.

Lemma process_lines_not_in_memory compile_lambda c f_round : forall lines w,
  Forall (fun f => in_memory f = false) (files (repo w)) ->
  exists w' os,
    process_lines compile_lambda c w lines f_round = Some (w', os)
    /\ length os = length lines
    /\ repo w' = repo w.
Proof.
  induction lines as [|line lines IH]; intros w H.
  - exists w, []. simpl. auto.
  - simpl.
    destruct (process_line_step compile_lambda c w line f_round) as (w1 & o & r & E & W & _).
    rewrite E.
    assert (R1 : repo w1 = repo w).
    { destruct W as [[_ ->]|[_ (k & s & ->)]]; [reflexivity|].
      apply write_file_not_in_memory. exact H. }
    destruct (IH w1) as (w' & os & E' & Hl & R'); [rewrite R1; exact H|].
    rewrite E'. exists w', (o :: os). split; [reflexivity|].
    split; [simpl; f_equal; exact Hl|congruence].
Qed.

Lemma save_files_not_in_memory : forall fs d,
  Forall (fun f => in_memory f = false) fs -> save_files d fs = (d, Ret tt).
Proof.
  induction fs as [|f fs IH]; intros d H; [reflexivity|].
  inversion H as [|? ? M H']; subst. simpl. unfold save. rewrite M. apply IH. exact H'.
Qed.

(** X9. Over a repository that is not kept in memory, every line is dealt
    with as well, and every write goes to the disk at once: the file
    objects stay as they are, and the save at the end of the run changes
    nothing. A dry run is not to be had: after the lines have made their
    changes on disk, [Repository.diff] fails its assertion. *)
Theorem low_memory_run
  (compile_lambda : pystr -> option (pyfloat -> res pyfloat))
  (unified_diff : list pystr -> list pystr -> pystr -> pystr -> list pystr)
  (c : parser_class) (w : world) (lines : list pystr) (f_round : rounding) :
  repo_in_memory (repo w) = false ->
  Forall (fun f => in_memory f = false) (files (repo w)) ->
  exists w' os,
    process_lines compile_lambda c w lines f_round = Some (w', os)
    /\ repo w' = repo w
    /\ process compile_lambda unified_diff c w lines false f_round = Some (w', os, Ret None)
    /\ process compile_lambda unified_diff c w lines true f_round
       = Some (w', os, Raise AssertionError).
Proof.
  intros M H.
  destruct (process_lines_not_in_memory compile_lambda c f_round lines w H)
    as (w' & os & E & _ & R).
  exists w', os. split; [exact E|]. split; [exact R|].
  unfold process. rewrite E. split.
  - unfold Repository_save. rewrite save_files_not_in_memory by (rewrite R; exact H).
    destruct w'. reflexivity.
  - unfold Repository_diff. rewrite R, M. reflexivity.
Qed.

Lemma low_memory_run_witness :
  exists w' os,
    process_lines (fun _ => None) ResultParser
      (mkWorld small_disk (mkRepository (py "src") false [mkSourceFile (py "a.cpp") false None None]))
      [py "param: x, best: 2, start: 1"] round = Some (w', os)
    /\ repo w' = mkRepository (py "src") false [mkSourceFile (py "a.cpp") false None None]
    /\ process (fun _ => None) (fun _ _ _ _ => []) ResultParser
         (mkWorld small_disk (mkRepository (py "src") false [mkSourceFile (py "a.cpp") false None None]))
         [py "param: x, best: 2, start: 1"] false round = Some (w', os, Ret None)
    /\ process (fun _ => None) (fun _ _ _ _ => []) ResultParser
         (mkWorld small_disk (mkRepository (py "src") false [mkSourceFile (py "a.cpp") false None None]))
         [py "param: x, best: 2, start: 1"] true round = Some (w', os, Raise AssertionError).
Proof.
  apply (low_memory_run (fun _ => None) (fun _ _ _ _ => []) ResultParser
           (mkWorld small_disk
              (mkRepository (py "src") false [mkSourceFile (py "a.cpp") false None None]))).
  - reflexivity.
  - constructor; [reflexivity|constructor].
Defined.
(** ** Numbers written and read again *)

Lemma digits_val_acc d : forall p,
  fold_left (fun acc c => 10 * acc + digit_val c) (uint_digits d) (Z.pos p)
  = Z.pos (Pos.of_uint_acc d p).
Proof.
  induction d; intros p; cbn [uint_digits fold_left Pos.of_uint_acc]; [reflexivity|..];
    rewrite <- IHd; f_equal;
    match goal with
    | |- context [digit_val ?c] =>
        let v := eval vm_compute in (digit_val c) in change (digit_val c) with v
    end; lia.
Qed.

Lemma digits_val_uint d : digits_val (uint_digits d) = Z.of_uint d.
Proof.
  unfold digits_val, Z.of_uint.
  induction d; cbn [uint_digits fold_left Pos.of_uint]; [reflexivity|..];
    match goal with
    | |- context [digit_val ?c] =>
        let v := eval vm_compute in (digit_val c) in change (digit_val c) with v
    end;
    [exact IHd|..]; cbn [Z.of_N];
    match goal with
    | |- fold_left _ _ ?a = Z.pos (Pos.of_uint_acc _ ?p) =>
        change a with (Z.pos p)
    end; apply digits_val_acc.
Qed.

Lemma uint_digits_all d : forallb is_digit (uint_digits d) = true.
Proof. induction d; simpl; auto. Qed.

Lemma uint_digits_nonempty d : d <> Decimal.Nil -> uint_digits d <> [].
Proof. destruct d; simpl; congruence. Qed.

Lemma str_of_int_shape n :
  exists ds, ds <> [] /\ forallb is_digit ds = true
    /\ ((0 <= n /\ str_of_int n = ds /\ digits_val ds = n)
        \/ (n < 0 /\ str_of_int n = ch "-" :: ds /\ digits_val ds = - n)).
Proof.
  pose proof (DecimalZ.of_to n) as R.
  unfold str_of_int. destruct n as [|p|p]; simpl in *.
  - exists [ch "0"]. split; [discriminate|]. split; [reflexivity|]. left. auto with zarith.
  - exists (uint_digits (Pos.to_uint p)).
    split; [apply uint_digits_nonempty, DecimalPos.Unsigned.to_uint_nonnil|].
    split; [apply uint_digits_all|]. left. split; [lia|]. split; [reflexivity|].
    rewrite digits_val_uint. exact R.
  - exists (uint_digits (Pos.to_uint p)).
    split; [apply uint_digits_nonempty, DecimalPos.Unsigned.to_uint_nonnil|].
    split; [apply uint_digits_all|]. right. split; [lia|]. split; [reflexivity|].
    rewrite digits_val_uint. lia.
Qed.

Lemma lstrip_blanks k s : lstrip (repeat SP k ++ s) = lstrip s.
Proof. induction k; simpl; auto. Qed.

Lemma py_int_blanks k s : py_int (repeat SP k ++ s) = py_int s.
Proof. unfold py_int, strip. rewrite lstrip_blanks. reflexivity. Qed.

(** An integer written with [str] and read with [int] is the integer
    again, also after it has been right-justified with blanks. *)
Lemma int_of_str_of_int (n w : Z) :
  py_int (str_of_int n) = Ret n /\ py_int (rjust (str_of_int n) w) = Ret n.
Proof.
  assert (H : py_int (str_of_int n) = Ret n).
  { destruct (str_of_int_shape n) as (ds & Hne & Hds & [(Hn & -> & V)|(Hn & -> & V)]).
    - rewrite (proj1 (py_int_literal ds Hne Hds)). f_equal. exact V.
    - rewrite (proj2 (py_int_literal ds Hne Hds)). f_equal. lia. }
  split; [exact H|]. unfold rjust. rewrite py_int_blanks. exact H.
Qed.
(** ** The edit replaces the old literal where it stands *)






(** ** The locator on flat initialisers *)

Lemma count_char_app c a b : count_char c (a ++ b) = count_char c a + count_char c b.
Proof. induction a as [|x a IH]; simpl; [reflexivity|]. rewrite IH. lia. Qed.

Lemma count_char_absent c l : ~ In c l -> count_char c l = 0.
Proof.
  induction l as [|x l IH]; simpl; intros H; [reflexivity|].
  destruct (Ascii.eqb x c) eqn:E.
  - apply Ascii.eqb_eq in E. exfalso. apply H. left. exact E.
  - rewrite IH; [reflexivity|]. intros Hin. apply H. right. exact Hin.
Qed.

Lemma none_of_not_in set c l :
  forallb (none_of set) l = true -> one_of set c = true -> ~ In c l.
Proof.
  rewrite forallb_forall. intros H Hc Hin.
  apply H in Hin. unfold none_of in Hin. rewrite Hc in Hin. discriminate.
Qed.

Lemma py_slice_prefix b c : py_slice (b ++ c) 0 (len b) = b.
Proof.
  pose proof (py_slice_middle [] b c) as H. simpl app in H.
  change (len []) with 0 in H. rewrite Z.add_0_l in H. exact H.
Qed.

(** One turn of the inner loop, from the character [c0] at offset
    [len pre] over a run [e] without commas and brackets to the comma
    after it. *)
Lemma next_separator_flat s pre c0 e rest d :
  s = pre ++ c0 :: e ++ ch "," :: rest ->
  plain_element e = true -> one_of "()" c0 = false ->
  count_char (ch "{") (pre ++ [c0]) - count_char (ch "}") (pre ++ [c0]) <= d + 1 ->
  next_separator s d (len pre) = len (pre ++ c0 :: e).
Proof.
  intros Hs He Hc0 Hbal. unfold next_separator.
  assert (Hcomma : ~ In (ch ",") e) by (apply (none_of_not_in ",{}()"); auto).
  assert (Ho : ~ In (ch "{") e) by (apply (none_of_not_in ",{}()"); auto).
  assert (Hcl : ~ In (ch "}") e) by (apply (none_of_not_in ",{}()"); auto).
  assert (Hpo : ~ In (ch "(") e) by (apply (none_of_not_in ",{}()"); auto).
  assert (Hpc : ~ In (ch ")") e) by (apply (none_of_not_in ",{}()"); auto).
  assert (F1 : py_find s [ch ","] (len pre + 1) = len (pre ++ c0 :: e)).
  { replace (len pre + 1) with (len (pre ++ [c0])) by (rewrite len_app; reflexivity).
    replace s with ((pre ++ [c0]) ++ e ++ ch "," :: rest)
      by (rewrite Hs, <- app_assoc; reflexivity).
    rewrite py_find_after by exact Hcomma.
    rewrite <- len_app, <- app_assoc. reflexivity. }
  rewrite F1.
  set (q := len (pre ++ c0 :: e)).
  assert (S1 : py_slice s 0 (q + 1) = pre ++ c0 :: e ++ [ch ","]).
  { replace s with ((pre ++ c0 :: e ++ [ch ","]) ++ rest)
      by (rewrite Hs, <- !app_assoc; simpl; rewrite <- app_assoc; reflexivity).
    replace (q + 1) with (len (pre ++ c0 :: e ++ [ch ","])).
    - apply py_slice_prefix.
    - unfold q. rewrite !len_app. unfold len. simpl length. rewrite length_app. simpl. lia. }
  assert (S2 : py_slice s (len pre) (q + 1) = c0 :: e ++ [ch ","]).
  { replace s with (pre ++ (c0 :: e ++ [ch ","]) ++ rest)
      by (rewrite Hs; simpl; rewrite <- app_assoc; reflexivity).
    replace (q + 1) with (len pre + len (c0 :: e ++ [ch ","])).
    - apply py_slice_middle.
    - unfold q. rewrite !len_app. unfold len. simpl length. rewrite length_app. simpl. lia. }
  assert (B : skip_braces (loop_fuel s) s d q = q).
  { unfold loop_fuel. cbn [skip_braces]. unfold py_count. rewrite S1.
    replace (pre ++ c0 :: e ++ [ch ","]) with ((pre ++ [c0]) ++ e ++ [ch ","])
      by (rewrite <- app_assoc; reflexivity).
    rewrite !(count_char_app _ (pre ++ [c0])), !(count_char_app _ e).
    rewrite (count_char_absent _ e Ho), (count_char_absent _ e Hcl).
    change (count_char (ch "{") [ch ","]) with 0.
    change (count_char (ch "}") [ch ","]) with 0.
    replace (d + 1 <? _) with false; [reflexivity|].
    symmetry. apply Z.ltb_ge. lia. }
  rewrite B.
  assert (P : skip_parens (loop_fuel s) s (len pre) q = q).
  { unfold loop_fuel. cbn [skip_parens]. unfold py_count. rewrite S2.
    change (c0 :: e ++ [ch ","]) with ([c0] ++ e ++ [ch ","]).
    rewrite !(count_char_app _ [c0]), !(count_char_app _ e).
    rewrite (count_char_absent _ e Hpo), (count_char_absent _ e Hpc).
    assert (C1 : count_char (ch "(") [c0] = 0 /\ count_char (ch ")") [c0] = 0).
    { unfold one_of in Hc0. simpl in Hc0. apply orb_false_iff in Hc0 as [A B0].
      apply orb_false_iff in B0 as [B0 _]. simpl. rewrite A, B0. auto. }
    destruct C1 as [-> ->].
    change (count_char (ch "(") [ch ","]) with 0.
    change (count_char (ch ")") [ch ","]) with 0.
    reflexivity. }
  rewrite P. unfold q.
  replace s with ((pre ++ c0 :: e) ++ [] ++ ch "," :: rest)
    by (rewrite Hs, <- app_assoc; reflexivity).
  rewrite py_find_after by (intros []). change (len []) with 0. lia.
Qed.
Lemma plain_element_no_brace c e :
  plain_element e = true -> one_of "{}" c = true -> count_char c e = 0.
Proof.
  intros He Hc. apply count_char_absent. apply (none_of_not_in ",{}()" c e He).
  unfold one_of in *. simpl in *.
  apply orb_true_iff in Hc as [Hc|Hc]; [rewrite Hc, ?orb_true_r; reflexivity|].
  apply orb_true_iff in Hc as [Hc|Hc]; [rewrite Hc, ?orb_true_r; reflexivity|discriminate].
Qed.

Lemma plain_char_no_paren c : none_of ",{}()" c = true -> one_of "()" c = false.
Proof. destruct c as [[] [] [] [] [] [] [] []]; vm_compute; congruence. Qed.

(** The turns of the inner loop over the elements of a flat initialiser. *)
Lemma iterate_flat s d : forall k es pre c0 e tail,
  s = pre ++ c0 :: e ++ concat (map (cons (ch ",")) es) ++ tail ->
  plain_element e = true -> Forall (fun x => plain_element x = true) es ->
  one_of "()" c0 = false ->
  count_char (ch "{") (pre ++ [c0]) - count_char (ch "}") (pre ++ [c0]) <= d + 1 ->
  (k <= length es)%nat ->
  iterate k (next_separator s d) (len pre)
  = len (pre ++ match k with
                | O => []
                | S k' => c0 :: e ++ concat (map (cons (ch ",")) (firstn k' es))
                end).
Proof.
  induction k as [|k IH]; intros es pre c0 e tail Hs He Hes Hc0 Hbal Hk.
  - simpl. rewrite app_nil_r. reflexivity.
  - destruct es as [|e1 es]; [simpl in Hk; lia|].
    apply Forall_cons_iff in Hes as [He1 Hes'].
    cbn [iterate].
    rewrite (next_separator_flat s pre c0 e (e1 ++ concat (map (cons (ch ",")) es) ++ tail) d);
      [| rewrite Hs; simpl; rewrite <- app_assoc; reflexivity | exact He | exact Hc0 | exact Hbal].
    rewrite (IH es (pre ++ c0 :: e) (ch ",") e1 tail).
    + f_equal. destruct k as [|k]; simpl.
      * rewrite !app_nil_r. reflexivity.
      * rewrite <- ?app_assoc. simpl. rewrite <- ?app_assoc. reflexivity.
    + rewrite Hs. simpl. rewrite <- ?app_assoc. simpl. rewrite <- ?app_assoc. reflexivity.
    + exact He1.
    + exact Hes'.
    + reflexivity.
    + replace ((pre ++ c0 :: e) ++ [ch ","]) with ((pre ++ [c0]) ++ e ++ [ch ","])
        by (rewrite <- !app_assoc; reflexivity).
      rewrite !(count_char_app _ (pre ++ [c0])), !(count_char_app _ e).
      rewrite (plain_element_no_brace (ch "{") e He eq_refl).
      rewrite (plain_element_no_brace (ch "}") e He eq_refl).
      change (count_char (ch "{") [ch ","]) with 0.
      change (count_char (ch "}") [ch ","]) with 0. lia.
    + simpl in Hk. lia.
Qed.

Lemma elements_split e0 es k :
  (k <= length es)%nat ->
  e0 ++ concat (map (cons (ch ",")) es) = elements_before e0 es k ++ elements_from e0 es k.
Proof.
  intros Hk. destruct k as [|k]; simpl; [reflexivity|].
  rewrite <- app_assoc. f_equal.
  rewrite <- concat_app, <- map_app, firstn_skipn. reflexivity.
Qed.

(** The locator on a definition with a flat initialiser. *)
Lemma find_index_on_flat (h1 h2 e0 : pystr) (es : list pystr) (tail : pystr) (k : nat) :
  forallb (none_of "={}") h1 = true ->
  forallb (none_of "{}") h2 = true ->
  e0 <> [] ->
  Forall (fun e => plain_element e = true) (e0 :: es) ->
  (k <= length es)%nat ->
  find_index (flat_array h1 h2 e0 es tail) [Z.of_nat k]
  = len (h1 ++ ch "=" :: h2 ++ [ch "{"]) + len (elements_before e0 es k)
  /\ slice_from (flat_array h1 h2 e0 es tail)
       (find_index (flat_array h1 h2 e0 es tail) [Z.of_nat k])
     = elements_from e0 es k ++ tail.
Proof.
  intros Hh1 Hh2 Hne Hplain Hk.
  apply Forall_cons_iff in Hplain as [He0 Hes].
  destruct e0 as [|c0 e]; [congruence|].
  assert (Hc0 : plain_element [c0] = true /\ plain_element e = true).
  { unfold plain_element in *. simpl in He0. apply andb_true_iff in He0 as [A B].
    simpl. rewrite A. auto. }
  destruct Hc0 as [Hc0 He].
  set (s := flat_array h1 h2 (c0 :: e) es tail).
  set (pre := h1 ++ ch "=" :: h2 ++ [ch "{"]).
  assert (Hs : s = pre ++ c0 :: e ++ concat (map (cons (ch ",")) es) ++ tail).
  { unfold s, pre, flat_array. rewrite <- !app_assoc. simpl. rewrite <- !app_assoc. reflexivity. }
  assert (Heq : py_find s [ch "="] 0 = len h1).
  { change 0 with (len []). unfold s, flat_array.
    change (h1 ++ ch "=" :: ?x) with ([] ++ h1 ++ ch "=" :: x).
    apply py_find_after. apply (none_of_not_in "={}"); auto. }
  assert (Hbr : py_find s [ch "{"] (len h1) = len (h1 ++ ch "=" :: h2)).
  { unfold s, flat_array.
    assert (N : ~ In (ch "{") (ch "=" :: h2)).
    { intros [H|H]; [discriminate|]. revert H. apply (none_of_not_in "{}"); auto. }
    pose proof (py_find_after h1 (ch "=" :: h2) (ch "{")
                  ((c0 :: e) ++ concat (map (cons (ch ",")) es) ++ tail) N) as F.
    simpl app in F. simpl app. rewrite F. rewrite len_app. reflexivity. }
  assert (Hfind : find_index s [Z.of_nat k]
                  = len (pre ++ match k with
                                | O => []
                                | S k' => c0 :: e ++ concat (map (cons (ch ",")) (firstn k' es))
                                end)).
  { unfold find_index. rewrite Heq, Hbr. cbn [walk_dims]. rewrite Nat2Z.id.
    replace (len (h1 ++ ch "=" :: h2) + 1) with (len pre)
      by (unfold pre; rewrite !len_app; unfold len; simpl length;
          rewrite length_app; simpl; lia).
    apply (iterate_flat s 0 k es pre c0 e tail Hs He Hes).
    - apply plain_char_no_paren. unfold plain_element in Hc0. simpl in Hc0.
      rewrite andb_true_r in Hc0. exact Hc0.
    - unfold pre.
      replace ((h1 ++ ch "=" :: h2 ++ [ch "{"]) ++ [c0])
        with (h1 ++ (ch "=" :: h2) ++ [ch "{"] ++ [c0])
        by (rewrite <- !app_assoc; simpl; rewrite <- !app_assoc; reflexivity).
      rewrite !count_char_app.
      rewrite (count_char_absent (ch "{") h1) by (apply (none_of_not_in "={}"); auto).
      rewrite (count_char_absent (ch "}") h1) by (apply (none_of_not_in "={}"); auto).
      rewrite (count_char_absent (ch "{") (ch "=" :: h2))
        by (intros [H|H]; [discriminate|]; revert H; apply (none_of_not_in "{}"); auto).
      rewrite (count_char_absent (ch "}") (ch "=" :: h2))
        by (intros [H|H]; [discriminate|]; revert H; apply (none_of_not_in "{}"); auto).
      rewrite (plain_element_no_brace (ch "{") [c0] Hc0 eq_refl).
      rewrite (plain_element_no_brace (ch "}") [c0] Hc0 eq_refl).
      change (count_char (ch "{") [ch "{"]) with 1.
      change (count_char (ch "}") [ch "{"]) with 0. lia.
    - exact Hk. }
  assert (Hbefore : match k with
                    | O => []
                    | S k' => c0 :: e ++ concat (map (cons (ch ",")) (firstn k' es))
                    end = elements_before (c0 :: e) es k)
    by (destruct k; reflexivity).
  rewrite Hbefore in Hfind. split.
  - rewrite Hfind, len_app. reflexivity.
  - rewrite Hfind.
    replace s with ((pre ++ elements_before (c0 :: e) es k)
                    ++ elements_from (c0 :: e) es k ++ tail).
    + apply slice_from_app.
    + rewrite Hs. rewrite <- !app_assoc. f_equal.
      rewrite (app_assoc (elements_before (c0 :: e) es k)).
      rewrite <- (elements_split (c0 :: e) es k Hk).
      simpl. rewrite <- app_assoc. reflexivity.
Qed.

(** X11. On a definition with a flat initialiser (a head that holds the
    [=] and no brace, and elements without commas and brackets, the first
    of them not empty) the locator gives for the index [k] the offset of
    the comma in front of element [k], and for the index [0] the offset of
    the first element: the text from its result on is the initialiser from
    that comma, or from the first element, on. *)
Theorem find_index_flat (h1 h2 e0 : pystr) (es : list pystr) (tail : pystr) (k : nat) :
  forallb (none_of "={}") h1 = true ->
  forallb (none_of "{}") h2 = true ->
  e0 <> [] ->
  Forall (fun e => plain_element e = true) (e0 :: es) ->
  (k <= length es)%nat ->
  find_index (flat_array h1 h2 e0 es tail) [Z.of_nat k]
  = len (h1 ++ ch "=" :: h2 ++ [ch "{"]) + len (elements_before e0 es k)
  /\ slice_from (flat_array h1 h2 e0 es tail)
       (find_index (flat_array h1 h2 e0 es tail) [Z.of_nat k])
     = elements_from e0 es k ++ tail.
Proof. apply find_index_on_flat. Qed.

Lemma find_index_flat_witness :
  find_index (flat_array (py "int razor[2] ") (py " ") (py "100") [py " 200"] (py "};"))
    [Z.of_nat 1]
  = len (py "int razor[2] " ++ ch "=" :: py " " ++ [ch "{"])
    + len (elements_before (py "100") [py " 200"] 1)
  /\ slice_from (flat_array (py "int razor[2] ") (py " ") (py "100") [py " 200"] (py "};"))
       (find_index (flat_array (py "int razor[2] ") (py " ") (py "100") [py " 200"] (py "};"))
          [Z.of_nat 1])
     = elements_from (py "100") [py " 200"] 1 ++ py "};".
Proof.
  apply (find_index_flat (py "int razor[2] ") (py " ") (py "100") [py " 200"] (py "};") 1).
  - reflexivity.
  - reflexivity.
  - discriminate.
  - repeat constructor.
  - simpl. lia.
Defined.

(** ** Reading a line of a tuning report *)

Lemma exec_bol_start st k : prev st = None -> exec Bol st k = k st.
Proof. intros H. simpl. rewrite H. reflexivity. Qed.

(** X12. A line of a tuning report, [param: NAME INDICES, best: NEW,
    start: OLD], is read into its four parts: blanks before it are passed
    over, the name is the run of word characters, the indices are what
    follows up to the comma, and the two values are the runs of word
    characters, dots and dashes; what follows the old value is not looked
    at. *)
Theorem read_spsa_line_parts (lead name indices value_new value_old more : pystr) :
  forallb is_space lead = true ->
  forallb is_word name = true ->
  forallb index_char indices = true ->
  match indices with c :: _ => is_word c = false | [] => True end ->
  forallb value_char value_new = true ->
  forallb value_char value_old = true ->
  match more with c :: _ => value_char c = false | [] => True end ->
  read_spsa_line (spsa_line lead name indices value_new value_old more)
  = Some (mkInput name indices value_new value_old).
Proof.
  intros Hlead Hname Hidx Hidx0 Hnew Hold Hrest.
  set (s := spsa_line lead name indices value_new value_old more).
  set (st0 := start_state s).
  set (st1 := eat (py "param: ") (eat lead st0)).
  set (st2 := close_group "name" (pos st1) (eat name st1)).
  set (st3 := close_group "indices" (pos st2) (eat indices st2)).
  set (st4 := eat (py ", best: ") st3).
  set (st5 := close_group "value_new" (pos st4) (eat value_new st4)).
  set (st6 := eat (py ", start: ") st5).
  set (st7 := close_group "value_old" (pos st6) (eat value_old st6)).
  assert (R0 : rest st0 = lead ++ py "param: " ++ name ++ indices ++ py ", best: "
                           ++ value_new ++ py ", start: " ++ value_old ++ more)
    by reflexivity.
  assert (R1 : Re.rest st1 = name ++ indices ++ py ", best: " ++ value_new
                             ++ py ", start: " ++ value_old ++ more).
  { unfold st1. apply (eat_rest (py "param: ")). apply (eat_rest lead). exact R0. }
  assert (R2 : Re.rest st2 = indices ++ py ", best: " ++ value_new
                             ++ py ", start: " ++ value_old ++ more).
  { unfold st2. simpl. apply (eat_rest name). exact R1. }
  assert (R3 : Re.rest st3 = py ", best: " ++ value_new ++ py ", start: " ++ value_old ++ more).
  { unfold st3. simpl. apply (eat_rest indices). exact R2. }
  assert (R4 : Re.rest st4 = value_new ++ py ", start: " ++ value_old ++ more).
  { unfold st4. apply (eat_rest (py ", best: ")). exact R3. }
  assert (R5 : Re.rest st5 = py ", start: " ++ value_old ++ more).
  { unfold st5. simpl. apply (eat_rest value_new). exact R4. }
  assert (R6 : Re.rest st6 = value_old ++ more).
  { unfold st6. apply (eat_rest (py ", start: ")). exact R5. }
  assert (E : exec spsa_line_pattern st0 Some = Some st7).
  { unfold spsa_line_pattern. rewrite exec_seq, exec_bol_start by reflexivity.
    rewrite exec_seq.
    apply (star_chr_longest is_space _ lead
             (py "param: " ++ name ++ indices ++ py ", best: " ++ value_new
              ++ py ", start: " ++ value_old ++ more)); [exact Hlead|exact R0|reflexivity|].
    rewrite exec_seq.
    rewrite (exec_lit (py "param: ") (name ++ indices ++ py ", best: " ++ value_new
                                      ++ py ", start: " ++ value_old ++ more))
      by (apply (eat_rest lead); exact R0).
    fold st1. rewrite exec_seq, exec_grp.
    apply (star_chr_longest is_word _ name
             (indices ++ py ", best: " ++ value_new ++ py ", start: " ++ value_old ++ more));
      [exact Hname|exact R1| |].
    { destruct indices as [|c t]; [reflexivity|exact Hidx0]. }
    fold st2. rewrite exec_seq, exec_grp.
    apply (star_chr_longest _ _ indices
             (py ", best: " ++ value_new ++ py ", start: " ++ value_old ++ more));
      [exact Hidx|exact R2|reflexivity|].
    fold st3. rewrite exec_seq.
    rewrite (exec_lit (py ", best: ") (value_new ++ py ", start: " ++ value_old ++ more))
      by exact R3.
    fold st4. rewrite exec_seq, exec_grp.
    apply (star_chr_longest _ _ value_new (py ", start: " ++ value_old ++ more));
      [exact Hnew|exact R4|reflexivity|].
    fold st5. rewrite exec_seq.
    rewrite (exec_lit (py ", start: ") (value_old ++ more)) by exact R5.
    fold st6. rewrite exec_grp.
    apply (star_chr_longest _ _ value_old more); [exact Hold|exact R6|exact Hrest|].
    reflexivity. }
  unfold read_spsa_line, match_. fold s. fold st0. rewrite E.
  assert (P1 : pos st1 = (length (lead ++ py "param: "))%nat).
  { unfold st1. rewrite !eat_pos, length_app. reflexivity. }
  assert (P2 : pos st2 = (length (lead ++ py "param: ") + length name)%nat).
  { unfold st2. simpl. rewrite eat_pos, P1. reflexivity. }
  assert (P3 : pos st3 = (length ((lead ++ py "param: ") ++ name) + length indices)%nat).
  { unfold st3. simpl. rewrite eat_pos, P2, (length_app (lead ++ py "param: ")). reflexivity. }
  assert (P4 : pos st4 = length (((lead ++ py "param: ") ++ name) ++ indices ++ py ", best: ")).
  { unfold st4. rewrite eat_pos, P3, !length_app. simpl. lia. }
  assert (P5 : pos st5 = (length (((lead ++ py "param: ") ++ name) ++ indices ++ py ", best: ")
                          + length value_new)%nat).
  { unfold st5. simpl. rewrite eat_pos, P4. reflexivity. }
  assert (P6 : pos st6 = length ((((lead ++ py "param: ") ++ name) ++ indices ++ py ", best: ")
                                 ++ value_new ++ py ", start: ")).
  { unfold st6. rewrite eat_pos, P5, !length_app. simpl. lia. }
  assert (P7 : pos st7 = (length ((((lead ++ py "param: ") ++ name) ++ indices ++ py ", best: ")
                                  ++ value_new ++ py ", start: ")
                          + length value_old)%nat).
  { unfold st7. simpl. rewrite eat_pos, P6. reflexivity. }
  assert (C : caps st7 = [("value_old"%string, (pos st6, pos st7));
                          ("value_new"%string, (pos st4, pos st5));
                          ("indices"%string, (pos st2, pos st3));
                          ("name"%string, (pos st1, pos st2))]).
  { assert (C1 : caps st1 = []) by (unfold st1; rewrite !eat_caps; reflexivity).
    assert (C2 : caps st2 = [("name"%string, (pos st1, pos st2))])
      by (unfold st2; cbn [caps close_group pos]; rewrite eat_caps, C1; reflexivity).
    assert (C3 : caps st3 = [("indices"%string, (pos st2, pos st3));
                             ("name"%string, (pos st1, pos st2))])
      by (unfold st3; cbn [caps close_group pos]; rewrite eat_caps, C2; reflexivity).
    assert (C4 : caps st4 = caps st3) by (unfold st4; apply eat_caps).
    assert (C5 : caps st5 = ("value_new"%string, (pos st4, pos st5)) :: caps st3)
      by (unfold st5; cbn [caps close_group pos]; rewrite eat_caps, C4; reflexivity).
    assert (C6 : caps st6 = caps st5) by (unfold st6; apply eat_caps).
    unfold st7. cbn [caps close_group pos]. rewrite eat_caps, C6, C5, C3. reflexivity. }
  unfold group. cbn [m_caps m_string]. rewrite C. cbn [lookup String.eqb Ascii.eqb Bool.eqb].
  assert (G1 : substr s (pos st1) (pos st2) = name).
  { rewrite P1, P2. unfold s, spsa_line.
    rewrite (app_assoc lead). apply substr_middle. }
  assert (G2 : substr s (pos st2) (pos st3) = indices).
  { rewrite P3. replace (pos st2) with (length ((lead ++ py "param: ") ++ name))
      by (rewrite P2, (length_app (lead ++ py "param: ")); reflexivity).
    unfold s, spsa_line.
    rewrite (app_assoc lead), (app_assoc (lead ++ py "param: ")). apply substr_middle. }
  assert (G3 : substr s (pos st4) (pos st5) = value_new).
  { rewrite P5, P4. unfold s, spsa_line.
    replace (lead ++ py "param: " ++ name ++ indices ++ py ", best: " ++ value_new
             ++ py ", start: " ++ value_old ++ more)
      with ((((lead ++ py "param: ") ++ name) ++ indices ++ py ", best: ")
            ++ value_new ++ py ", start: " ++ value_old ++ more)
      by (rewrite <- !app_assoc; reflexivity).
    apply substr_middle. }
  assert (G4 : substr s (pos st6) (pos st7) = value_old).
  { rewrite P7, P6. unfold s, spsa_line.
    replace (lead ++ py "param: " ++ name ++ indices ++ py ", best: " ++ value_new
             ++ py ", start: " ++ value_old ++ more)
      with (((((lead ++ py "param: ") ++ name) ++ indices ++ py ", best: ")
             ++ value_new ++ py ", start: ")
            ++ value_old ++ more)
      by (rewrite <- !app_assoc; reflexivity).
    apply substr_middle. }
  rewrite G1, G2, G3, G4. reflexivity.
Qed.

Lemma read_spsa_line_parts_witness :
  read_spsa_line (spsa_line (py "  ") (py "mBonus") (py "[1][PAWN]") (py "12.5") (py "-10") [LF])
  = Some (mkInput (py "mBonus") (py "[1][PAWN]") (py "12.5") (py "-10")).
Proof.
  apply (read_spsa_line_parts (py "  ") (py "mBonus") (py "[1][PAWN]") (py "12.5") (py "-10") [LF]);
    reflexivity.
Defined.

(** ** What the aligner does to a text *)

Lemma tidy_gaps N ls : Forall (tidy_line N) ls -> Forall (gaps_le N 0) ls.
Proof. intros H. eapply Forall_impl; [|exact H]. intros l (_ & G & _). exact G. Qed.

Lemma stretch_blank_free l l' :
  stretch l l' ->
  filter (fun c => negb (Ascii.eqb c SP)) l' = filter (fun c => negb (Ascii.eqb c SP)) l.
Proof.
  induction 1; simpl; [reflexivity| |exact IHstretch].
  destruct (negb (Ascii.eqb c SP)); [f_equal|]; exact IHstretch.
Qed.

Lemma pass_stretch ls :
  Forall no_break ls ->
  Forall2 stretch ls (pass ls) /\ Forall no_break (pass ls).
Proof.
  intros H.
  assert (T : Forall (tidy_line (list_max (map (@length ascii) ls))) ls).
  { assert (Hm : Forall (fun l => length l <= list_max (map (@length ascii) ls))%nat ls).
    { pose proof (proj1 (list_max_le (map (@length ascii) ls) _) (Nat.le_refl _)) as L.
      rewrite Forall_map in L. exact L. }
    revert Hm. generalize (list_max (map (@length ascii) ls)). intros N Hm.
    induction H as [|l ls Hl Hls IH]; [constructor|].
    apply Forall_cons_iff in Hm as [Hm1 Hm2].
    constructor; [|apply IH; exact Hm2].
    split; [exact Hl|]. split; [apply gaps_le_short; simpl; exact Hm1|].
    pose proof (filter_length_le is_delimiter l). lia. }
  destruct (pass_tidy _ ls T) as [F T'].
  split; [exact F|]. eapply Forall_impl; [|exact T']. intros l (B & _). exact B.
Qed.

(** X13. One pass of [align] gives the lines of its text joined by line
    feeds, each line with blanks put in and otherwise as it was: the lines
    are as many as before, none has become shorter, the characters of a
    line that are no blanks are the same in the same order, and no line
    holds a line break. *)
Theorem align_only_pads (x : pystr) :
  exists ls,
    align x = join [LF] ls
    /\ Forall2 stretch (splitlines x) ls
    /\ Forall2 (fun l l' =>
                  (length l <= length l')%nat
                  /\ filter (fun c => negb (Ascii.eqb c SP)) l'
                     = filter (fun c => negb (Ascii.eqb c SP)) l) (splitlines x) ls
    /\ Forall no_break ls.
Proof.
  exists (pass (splitlines x)).
  destruct (pass_stretch (splitlines x) (splitlines_no_break x)) as [F B].
  split; [reflexivity|]. split; [exact F|]. split; [|exact B].
  clear B. induction F as [|l l' ls ls' S F IH]; [constructor|].
  constructor; [|exact IH].
  split; [apply stretch_length; exact S|apply stretch_blank_free; exact S].
Qed.

(** ** The aligner on a definition *)











(** ** Which definition is found *)






(** ** Index paths *)

Lemma digits_bracket_free ds : forallb is_digit ds = true -> bracket_free ds = true.
Proof.
  unfold bracket_free. intros H. rewrite forallb_forall in *. intros c Hc.
  specialize (H c Hc). revert H.
  destruct c as [[] [] [] [] [] [] [] []]; vm_compute; congruence.
Qed.

Lemma str_of_int_token n :
  bracket_free (str_of_int n) = true /\ str_of_int n <> [].
Proof.
  destruct (str_of_int_shape n) as (ds & Hne & Hds & [(_ & -> & _)|(_ & -> & _)]).
  - split; [apply digits_bracket_free; exact Hds|exact Hne].
  - split; [|discriminate]. unfold bracket_free. simpl.
    apply (digits_bracket_free ds Hds).
Qed.

Lemma resolve_index_int w n : resolve_index w (str_of_int n) = Ret n.
Proof. unfold resolve_index. rewrite (proj1 (int_of_str_of_int n 0)). reflexivity. Qed.

Lemma index_text_cons n l t :
  index_text (n :: l) ++ t = [] ++ ch "[" :: str_of_int n ++ ch "]" :: (index_text l ++ t).
Proof.
  unfold index_text. cbn [map concat app]. rewrite <- !app_assoc. reflexivity.
Qed.

Lemma index_text_groups w l : index_groups w (index_text l) l.
Proof.
  induction l as [|n l IH]; [constructor|].
  rewrite <- (app_nil_r (index_text (n :: l))), index_text_cons, app_nil_r.
  destruct (str_of_int_token n) as [Hb Hne].
  apply (groups_cons w [] (str_of_int n) n (index_text l) l); auto.
  apply resolve_index_int.
Qed.

(** X17. An index path written out with every index in brackets and in
    decimal is read back as the path, whatever the repository holds and
    whatever follows the last bracket group, as long as that holds no
    further group: ['[1][2][3]' -> [1, 2, 3]]. *)
Theorem parse_indices_of_index_text (w : world) (l : list Z) (more : pystr) :
  malformed_group more ->
  parse_indices w (index_text l ++ more) = Ret l.
Proof.
  intros H. unfold parse_indices.
  apply (parse_indices_groups w (index_text l) l (index_text_groups w l) more _ [] H).
  lia.
Qed.

Lemma parse_indices_of_index_text_witness :
  parse_indices razor_world (index_text [1; -2; 30] ++ py " ") = Ret [1; -2; 30].
Proof.
  apply (parse_indices_of_index_text razor_world [1; -2; 30] (py " ")).
  apply no_opening. simpl. intros [H|[]]. discriminate.
Defined.



(** ** What a line that is read as a report line holds *)

Lemma star_class_sound p k st res :
  exec (Star true (Chr p)) st k = Some res ->
  exists w t, rest st = w ++ t /\ forallb p w = true /\ k (eat w st) = Some res.
Proof. apply (star_chr_sound p k (length (rest st))). reflexivity. Qed.

(** The groups of a match of [spsa_line_pattern] whose run went through
    the parts of a report line. *)
Lemma spsa_line_groups lead name indices value_new value_old more :
  let s := spsa_line lead name indices value_new value_old more in
  let st1 := eat (py "param: ") (eat lead (start_state s)) in
  let st2 := close_group "name" (pos st1) (eat name st1) in
  let st3 := close_group "indices" (pos st2) (eat indices st2) in
  let st4 := eat (py ", best: ") st3 in
  let st5 := close_group "value_new" (pos st4) (eat value_new st4) in
  let st6 := eat (py ", start: ") st5 in
  let st7 := close_group "value_old" (pos st6) (eat value_old st6) in
  match group (mkMatch s O (pos st7) (caps st7)) "name",
        group (mkMatch s O (pos st7) (caps st7)) "indices",
        group (mkMatch s O (pos st7) (caps st7)) "value_new",
        group (mkMatch s O (pos st7) (caps st7)) "value_old" with
  | Some n, Some i, Some vn, Some vo => Some (mkInput n i vn vo)
  | _, _, _, _ => None
  end = Some (mkInput name indices value_new value_old).
Proof.
  intros s st1 st2 st3 st4 st5 st6 st7.
  assert (P1 : pos st1 = (length (lead ++ py "param: "))%nat).
  { unfold st1. rewrite !eat_pos, length_app. reflexivity. }
  assert (P2 : pos st2 = (length (lead ++ py "param: ") + length name)%nat).
  { unfold st2. simpl. rewrite eat_pos, P1. reflexivity. }
  assert (P3 : pos st3 = (length ((lead ++ py "param: ") ++ name) + length indices)%nat).
  { unfold st3. simpl. rewrite eat_pos, P2, (length_app (lead ++ py "param: ")). reflexivity. }
  assert (P4 : pos st4 = length (((lead ++ py "param: ") ++ name) ++ indices ++ py ", best: ")).
  { unfold st4. rewrite eat_pos, P3, !length_app. simpl. lia. }
  assert (P5 : pos st5 = (length (((lead ++ py "param: ") ++ name) ++ indices ++ py ", best: ")
                          + length value_new)%nat).
  { unfold st5. simpl. rewrite eat_pos, P4. reflexivity. }
  assert (P6 : pos st6 = length ((((lead ++ py "param: ") ++ name) ++ indices ++ py ", best: ")
                                 ++ value_new ++ py ", start: ")).
  { unfold st6. rewrite eat_pos, P5, !length_app. simpl. lia. }
  assert (P7 : pos st7 = (length ((((lead ++ py "param: ") ++ name) ++ indices ++ py ", best: ")
                                  ++ value_new ++ py ", start: ")
                          + length value_old)%nat).
  { unfold st7. simpl. rewrite eat_pos, P6. reflexivity. }
  assert (C : caps st7 = [("value_old"%string, (pos st6, pos st7));
                          ("value_new"%string, (pos st4, pos st5));
                          ("indices"%string, (pos st2, pos st3));
                          ("name"%string, (pos st1, pos st2))]).
  { assert (C1 : caps st1 = []) by (unfold st1; rewrite !eat_caps; reflexivity).
    assert (C2 : caps st2 = [("name"%string, (pos st1, pos st2))])
      by (unfold st2; cbn [caps close_group pos]; rewrite eat_caps, C1; reflexivity).
    assert (C3 : caps st3 = [("indices"%string, (pos st2, pos st3));
                             ("name"%string, (pos st1, pos st2))])
      by (unfold st3; cbn [caps close_group pos]; rewrite eat_caps, C2; reflexivity).
    assert (C4 : caps st4 = caps st3) by (unfold st4; apply eat_caps).
    assert (C5 : caps st5 = ("value_new"%string, (pos st4, pos st5)) :: caps st3)
      by (unfold st5; cbn [caps close_group pos]; rewrite eat_caps, C4; reflexivity).
    assert (C6 : caps st6 = caps st5) by (unfold st6; apply eat_caps).
    unfold st7. cbn [caps close_group pos]. rewrite eat_caps, C6, C5, C3. reflexivity. }
  unfold group. cbn [m_caps m_string]. rewrite C. cbn [lookup String.eqb Ascii.eqb Bool.eqb].
  assert (G1 : substr s (pos st1) (pos st2) = name).
  { rewrite P1, P2. unfold s, spsa_line.
    rewrite (app_assoc lead). apply substr_middle. }
  assert (G2 : substr s (pos st2) (pos st3) = indices).
  { rewrite P3. replace (pos st2) with (length ((lead ++ py "param: ") ++ name))
      by (rewrite P2, (length_app (lead ++ py "param: ")); reflexivity).
    unfold s, spsa_line.
    rewrite (app_assoc lead), (app_assoc (lead ++ py "param: ")). apply substr_middle. }
  assert (G3 : substr s (pos st4) (pos st5) = value_new).
  { rewrite P5, P4. unfold s, spsa_line.
    replace (lead ++ py "param: " ++ name ++ indices ++ py ", best: " ++ value_new
             ++ py ", start: " ++ value_old ++ more)
      with ((((lead ++ py "param: ") ++ name) ++ indices ++ py ", best: ")
            ++ value_new ++ py ", start: " ++ value_old ++ more)
      by (rewrite <- !app_assoc; reflexivity).
    apply substr_middle. }
  assert (G4 : substr s (pos st6) (pos st7) = value_old).
  { rewrite P7, P6. unfold s, spsa_line.
    replace (lead ++ py "param: " ++ name ++ indices ++ py ", best: " ++ value_new
             ++ py ", start: " ++ value_old ++ more)
      with (((((lead ++ py "param: ") ++ name) ++ indices ++ py ", best: ")
             ++ value_new ++ py ", start: ")
            ++ value_old ++ more)
      by (rewrite <- !app_assoc; reflexivity).
    apply substr_middle. }
  rewrite G1, G2, G3, G4. reflexivity.
Qed.

(** X19. Whatever is read as a line of a tuning report has the form of
    one: blanks, [param: ], a name of word characters, indices of
    brackets, word characters and blanks, [, best: ], a value, [, start: ]
    and a value, both of word characters, dots and dashes. The parts that
    the patcher is given are those of the line. *)
Theorem read_spsa_line_form (line : pystr) (inp : spsa_input) :
  read_spsa_line line = Some inp ->
  exists lead more,
    line = spsa_line lead (name inp) (indices inp) (value_new inp) (value_old inp) more
    /\ forallb is_space lead = true
    /\ forallb is_word (name inp) = true
    /\ forallb index_char (indices inp) = true
    /\ forallb value_char (value_new inp) = true
    /\ forallb value_char (value_old inp) = true.
Proof.
  unfold read_spsa_line, match_. intros H.
  destruct (exec spsa_line_pattern (start_state line) Some) as [res|] eqn:E; [|discriminate].
  unfold spsa_line_pattern in E.
  rewrite exec_seq, exec_bol_start in E by reflexivity.
  rewrite exec_seq in E.
  apply star_class_sound in E as (lead & t0 & R0 & Hlead & E).
  rewrite exec_seq in E.
  apply exec_lit_inv in E as (t1 & R1 & E).
  rewrite (eat_rest lead t0 _ R0) in R1. subst t0.
  rewrite exec_seq, exec_grp in E.
  apply star_class_sound in E as (nm & t2 & R2 & Hname & E).
  rewrite (eat_rest (py "param: ") t1) in R2 by (apply (eat_rest lead); exact R0).
  subst t1.
  rewrite exec_seq, exec_grp in E.
  apply star_class_sound in E as (ix & t3 & R3 & Hidx & E).
  cbn [rest close_group] in R3.
  rewrite (eat_rest nm t2) in R3
    by (apply (eat_rest (py "param: ")); apply (eat_rest lead); exact R0).
  subst t2.
  rewrite exec_seq in E.
  apply exec_lit_inv in E as (t4 & R4 & E).
  cbn [rest close_group] in R4.
  set (st1 := eat (py "param: ") (eat lead (start_state line))) in *.
  set (st2 := close_group "name" (pos st1) (eat nm st1)) in *.
  assert (Q2 : rest st2 = ix ++ t3).
  { unfold st2. cbn [rest close_group]. apply (eat_rest nm). unfold st1.
    apply (eat_rest (py "param: ")). apply (eat_rest lead). exact R0. }
  rewrite (eat_rest ix t3 st2 Q2) in R4. subst t3.
  set (st3 := close_group "indices" (pos st2) (eat ix st2)) in *.
  assert (Q3 : rest st3 = py ", best: " ++ t4).
  { unfold st3. cbn [rest close_group]. apply (eat_rest ix). exact Q2. }
  set (st4 := eat (py ", best: ") st3) in *.
  rewrite exec_seq, exec_grp in E.
  apply star_class_sound in E as (vn & t5 & R5 & Hnew & E).
  assert (Q4 : rest st4 = t4) by (apply (eat_rest (py ", best: ")); exact Q3).
  rewrite Q4 in R5. subst t4.
  rewrite exec_seq in E.
  apply exec_lit_inv in E as (t6 & R6 & E).
  cbn [rest close_group] in R6.
  rewrite (eat_rest vn t5 st4 Q4) in R6. subst t5.
  set (st5 := close_group "value_new" (pos st4) (eat vn st4)) in *.
  assert (Q5 : rest st5 = py ", start: " ++ t6).
  { unfold st5. cbn [rest close_group]. apply (eat_rest vn). exact Q4. }
  set (st6 := eat (py ", start: ") st5) in *.
  rewrite exec_grp in E.
  apply star_class_sound in E as (vo & more & R7 & Hold & E).
  assert (Q6 : rest st6 = t6) by (apply (eat_rest (py ", start: ")); exact Q5).
  rewrite Q6 in R7. subst t6.
  injection E as <-.
  assert (Hline : line = spsa_line lead nm ix vn vo more).
  { unfold spsa_line. exact R0. }
  pose proof (spsa_line_groups lead nm ix vn vo more) as G. cbv zeta in G.
  rewrite <- Hline in G.
  pose proof (eq_trans (eq_sym G) H) as Heq. injection Heq as <-.
  cbn [name indices value_new value_old].
  exists lead, more. auto 7.
Qed.

Lemma read_spsa_line_form_witness :
  exists lead more,
    py "param: razor[1], best: 250, start: 200"
    = spsa_line lead (name razor_request) (indices razor_request)
        (value_new razor_request) (value_old razor_request) more
    /\ forallb is_space lead = true
    /\ forallb is_word (name razor_request) = true
    /\ forallb index_char (indices razor_request) = true
    /\ forallb value_char (value_new razor_request) = true
    /\ forallb value_char (value_old razor_request) = true.
Proof.
  apply (read_spsa_line_form (py "param: razor[1], best: 250, start: 200") razor_request).
  vm_compute. reflexivity.
Defined.

(** ** Definitions without braces *)

Lemma word_head_no_token x :
  is_word x = true -> is_digit x = false ->
  blank x = false /\ dash_digit x = false /\ not_newline x = true
  /\ Ascii.eqb (ch "#") x = false /\ Ascii.eqb (ch "/") x = false.
Proof. destruct x as [[] [] [] [] [] [] [] []]; vm_compute; intuition congruence. Qed.

Lemma blank_no_token b :
  blank b = true ->
  is_word b = false /\ dash_digit b = false /\ not_newline b = true
  /\ Ascii.eqb (ch "#") b = false /\ Ascii.eqb (ch "/") b = false
  /\ Ascii.eqb (ch "V") b = false.
Proof. destruct b as [[] [] [] [] [] [] [] []]; vm_compute; intuition congruence. Qed.

Lemma space_no_word c :
  is_space c = true -> is_word c = false /\ Ascii.eqb (ch "(") c = false.
Proof. destruct c as [[] [] [] [] [] [] [] []]; vm_compute; intuition congruence. Qed.

Lemma word_no_paren x : is_word x = true -> Ascii.eqb (ch "(") x = false.
Proof. destruct x as [[] [] [] [] [] [] [] []]; vm_compute; congruence. Qed.

Lemma plus_fails p st k x t :
  rest st = x :: t -> p x = false -> exec (plus (Chr p)) st k = None.
Proof.
  intros H Hp. unfold plus. rewrite exec_seq, (exec_chr _ _ _ x t H), Hp. reflexivity.
Qed.

(** A word followed by a blank does not go on with an opening bracket after
    a word. *)
Lemma word_then_paren word c t : forall v t',
  forallb is_word word = true -> is_space c = true -> forallb is_word v = true ->
  word ++ c :: t = v ++ ch "(" :: t' -> False.
Proof.
  induction word as [|x word IH]; intros v t' Hw Hc Hv E.
  - destruct v as [|y v]; simpl in E.
    + injection E as E _. subst c. discriminate.
    + injection E as E _. subst y. simpl in Hv.
      apply andb_true_iff in Hv as [Hy _]. destruct (space_no_word c Hc). congruence.
  - simpl in Hw. apply andb_true_iff in Hw as [Hx Hw].
    destruct v as [|y v]; simpl in E.
    + injection E as E _. subst x. discriminate.
    + injection E as _ E. simpl in Hv. apply andb_true_iff in Hv as [_ Hv].
      apply (IH v t' Hw Hc Hv E).
Qed.

Lemma lit_paren_fails v r word c t st k :
  forallb is_word v = true ->
  forallb is_word word = true -> is_space c = true ->
  rest st = word ++ c :: t ->
  exec (Seq (lit v) (Seq (one "(") r)) st k = None.
Proof.
  intros Hv Hw Hc Hr. rewrite exec_seq.
  destruct (exec (lit v) st _) as [res|] eqn:E; [|reflexivity].
  exfalso. apply exec_lit_inv in E as (t1 & R1 & E).
  rewrite exec_seq in E. unfold one in E.
  destruct (rest (eat v st)) as [|y t2] eqn:R2; [rewrite exec_chr_nil in E by exact R2; discriminate|].
  rewrite (exec_chr _ _ _ y t2 R2) in E.
  destruct (Ascii.eqb (ch "(") y) eqn:Ey; [|discriminate].
  apply Ascii.eqb_eq in Ey. subst y.
  rewrite (eat_rest v t1 st R1) in R2. subst t1.
  rewrite Hr in R1. apply (word_then_paren word c t v t2 Hw Hc Hv R1).
Qed.

(** The word that the value patterns find at a word. *)
Lemma enum_group_run word c t st :
  word <> [] -> forallb is_word word = true -> is_space c = true ->
  rest st = word ++ c :: t ->
  exec (Grp "enum" (plus (Chr is_word))) st Some
  = Some (close_group "enum" (pos st) (eat word st)).
Proof.
  intros Hne Hw Hc Hr. rewrite exec_grp.
  destruct word as [|x word]; [congruence|].
  simpl in Hw. apply andb_true_iff in Hw as [Hx Hw].
  unfold plus. rewrite exec_seq, (exec_chr _ _ _ x (word ++ c :: t) Hr), Hx.
  apply (star_chr_longest is_word _ word (c :: t)); [exact Hw| |apply space_no_word; exact Hc|].
  - apply (eat_rest [x]). exact Hr.
  - change (x :: word) with ([x] ++ word). rewrite eat_app. reflexivity.
Qed.

(** Blanks and then a number do not match where blanks and then a word
    that begins with no digit stand. *)
Lemma value_group_fails name lead word t st k :
  forallb blank lead = true ->
  match word with x :: _ => is_word x = true /\ is_digit x = false | [] => False end ->
  rest st = lead ++ word ++ t ->
  exec (Grp name (Seq (Star true (Chr blank)) (plus (Chr dash_digit)))) st k = None.
Proof.
  intros Hlead Hword Hr. rewrite exec_grp, exec_seq.
  destruct (exec (Star true (Chr blank)) st _) as [res|] eqn:E; [|reflexivity].
  exfalso. apply star_class_sound in E as (w1 & t1 & R1 & Hw1 & E).
  destruct word as [|x word]; [contradiction|]. destruct Hword as [Hx Hd].
  destruct (word_head_no_token x Hx Hd) as (Hb & Hdd & _).
  assert (Hfirst : exists y t2, t1 = y :: t2 /\ dash_digit y = false).
  { rewrite Hr in R1. clear -R1 Hw1 Hlead Hb Hdd.
    revert w1 R1 Hw1. induction lead as [|b lead IH]; intros w1 R1 Hw1.
    - destruct w1 as [|y w1]; simpl in R1.
      + exists x, (word ++ t). auto.
      + injection R1 as -> _. simpl in Hw1. apply andb_true_iff in Hw1 as [Hy _]. congruence.
    - simpl in Hlead. apply andb_true_iff in Hlead as [Hbb Hlead].
      destruct w1 as [|y w1]; simpl in R1.
      + exists b, (lead ++ (x :: word) ++ t). split; [symmetry; exact R1|].
        apply (blank_no_token b Hbb).
      + injection R1 as _ R1. simpl in Hw1. apply andb_true_iff in Hw1 as [_ Hw1].
        apply (IH Hlead w1 R1 Hw1). }
  destruct Hfirst as (y & t2 & -> & Hy).
  rewrite (plus_fails dash_digit _ _ y t2) in E; [discriminate| |exact Hy].
  apply (eat_rest w1). exact R1.
Qed.

Lemma lit_word_fails v r lead word c t st k :
  forallb is_word v = true -> forallb blank lead = true ->
  forallb is_word word = true -> is_space c = true ->
  rest st = lead ++ word ++ c :: t ->
  exec (Seq (lit v) (Seq (one "(") r)) st k = None.
Proof.
  intros Hv Hlead Hw Hc Hr.
  destruct lead as [|b lead]; [apply (lit_paren_fails v r word c t); assumption|].
  simpl in Hlead. apply andb_true_iff in Hlead as [Hb _].
  rewrite exec_seq.
  destruct (exec (lit v) st _) as [res|] eqn:E; [|reflexivity].
  exfalso. apply exec_lit_inv in E as (t1 & R1 & E).
  rewrite Hr in R1. destruct v as [|y v].
  - simpl in R1. subst t1. cbn [eat] in E. cbv beta in E. rewrite exec_seq in E. unfold one in E.
    rewrite (exec_chr _ _ _ b (lead ++ word ++ c :: t)) in E by exact Hr.
    destruct (Ascii.eqb (ch "(") b) eqn:Eb; [|discriminate].
    apply Ascii.eqb_eq in Eb. subst b. discriminate.
  - simpl in R1. injection R1 as -> _. simpl in Hv. apply andb_true_iff in Hv as [Hy _].
    destruct (blank_no_token y Hb). congruence.
Qed.

(** What the alternatives of the two value patterns find where blanks and
    then a word that begins with no digit stand: at the word the word,
    taken for the name of an enum constant, and before it nothing. *)
Lemma value_alternatives lead word c t st :
  forallb blank lead = true ->
  word <> [] -> forallb is_word word = true ->
  match word with x :: _ => is_digit x = false | [] => True end ->
  is_space c = true ->
  rest st = lead ++ word ++ c :: t ->
  let found := match lead with
               | [] => Some (close_group "enum" (pos st) (eat word st))
               | _ :: _ => None
               end in
  exec (Alt (Grp "v" (Seq (Star true (Chr blank)) (plus (Chr dash_digit))))
            (Grp "enum" (plus (Chr is_word)))) st Some = found
  /\ exec (Alt (Seq (Alt (lit (py "V")) (lit (py "Value")))
                  (Seq (one "(")
                     (Seq (Grp "v" (Seq (Star true (Chr is_space)) (plus (Chr dash_digit))))
                        (Seq (Star true (Chr is_space)) (one ")")))))
              (Grp "enum" (plus (Chr is_word)))) st Some = found.
Proof.
  intros Hlead Hne Hw Hd Hc Hr found.
  assert (Hhead : match word with
                  | x :: _ => is_word x = true /\ is_digit x = false
                  | [] => False
                  end).
  { destruct word as [|x word]; [congruence|]. simpl in Hw.
    apply andb_true_iff in Hw as [Hx _]. auto. }
  assert (Henum : exec (Grp "enum" (plus (Chr is_word))) st Some = found).
  { unfold found. destruct lead as [|b lead].
    - apply (enum_group_run word c t); assumption.
    - simpl in Hlead. apply andb_true_iff in Hlead as [Hb _].
      rewrite exec_grp. apply (plus_fails is_word _ _ b (lead ++ word ++ c :: t) Hr).
      apply (blank_no_token b Hb). }
  split.
  - change (exec (Alt ?a ?b) st Some)
      with (match exec a st Some with Some res => Some res | None => exec b st Some end).
    rewrite (value_group_fails "v" lead word (c :: t)) by assumption.
    exact Henum.
  - change (exec (Alt (Seq (Alt ?a1 ?a2) ?r) ?b) st Some)
      with (match (match exec (Seq a1 r) st Some with
                   | Some res => Some res
                   | None => exec (Seq a2 r) st Some
                   end) with
            | Some res => Some res
            | None => exec b st Some
            end).
    rewrite (lit_word_fails (py "V") _ lead word c t) by (assumption || reflexivity).
    rewrite (lit_word_fails (py "Value") _ lead word c t) by (assumption || reflexivity).
    exact Henum.
Qed.

Lemma lazy_star_now r st k res : k st = Some res -> exec (Star false r) st k = Some res.
Proof.
  intros H. simpl. destruct (length (rest st)); simpl; rewrite H; reflexivity.
Qed.

Lemma code_prefix_blank st k b t :
  rest st = b :: t -> blank b = true ->
  exec code_prefix st k
  = match k st with Some res => Some res | None => exec code_prefix (eat [b] st) k end.
Proof.
  intros H Hb. destruct (blank_no_token b Hb) as (_ & _ & Hn & Hh & Hs & _).
  unfold code_prefix. simpl. rewrite H. simpl. rewrite H.
  destruct (k st); [reflexivity|].
  unfold ch in Hh, Hs. simpl in Hh, Hs. rewrite Hh, Hs, Hn.
  replace (pos st <? S (pos st))%nat with true by (symmetry; apply Nat.ltb_lt; lia).
  reflexivity.
Qed.

(** The first word of a text that begins with blanks and a word, as the
    value patterns find it. *)
Lemma first_word_found alt word c t :
  (forall lead st, forallb blank lead = true -> rest st = lead ++ word ++ c :: t ->
     exec alt st Some = match lead with
                        | [] => Some (close_group "enum" (pos st) (eat word st))
                        | _ :: _ => None
                        end) ->
  forall lead st, forallb blank lead = true -> rest st = lead ++ word ++ c :: t ->
    exec (Seq code_prefix alt) st Some
    = Some (close_group "enum" (pos (eat lead st)) (eat word (eat lead st))).
Proof.
  intros Halt. induction lead as [|b lead IH]; intros st Hlead Hr; rewrite exec_seq.
  - apply lazy_star_now. apply (Halt [] st eq_refl Hr).
  - pose proof Hlead as Hlead'. simpl in Hlead'. apply andb_true_iff in Hlead' as [Hb Hl].
    rewrite (code_prefix_blank st _ b (lead ++ word ++ c :: t) Hr Hb).
    rewrite (Halt (b :: lead) st Hlead Hr).
    rewrite <- exec_seq. rewrite (IH (eat [b] st) Hl); [reflexivity|].
    apply (eat_rest [b]). exact Hr.
Qed.

Lemma first_word_search s lead word c t :
  s = lead ++ word ++ c :: t ->
  forallb blank lead = true ->
  word <> [] -> forallb is_word word = true ->
  match word with x :: _ => is_digit x = false | [] => True end ->
  is_space c = true ->
  search int_pattern s
  = Some (mkMatch s O (length lead + length word)
            [("enum"%string, (length lead, (length lead + length word)%nat))])
  /\ search value_pattern s
     = Some (mkMatch s O (length lead + length word)
               [("enum"%string, (length lead, (length lead + length word)%nat))]).
Proof.
  intros Hs Hlead Hne Hw Hd Hc.
  assert (R0 : rest (state_at s 0) = lead ++ word ++ c :: t) by (simpl; exact Hs).
  assert (P : pos (eat word (eat lead (state_at s 0))) = (length lead + length word)%nat)
    by (rewrite !eat_pos; reflexivity).
  assert (Pl : pos (eat lead (state_at s 0)) = length lead) by (rewrite eat_pos; reflexivity).
  assert (C : caps (eat word (eat lead (state_at s 0))) = []) by (rewrite !eat_caps; reflexivity).
  split.
  - change (search int_pattern s)
      with (search_from int_pattern s (state_at s 0) (skipn 0 s)).
    rewrite search_from_at. unfold int_pattern.
    rewrite exec_seq, exec_bol_start by reflexivity.
    rewrite (first_word_found _ word c t) with (lead := lead); [| |exact Hlead|exact R0].
    + cbn [pos caps close_group]. rewrite P, Pl, C. reflexivity.
    + intros lead' st' Hl' Hr'.
      apply (proj1 (value_alternatives lead' word c t st' Hl' Hne Hw Hd Hc Hr')).
  - change (search value_pattern s)
      with (search_from value_pattern s (state_at s 0) (skipn 0 s)).
    rewrite search_from_at. unfold value_pattern.
    rewrite exec_seq, exec_bol_start by reflexivity.
    rewrite (first_word_found _ word c t) with (lead := lead); [| |exact Hlead|exact R0].
    + cbn [pos caps close_group]. rewrite P, Pl, C. reflexivity.
    + intros lead' st' Hl' Hr'.
      apply (proj2 (value_alternatives lead' word c t st' Hl' Hne Hw Hd Hc Hr')).
Qed.

(** X20. A request for a name with no [m] or [e] before it and with no
    index, whose definition holds no brace after its [=] and begins,
    after blanks at most, with a word that starts with no digit (its type
    or a qualifier), never changes the value of the definition: the value
    patterns are run from the start of the definition and find that word,
    which is taken for the name of an enum constant. When no enum holds
    the word the request is skipped, or it has failed before, and the
    world is as it was. *)
Theorem scalar_definition_not_patched (w : world) (inp : spsa_input) (f_round : rounding)
  (md : rmatch) (k : nat) (lead word : pystr) (c : ascii) (t : pystr) :
  startswith (name inp) (py "m") || startswith (name inp) (py "e") = false ->
  parse_indices w (indices inp) = Ret [] ->
  search_def w (name inp) false = Ret (Some (md, k)) ->
  py_find (group0 md) [ch "{"] (py_find (group0 md) [ch "="] 0) = -1 ->
  group0 md = lead ++ word ++ c :: t ->
  forallb blank lead = true ->
  word <> [] -> forallb is_word word = true ->
  match word with x :: _ => is_digit x = false | [] => True end ->
  is_space c = true ->
  search_def w word true = Ret None ->
  exists r,
    process_spsa_match w inp f_round = (w, r)
    /\ (r = Ret (Skipped (EnumNotHandled word))
        \/ (exists type, r = Ret (Skipped (UnknownType type)))
        \/ (exists e, r = Raise e)).
Proof.
  intros Hname Hidx Hdef Hbrace Hs Hlead Hne Hw Hd Hc Henum.
  destruct (first_word_search (group0 md) lead word c t Hs Hlead Hne Hw Hd Hc) as [Si Sv].
  assert (Hi : find_index (group0 md) [] = 0).
  { unfold find_index. rewrite Hbrace. reflexivity. }
  assert (Hloc : forall mv,
            mv = mkMatch (group0 md) O (length lead + length word)
                   [("enum"%string, (length lead, (length lead + length word)%nat))] ->
            literal_or_enum w md k mv (py "v") 0 = Ret (inl (EnumNotHandled word))).
  { intros mv ->. unfold literal_or_enum, group_or_raise, group, bind.
    cbn [m_caps m_string lookup string_of_list_ascii py list_ascii_of_string
         String.eqb Ascii.eqb Bool.eqb].
    rewrite Hs, (app_assoc lead). 
    replace (substr ((lead ++ word) ++ c :: t) (length lead) (length lead + length word))
      with word.
    - rewrite Henum. reflexivity.
    - rewrite <- (app_assoc lead). symmetry. apply substr_middle. }
  unfold process_spsa_match, spsa_patch. rewrite Hname, Hidx. unfold bind at 1.
  rewrite Hdef. unfold bind at 1. cbv zeta. rewrite Hi, slice_from_0.
  destruct (py_float (value_new inp)) as [x|e]; unfold bind at 1;
    [|eexists; split; [reflexivity|right; right; eexists; reflexivity]].
  destruct (int_round f_round x) as [n|e]; unfold bind at 1;
    [|eexists; split; [reflexivity|right; right; eexists; reflexivity]].
  destruct (group_or_raise md "type") as [type|e]; unfold bind at 1;
    [|eexists; split; [reflexivity|right; right; eexists; reflexivity]].
  destruct (negb (Bool.eqb (str_eqb type (py "Score")) (is_score_prefix (py "v"))));
    [eexists; split; [reflexivity|right; right; eexists; reflexivity]|].
  unfold select_pattern. change (is_score_prefix (py "v")) with false. cbv iota.
  destruct (str_eqb type (py "Value")).
  - rewrite Sv. rewrite (Hloc _ eq_refl). unfold bind.
    eexists. split; [reflexivity|left; reflexivity].
  - destruct (in_int type).
    + rewrite Si. rewrite (Hloc _ eq_refl). unfold bind.
      eexists. split; [reflexivity|left; reflexivity].
    + eexists. split; [reflexivity|right; left; eexists; reflexivity].
Qed.

Lemma scalar_definition_not_patched_witness :
  exists r,
    process_spsa_match razor_world futility_request round = (razor_world, r)
    /\ (r = Ret (Skipped (EnumNotHandled (py "int")))
        \/ (exists type, r = Ret (Skipped (UnknownType type)))
        \/ (exists e, r = Raise e)).
Proof.
  apply (scalar_definition_not_patched razor_world futility_request round
           futility_def_match 0 [] (py "int") (ch " ") (py "futility = 3;")).
  - reflexivity.
  - reflexivity.
  - vm_compute. reflexivity.
  - vm_compute. reflexivity.
  - vm_compute. reflexivity.
  - reflexivity.
  - discriminate.
  - reflexivity.
  - reflexivity.
  - reflexivity.
  - vm_compute. reflexivity.
Defined.

(** ** A request for an element of a flat array of integers *)





(** One or more of a class, with the longest run [w] before [t], goes on
    from the end of [w] when what follows succeeds there. *)
Lemma plus_chr_longest p k st w t res :
  w <> [] -> forallb p w = true ->
  match t with c :: _ => p c = false | [] => True end ->
  rest st = w ++ t ->
  k (eat w st) = Some res ->
  exec (plus (Chr p)) st k = Some res.
Proof.
  intros Hne Hw Ht Hr Hk. destruct w as [|d w]; [congruence|].
  simpl in Hw. apply andb_true_iff in Hw as [Hd Hw].
  unfold plus. rewrite exec_seq, (exec_chr _ _ _ d (w ++ t)) by exact Hr.
  rewrite Hd. apply (star_chr_longest p _ w t); auto.
  simpl. rewrite Hr. reflexivity.
Qed.












(** ** The lines that align mode reads *)

Lemma exec_eol st k : exec eol st k = if at_end (rest st) then k st else None.
Proof.
  unfold eol, opt. rewrite !exec_notahead, exec_seq.
  change (exec (Alt ?a ?b) st ?K)
    with (match exec a st K with Some r => Some r | None => exec b st K end).
  change (exec Eps st ?K) with (K st). cbv beta. rewrite exec_notahead.
  destruct (rest st) as [|c [|d t]] eqn:R; cbn [at_end].
  - rewrite !exec_chr_nil by exact R. reflexivity.
  - rewrite (exec_chr (Ascii.eqb LF) _ _ c [] R), (exec_chr any_char _ _ c [] R).
    rewrite exec_notahead, exec_chr_nil by (apply (eat_rest [c]); exact R).
    unfold any_char. destruct (Ascii.eqb LF c); reflexivity.
  - rewrite (exec_chr (Ascii.eqb LF) _ _ c (d :: t) R), (exec_chr any_char _ _ c (d :: t) R).
    rewrite exec_notahead, (exec_chr any_char _ _ d t) by (apply (eat_rest [c]); exact R).
    unfold any_char. destruct (Ascii.eqb LF c); reflexivity.
Qed.

Lemma exec_chr_inv p st k res :
  exec (Chr p) st k = Some res ->
  exists c t, rest st = c :: t /\ p c = true /\ k (eat [c] st) = Some res.
Proof.
  intros H. destruct (rest st) as [|c t] eqn:R.
  - rewrite exec_chr_nil in H by exact R. discriminate.
  - rewrite (exec_chr _ _ _ c t R) in H. destruct (p c) eqn:P; [|discriminate].
    exists c, t. auto.
Qed.

(** Whatever one or more of a class gives, it gives after a run of the
    class that is not empty. *)
Lemma plus_class_sound p k st res :
  exec (plus (Chr p)) st k = Some res ->
  exists w t, rest st = w ++ t /\ w <> [] /\ forallb p w = true /\ k (eat w st) = Some res.
Proof.
  unfold plus. rewrite exec_seq. intros H.
  apply exec_chr_inv in H as (c & t & R & P & H).
  apply star_class_sound in H as (w & t' & R' & W & H).
  rewrite (eat_rest [c] t st R) in R'. subst t.
  exists (c :: w), t'. repeat split; auto.
  - discriminate.
  - simpl. rewrite P. exact W.
Qed.

Lemma at_end_spaces t : at_end t = true -> forallb is_space t = true.
Proof.
  destruct t as [|c [|d t]]; cbn [at_end]; intros H.
  - reflexivity.
  - apply Ascii.eqb_eq in H. subst c. reflexivity.
  - discriminate.
Qed.

Lemma hd_space_stops (t : pystr) :
  forallb is_space t = true ->
  match t with c :: _ => no_space c = false | [] => True end.
Proof.
  destruct t as [|c t]; [auto|]. simpl. intros H.
  apply andb_true_iff in H as [H _]. unfold no_space. rewrite H. reflexivity.
Qed.

Lemma hd_no_space_stops (w t : pystr) :
  w <> [] -> forallb no_space w = true ->
  match w ++ t with c :: _ => is_space c = false | [] => True end.
Proof.
  destruct w as [|c w]; [congruence|]. simpl. intros _ H.
  apply andb_true_iff in H as [H _]. unfold no_space in H.
  destruct (is_space c); [discriminate|reflexivity].
Qed.

(** The run of [align_line_pattern] on blanks, a name and blanks. *)
Lemma align_line_run lead nm trail st :
  forallb is_space lead = true -> nm <> [] -> forallb no_space nm = true ->
  forallb is_space trail = true ->
  rest st = lead ++ nm ++ trail -> prev st = None ->
  exec align_line_pattern st Some
  = Some (eat trail (close_group "name" (pos (eat lead st)) (eat nm (eat lead st)))).
Proof.
  intros Hlead Hne Hnm Htrail R Hp.
  unfold align_line_pattern.
  rewrite exec_seq, exec_bol_start by exact Hp. rewrite exec_seq.
  apply (star_chr_longest is_space _ lead (nm ++ trail)); auto.
  { apply hd_no_space_stops; auto. }
  rewrite exec_seq, exec_grp.
  assert (R1 : rest (eat lead st) = nm ++ trail) by (apply eat_rest; exact R).
  apply (plus_chr_longest no_space _ _ nm trail); auto.
  { apply hd_space_stops; exact Htrail. }
  rewrite exec_seq.
  assert (R2 : rest (close_group "name" (pos (eat lead st)) (eat nm (eat lead st)))
               = trail ++ []).
  { cbn [rest close_group]. rewrite app_nil_r. apply eat_rest. exact R1. }
  apply (star_chr_longest is_space _ trail []); auto.
  rewrite exec_eol, (eat_rest trail [] _ R2). reflexivity.
Qed.

(** What the run of [align_line_pattern] at the start of a text shows of
    the text. *)
Lemma align_line_sound st res :
  prev st = None ->
  exec align_line_pattern st Some = Some res ->
  exists lead nm trail,
    rest st = lead ++ nm ++ trail
    /\ forallb is_space lead = true /\ nm <> [] /\ forallb no_space nm = true
    /\ forallb is_space trail = true.
Proof.
  intros Hp E. unfold align_line_pattern in E.
  rewrite exec_seq, exec_bol_start in E by exact Hp. rewrite exec_seq in E.
  apply star_class_sound in E as (lead & t0 & R0 & Hlead & E).
  rewrite exec_seq, exec_grp in E.
  apply plus_class_sound in E as (nm & t1 & R1 & Hne & Hnm & E).
  rewrite (eat_rest lead t0 st R0) in R1. subst t0.
  rewrite exec_seq in E.
  apply star_class_sound in E as (tr & t2 & R2 & Htr & E).
  cbn [rest close_group] in R2.
  rewrite (eat_rest nm t1) in R2 by (apply (eat_rest lead); exact R0). subst t1.
  rewrite exec_eol in E.
  destruct (at_end (rest (eat tr (close_group "name" (pos (eat lead st)) (eat nm (eat lead st))))))
    eqn:A; [|discriminate].
  rewrite (eat_rest tr t2) in A
    by (cbn [rest close_group]; apply (eat_rest nm); apply (eat_rest lead); exact R0).
  exists lead, nm, (tr ++ t2). repeat split; auto.
  rewrite forallb_app, Htr. apply at_end_spaces. exact A.
Qed.

Lemma name_group lead nm trail :
  group (mkMatch (lead ++ nm ++ trail) O
           (pos (eat trail (close_group "name" (pos (eat lead (start_state (lead ++ nm ++ trail))))
                              (eat nm (eat lead (start_state (lead ++ nm ++ trail)))))))
           (caps (eat trail (close_group "name" (pos (eat lead (start_state (lead ++ nm ++ trail))))
                               (eat nm (eat lead (start_state (lead ++ nm ++ trail))))))))
    "name" = Some nm.
Proof.
  unfold group. rewrite eat_caps. cbn [m_caps m_string caps close_group lookup].
  simpl String.eqb. cbv iota. rewrite !eat_pos. cbn [pos start_state]. f_equal.
  apply substr_middle.
Qed.

(** X22. Align mode reads a line as a name exactly when the line is white
    space, a run of characters that are not white space, and white space
    again; the run is the name it is given. A line that holds two words
    is not read. *)
Theorem read_align_line (s : pystr) :
  (forall m, read_line AlignParser s = Some m ->
     exists lead nm trail,
       s = lead ++ nm ++ trail
       /\ forallb is_space lead = true /\ nm <> [] /\ forallb no_space nm = true
       /\ forallb is_space trail = true
       /\ group m "name" = Some nm)
  /\ (forall lead nm trail,
        s = lead ++ nm ++ trail ->
        forallb is_space lead = true -> nm <> [] -> forallb no_space nm = true ->
        forallb is_space trail = true ->
        exists m, read_line AlignParser s = Some m /\ group m "name" = Some nm).
Proof.
  split.
  - intros m H. unfold read_line, match_, regex_pattern in H.
    destruct (exec align_line_pattern (start_state s) Some) as [res|] eqn:E; [|discriminate].
    destruct (align_line_sound (start_state s) res eq_refl E) as (lead & nm & trail & R & Hl & Hne & Hnm & Ht).
    cbn [rest start_state] in R.
    rewrite (align_line_run lead nm trail (start_state s) Hl Hne Hnm Ht R eq_refl) in E.
    injection E as <-. injection H as <-.
    exists lead, nm, trail. repeat split; auto.
    rewrite R. apply name_group.
  - intros lead nm trail -> Hl Hne Hnm Ht.
    unfold read_line, match_, regex_pattern.
    rewrite (align_line_run lead nm trail (start_state (lead ++ nm ++ trail)) Hl Hne Hnm Ht eq_refl eq_refl).
    eexists. split; [reflexivity|]. apply name_group.
Qed.

(** ** The lines that function mode reads *)

(** A greedy repetition of a class goes on where it stands when what
    follows fails after every run of the class. *)
Lemma star_chr_none_longer p k : forall r st,
  rest st = r ->
  (forall w t, rest st = w ++ t -> w <> [] -> forallb p w = true -> k (eat w st) = None) ->
  exec (Star true (Chr p)) st k = k st.
Proof.
  induction r as [|c r IH]; intros st R H.
  - apply star_chr_nil; exact R.
  - rewrite (star_chr_cons p k st c r R).
    destruct (p c) eqn:P; [|reflexivity].
    rewrite (IH (eat [c] st)).
    + rewrite (H [c] r R); [reflexivity|discriminate|simpl; rewrite P; reflexivity].
    + apply (eat_rest [c]); exact R.
    + intros w t Rw Hne Hw.
      rewrite (eat_rest [c] r st R) in Rw. subst r.
      change (eat w (eat [c] st)) with (eat (c :: w) st).
      apply (H (c :: w) t); [exact R|discriminate|simpl; rewrite P; exact Hw].
Qed.

(** It gives back what it took until what follows succeeds: with a run
    [w] after which that succeeds, and no longer run after which it does,
    the repetition ends after [w]. *)
Lemma star_chr_backtrack p k w t st res :
  forallb p w = true -> rest st = w ++ t ->
  (forall w' t', rest st = w' ++ t' -> forallb p w' = true ->
     (length w < length w')%nat -> k (eat w' st) = None) ->
  k (eat w st) = Some res ->
  exec (Star true (Chr p)) st k = Some res.
Proof.
  revert st. induction w as [|c w IH]; intros st Hw R H Hk.
  - rewrite (star_chr_none_longer p k (rest st) st eq_refl); [exact Hk|].
    intros w' t' R' Hne Hw'. apply (H w' t' R' Hw').
    destruct w'; [congruence|simpl; lia].
  - simpl in Hw. apply andb_true_iff in Hw as [Hc Hw].
    rewrite (star_chr_cons p k st c (w ++ t) R), Hc.
    rewrite (IH (eat [c] st)); auto.
    + apply (eat_rest [c]); exact R.
    + intros w' t' R' Hw' Hlen. rewrite (eat_rest [c] (w ++ t) st R) in R'.
      change (eat w' (eat [c] st)) with (eat (c :: w') st).
      apply (H (c :: w') t');
        [rewrite R; simpl; f_equal; exact R'|simpl; rewrite Hc; exact Hw'|simpl; lia].
Qed.

(** A lazy repetition of a class ends after the first run after which
    what follows succeeds. *)
Lemma star_lazy_first p k w t st res :
  forallb p w = true -> rest st = w ++ t ->
  (forall a b, w = a ++ b -> b <> [] -> k (eat a st) = None) ->
  k (eat w st) = Some res ->
  exec (Star false (Chr p)) st k = Some res.
Proof.
  revert st. induction w as [|c w IH]; intros st Hw R H Hk.
  - apply lazy_star_now. exact Hk.
  - simpl in Hw. apply andb_true_iff in Hw as [Hc Hw].
    rewrite (star_lazy_cons p k st c (w ++ t) R).
    assert (H0 : k st = None) by (apply (H [] (c :: w) eq_refl); discriminate).
    rewrite H0, Hc.
    apply IH; auto.
    + apply (eat_rest [c]); exact R.
    + intros a b -> Hb. change (eat a (eat [c] st)) with (eat (c :: a) st).
      apply (H (c :: a) b); [reflexivity|exact Hb].
Qed.

(** [\s*;] does not get through a text without a semicolon. *)
Lemma no_semicolon_fails r st k :
  ~ In (ch ";") (rest st) ->
  exec (Star true (Chr is_space) ;; one ";" ;; r) st k = None.
Proof.
  intros Hno.
  destruct (exec (Star true (Chr is_space) ;; one ";" ;; r) st k) as [res|] eqn:E;
    [|reflexivity].
  exfalso. rewrite exec_seq in E. apply star_class_sound in E as (w & t & R & _ & E).
  rewrite exec_seq in E. unfold one in E. apply exec_chr_inv in E as (c & t' & R' & Hc & _).
  rewrite (eat_rest w t st R) in R'. subst t. apply Ascii.eqb_eq in Hc. subst c.
  apply Hno. rewrite R. apply in_or_app. right. left. reflexivity.
Qed.

(** [\s*$] does not get through a text that holds a character other than
    white space. *)
Lemma not_blank_fails st k :
  forallb is_space (rest st) = false ->
  exec (Star true (Chr is_space) ;; eol) st k = None.
Proof.
  intros Hno.
  destruct (exec (Star true (Chr is_space) ;; eol) st k) as [res|] eqn:E; [|reflexivity].
  exfalso. rewrite exec_seq in E. apply star_class_sound in E as (w & t & R & Hw & E).
  rewrite exec_eol, (eat_rest w t st R) in E.
  destruct (at_end t) eqn:A; [|discriminate].
  rewrite R, forallb_app, Hw, (at_end_spaces t A) in Hno. discriminate.
Qed.

Lemma split_longer {A} (a b w t : list A) :
  a ++ b = w ++ t -> (length a < length w)%nat ->
  exists x, x <> [] /\ w = a ++ x /\ b = x ++ t.
Proof.
  revert w. induction a as [|c a IH]; intros w H L.
  - exists w. repeat split; auto. destruct w; [simpl in L; lia|discriminate].
  - destruct w as [|d w]; [simpl in L; lia|].
    simpl in H. injection H as -> H. simpl in L.
    destruct (IH w H) as (x & Hx & -> & ->); [lia|].
    exists x. auto.
Qed.

Lemma spaces_no_semicolon s : forallb is_space s = true -> ~ In (ch ";") s.
Proof.
  intros H Hin. rewrite forallb_forall in H. apply H in Hin. discriminate.
Qed.

Lemma formula_text_parts f :
  formula_text f = true ->
  forallb not_newline f = true /\ ~ In (ch ";") f
  /\ (exists c f', f = c :: f' /\ no_space c = true)
  /\ (forall a b t, f = a ++ b -> b <> [] -> forallb is_space (b ++ t) = false).
Proof.
  unfold formula_text. intros H.
  apply andb_true_iff in H as [H Hlast]. apply andb_true_iff in H as [Hall Hfirst].
  rewrite forallb_forall in Hall.
  split; [|split; [|split]].
  - apply forallb_forall. intros c Hc. apply Hall in Hc.
    apply andb_true_iff in Hc as [Hc _]. exact Hc.
  - intros Hin. apply Hall in Hin. apply andb_true_iff in Hin as [_ Hin].
    rewrite Ascii.eqb_refl in Hin. discriminate.
  - destruct f as [|c f']; [discriminate|]. exists c, f'. auto.
  - intros a b t -> Hb. rewrite rev_app_distr in Hlast.
    destruct (rev b) as [|c r] eqn:Rb.
    + apply (f_equal (@rev _)) in Rb. rewrite rev_involutive in Rb. simpl in Rb. congruence.
    + simpl in Hlast. apply (f_equal (@rev _)) in Rb. rewrite rev_involutive in Rb.
      simpl in Rb. subst b. rewrite <- app_assoc, forallb_app. cbn [app forallb].
      unfold no_space in Hlast. destruct (is_space c); [discriminate|].
      cbn [andb]. apply andb_false_r.
Qed.

(** The run of [function_line_pattern] on a name, a semicolon and a
    formula with white space around them. *)
Lemma function_line_run lead nm sp1 sp2 f trail st :
  forallb is_space lead = true -> nm <> [] -> forallb no_space nm = true ->
  forallb is_space sp1 = true -> forallb is_space sp2 = true ->
  formula_text f = true -> forallb is_space trail = true ->
  rest st = lead ++ nm ++ sp1 ++ ch ";" :: sp2 ++ f ++ trail -> prev st = None ->
  let st1 := eat lead st in
  let st2 := close_group "name" (pos st1) (eat nm st1) in
  let st3 := eat sp2 (eat [ch ";"] (eat sp1 st2)) in
  exec function_line_pattern st Some
  = Some (eat trail (close_group "func" (pos st3) (eat f st3))).
Proof.
  intros Hlead Hne Hnm Hsp1 Hsp2 Hf Htrail R Hp st1 st2 st3.
  destruct (formula_text_parts f Hf) as (Hnl & Hsemi & (c0 & f' & -> & Hc0) & Hlast).
  destruct nm as [|c nm']; [congruence|].
  pose proof Hnm as Hnm0. simpl in Hnm0. apply andb_true_iff in Hnm0 as [Hc Hnm'].
  assert (R1 : rest st1 = (c :: nm') ++ sp1 ++ ch ";" :: sp2 ++ (c0 :: f') ++ trail)
    by (apply (eat_rest lead); exact R).
  assert (R2 : rest st2 = sp1 ++ ch ";" :: sp2 ++ (c0 :: f') ++ trail)
    by (unfold st2; cbn [rest close_group]; apply (eat_rest (c :: nm')); exact R1).
  assert (R3 : rest st3 = (c0 :: f') ++ trail).
  { unfold st3. apply (eat_rest sp2). apply (eat_rest [ch ";"]). apply (eat_rest sp1).
    exact R2. }
  unfold function_line_pattern.
  change (fun c1 : ascii => negb (is_space c1)) with no_space.
  rewrite exec_seq, exec_bol_start by exact Hp. rewrite exec_seq.
  apply (star_chr_longest is_space _ lead ((c :: nm') ++ sp1 ++ ch ";" :: sp2 ++ (c0 :: f') ++ trail));
    [exact Hlead|exact R| |].
  { simpl. unfold no_space in Hc. destruct (is_space c); [discriminate|reflexivity]. }
  fold st1. rewrite exec_seq, exec_grp. unfold plus. rewrite exec_seq.
  rewrite (exec_chr _ _ _ c (nm' ++ sp1 ++ ch ";" :: sp2 ++ (c0 :: f') ++ trail)) by exact R1.
  rewrite Hc.
  apply (star_chr_backtrack no_space _ nm' (sp1 ++ ch ";" :: sp2 ++ (c0 :: f') ++ trail));
    [exact Hnm'| | |].
  { apply (eat_rest [c]). exact R1. }
  { intros w' t' R' Hw' Hlen. apply no_semicolon_fails. cbn [rest close_group].
    rewrite (eat_rest w' t' _ R').
    rewrite (eat_rest [c] _ st1 R1) in R'.
    destruct (split_longer _ _ _ _ R' Hlen) as (x & Hx & -> & Hb).
    rewrite forallb_app in Hw'. apply andb_true_iff in Hw' as [_ Hx'].
    destruct sp1 as [|s sp1].
    - destruct x as [|x0 x]; [congruence|]. simpl in Hb. injection Hb as _ Hb.
      intros Hin. assert (Hin' : In (ch ";") (x ++ t'))
        by (apply in_or_app; right; exact Hin).
      rewrite <- Hb in Hin'.
      apply in_app_or in Hin' as [Hin'|Hin'];
        [exact (spaces_no_semicolon sp2 Hsp2 Hin')|].
      change (In (ch ";") ((c0 :: f') ++ trail)) in Hin'.
      apply in_app_or in Hin' as [Hin'|Hin'];
        [exact (Hsemi Hin')|exact (spaces_no_semicolon trail Htrail Hin')].
    - exfalso. destruct x as [|x0 x]; [congruence|]. simpl in Hb. injection Hb as <- _.
      simpl in Hsp1, Hx'. apply andb_true_iff in Hsp1 as [Hs _].
      apply andb_true_iff in Hx' as [Hx0 _]. unfold no_space in Hx0.
      rewrite Hs in Hx0. discriminate. }
  change (eat nm' (eat [c] st1)) with (eat (c :: nm') st1). fold st2.
  rewrite exec_seq.
  apply (star_chr_longest is_space _ sp1 (ch ";" :: sp2 ++ (c0 :: f') ++ trail));
    [exact Hsp1|exact R2|reflexivity|].
  rewrite exec_seq. unfold one.
  rewrite (exec_chr _ _ _ (ch ";") (sp2 ++ (c0 :: f') ++ trail))
    by (apply (eat_rest sp1); exact R2).
  rewrite Ascii.eqb_refl. rewrite exec_seq.
  apply (star_chr_longest is_space _ sp2 ((c0 :: f') ++ trail)); [exact Hsp2| | |].
  { apply (eat_rest [ch ";"]). apply (eat_rest sp1). exact R2. }
  { simpl. unfold no_space in Hc0. destruct (is_space c0); [discriminate|reflexivity]. }
  fold st3. rewrite exec_seq, exec_grp, exec_seq.
  rewrite (exec_chr _ _ _ c0 (f' ++ trail)) by exact R3.
  simpl in Hnl. apply andb_true_iff in Hnl as [Hn0 Hnl]. rewrite Hn0.
  apply (star_lazy_first not_newline _ f' trail); [exact Hnl| | |].
  { apply (eat_rest [c0]). exact R3. }
  { intros a b -> Hb. apply not_blank_fails. cbn [rest close_group].
    rewrite (eat_rest a (b ++ trail)).
    - apply (Hlast (c0 :: a) b trail); [reflexivity|exact Hb].
    - apply (eat_rest [c0]). rewrite R3. cbn [app]. rewrite <- app_assoc. reflexivity. }
  change (eat f' (eat [c0] st3)) with (eat (c0 :: f') st3).
  rewrite exec_seq.
  assert (R4 : rest (close_group "func" (pos st3) (eat (c0 :: f') st3)) = trail ++ []).
  { cbn [rest close_group]. rewrite app_nil_r. apply (eat_rest (c0 :: f')). exact R3. }
  apply (star_chr_longest is_space _ trail []); [exact Htrail|exact R4|exact I|].
  rewrite exec_eol, (eat_rest trail [] _ R4). reflexivity.
Qed.

(** X23. Function mode reads a line made of a name, a semicolon and a
    formula, with white space before, between and after them, as that name
    and that formula, when the name holds no white space and the formula
    begins and ends with a character that is not white space and holds no
    line break and no semicolon. The name may hold semicolons: it goes up
    to the last semicolon of the line. *)
Theorem read_function_line (lead nm sp1 sp2 f trail : pystr) :
  forallb is_space lead = true ->
  nm <> [] ->
  forallb no_space nm = true ->
  forallb is_space sp1 = true ->
  forallb is_space sp2 = true ->
  formula_text f = true ->
  forallb is_space trail = true ->
  exists m,
    read_line FunctionParser (lead ++ nm ++ sp1 ++ ch ";" :: sp2 ++ f ++ trail) = Some m
    /\ function_groups m = Ret (mkFunctionInput nm f).
Proof.
  intros Hlead Hne Hnm Hsp1 Hsp2 Hf Htrail.
  set (s := lead ++ nm ++ sp1 ++ ch ";" :: sp2 ++ f ++ trail).
  unfold read_line, match_, regex_pattern.
  rewrite (function_line_run lead nm sp1 sp2 f trail (start_state s)
             Hlead Hne Hnm Hsp1 Hsp2 Hf Htrail eq_refl eq_refl).
  eexists. split; [reflexivity|].
  set (st1 := eat lead (start_state s)).
  set (st2 := close_group "name" (pos st1) (eat nm st1)).
  set (st3 := eat sp2 (eat [ch ";"] (eat sp1 st2))).
  assert (P1 : pos st1 = length lead) by (unfold st1; rewrite eat_pos; reflexivity).
  assert (P2 : pos st2 = (length lead + length nm)%nat)
    by (unfold st2; cbn [pos close_group]; rewrite eat_pos, P1; reflexivity).
  assert (P3 : pos st3 = length (lead ++ nm ++ sp1 ++ ch ";" :: sp2)).
  { unfold st3. rewrite !eat_pos, P2. repeat (rewrite ?length_app; cbn [length]). lia. }
  assert (C : caps (eat trail (close_group "func" (pos st3) (eat f st3)))
              = [("func"%string, (pos st3, (pos st3 + length f)%nat));
                 ("name"%string, (pos st1, pos st2))]).
  { rewrite eat_caps. cbn [caps close_group pos]. rewrite eat_caps, eat_pos.
    unfold st3. rewrite !eat_caps. unfold st2. cbn [caps close_group pos].
    rewrite eat_caps. unfold st1. rewrite eat_caps. reflexivity. }
  unfold function_groups, group_or_raise, group. cbn [m_caps m_string]. rewrite C.
  cbn [lookup]. simpl String.eqb. cbv iota.
  assert (G1 : substr s (pos st1) (pos st2) = nm).
  { rewrite P1, P2. apply substr_middle. }
  assert (G2 : substr s (pos st3) (pos st3 + length f) = f).
  { rewrite P3. unfold s.
    replace (lead ++ nm ++ sp1 ++ ch ";" :: sp2 ++ f ++ trail)
      with ((lead ++ nm ++ sp1 ++ ch ";" :: sp2) ++ f ++ trail)
      by (repeat (rewrite <- ?app_assoc; cbn [app]); reflexivity).
    apply substr_middle. }
  rewrite G1, G2. reflexivity.
Qed.

Lemma read_function_line_witness :
  exists m,
    read_line FunctionParser
      (py " " ++ py "razor_margin" ++ [] ++ ch ";" :: py " " ++ py "2 * x" ++ []) = Some m
    /\ function_groups m = Ret (mkFunctionInput (py "razor_margin") (py "2 * x")).
Proof.
  apply (read_function_line (py " ") (py "razor_margin") [] (py " ") (py "2 * x") []);
    try reflexivity.
  discriminate.
Defined.

(** ** An index past the last element *)









(** ** Runs on small inputs *)

Example numbers_run :
  py_int (py " 200") = Ret 200 /\ py_int (py "-") = Raise ValueError
  /\ py_int (py "B") = Raise ValueError
  /\ (x <- py_float (py "250") ;; int_round round x) = Ret 250
  /\ (x <- py_float (py "-2.5") ;; int_round round x) = Ret (-3)
  /\ (x <- py_float (py "2.5e1") ;; int_round floor x) = Ret 25
  /\ (x <- py_float (py "0.4") ;; int_round ceil x) = Ret 1
  /\ (x <- py_float (py "199.7") ;; int_of_float x) = Ret 199
  /\ str_of_int 250 = py "250" /\ str_of_int (-7) = py "-7" /\ str_of_int 0 = py "0".
Proof. vm_compute. repeat split. Qed.

Example spsa_run :
  let w := world_of [(py "a.cpp", py "int margin[2] = {100, 200};")] in
  read_spsa_line (py "param: margin[1], best: 250, start: 200")
    = Some (mkInput (py "margin") (py "[1]") (py "250") (py "200"))
  /\ snd (process_spsa_match w (mkInput (py "margin") (py "[1]") (py "250") (py "200")) round)
     = Ret (Skipped DefinitionNotFound)
  /\ curr_texts (fst (process_spsa_match
        (world_of [(py "a.cpp", py "int razor[2] = {100, 200};")])
        (mkInput (py "razor") (py "[1]") (py "250") (py "200")) round))
     = [Some (py "int razor[2] = {100, 250};")].
Proof. vm_compute. repeat split. Qed.

Example align_run :
  fingerprint (py "  {1, 2},") = py "{,},"
  /\ align table3 = lines_text ["int A[3][2] = {"; "  { 1, 2},"; "  { 10, 2},"; "  {100, 2}"; "};"]
  /\ align (align table3) = lines_text ["int A[3][2] = {"; "  {  1, 2},"; "  { 10, 2},"; "  {100, 2}"; "};"]
  /\ align_until_fixed 5 [] table3 = Some (align (align table3)).
Proof. vm_compute. repeat split. Qed.

Example function_run :
  curr_texts (fst (process_function_match
         (fun _ => Some (fun x => match x with Finite q => Ret (Finite (Qmult (2#1) q)) | _ => Ret x end))
         (world_of [(py "a.cpp", py "int razor[2] = {100, -20};")])
         (mkFunctionInput (py "razor") (py "2*x")) round))
  = [Some (py "int razor[2] = {200, -40};")].
Proof. vm_compute. reflexivity. Qed.
